(** * Secondary-structure evaluation metrics of the notebook

    Shallow embedding of the three evaluation helpers defined in the
    notebook cell "Now we can evaluate the results with Q3 accuracy and
    segment of overlap":

    - [get_segments]        (runs of identical labels, with their positions),
    - [segment_of_overlap]  (the SOV score of two label strings),
    - [q3_acc]              (per-residue accuracy of two label arrays),

    together with [label_to_index], which turns a label string into the
    integer array that [q3_acc] receives.

    Conventions of the embedding:
    - a Python [str] is a [list ascii];
    - a Python [int] is a [Z] (positions, which are list indices, are [nat]);
    - a Python exception is [Raise e] in the [result] type;
    - a float is an exact rational ([Q]); the scores computed here are
      quotients of integers, and equality of scores is [Qeq];
    - a NumPy array is a shape and its row-major data. *)

From Stdlib Require Import Ascii String.
From Stdlib Require Import List Arith ZArith QArith Bool Lia Lqa.
From Stdlib Require Import Permutation Sorted.
Import ListNotations.

(** ** Exceptions and results *)

Inductive exn : Type :=
| KeyError
| IndexError
| ValueError
| ZeroDivisionError.

Inductive result (A : Type) : Type :=
| Ok (a : A)
| Raise (e : exn).

Arguments Ok {A} a.
Arguments Raise {A} e.

Definition bind {A B : Type} (r : result A) (k : A -> result B) : result B :=
  match r with
  | Ok a => k a
  | Raise e => Raise e
  end.

Declare Scope result_scope.
Delimit Scope result_scope with result.
Notation "x <- r ;; k" := (bind r (fun x => k))
  (at level 61, r at next level, right associativity) : result_scope.
Notation "' p <- r ;; k" := (bind r (fun p => k))
  (at level 61, p pattern, r at next level, right associativity) : result_scope.
Open Scope result_scope.

(** ** Strings and labels *)

Definition str := list ascii.

(** A string literal. *)
Definition lit (x : string) : str := list_ascii_of_string x.

(** The three labels are the keys of [segment_types] and of [ss_id_dict]. *)
Definition is_label (c : ascii) : bool :=
  Ascii.eqb c "E" || Ascii.eqb c "H" || Ascii.eqb c "-".

Definition labels_only (x : str) : Prop := forallb is_label x = true.

(** [seq[i]]: Python indexing of a list with a non-negative index. *)
Definition item {A : Type} (l : list A) (i : nat) : result A :=
  match nth_error l i with
  | Some a => Ok a
  | None => Raise IndexError
  end.

(** ** [get_segments] *)

(** A segment is the two-element list [[ss_strs[i], idx_lens[i]]]: the run of
    characters and the array of the positions it covers. *)
Record Segment : Type := mkSegment {
  seg_str : str;
  seg_idx : list nat
}.

(** [itertools.groupby(ss_str)] with the default key, each group joined into
    a string: the maximal runs of equal consecutive characters. *)
Fixpoint groupby (ss_str : str) : list str :=
  match ss_str with
  | [] => []
  | c :: rest =>
      match groupby rest with
      | (d :: grp) :: grps =>
          if Ascii.eqb c d then (c :: d :: grp) :: grps
          else [c] :: (d :: grp) :: grps
      | _ => [[c]]
      end
  end.

(** [np.arange(start, stop)]. *)
Definition arange (start stop : nat) : list nat := seq start (stop - start).

(** The first loop of [get_segments]: [idx_start] runs along the string and
    each run receives the positions it covers. *)
Fixpoint index_ranges (idx_start : nat) (ss_strs : list str) : list (list nat) :=
  match ss_strs with
  | [] => []
  | i :: rest =>
      arange idx_start (idx_start + length i)
        :: index_ranges (idx_start + length i) rest
  end.

(** The dictionary [segment_types]; keys in insertion order. *)
Definition seg_dict : Type := list (ascii * list Segment).

Definition empty_segment_types : seg_dict :=
  [("E"%char, []); ("H"%char, []); ("-"%char, [])].

(** [d[k]] *)
Fixpoint dict_get (k : ascii) (d : seg_dict) : result (list Segment) :=
  match d with
  | [] => Raise KeyError
  | (k', v) :: d' => if Ascii.eqb k k' then Ok v else dict_get k d'
  end.

(** [d[k].append(x)] *)
Fixpoint dict_append (k : ascii) (x : Segment) (d : seg_dict) : result seg_dict :=
  match d with
  | [] => Raise KeyError
  | (k', v) :: d' =>
      if Ascii.eqb k k' then Ok ((k', v ++ [x]) :: d')
      else d'' <- dict_append k x d' ;; Ok ((k', v) :: d'')
  end.

(** The second loop of [get_segments], over [range(len(ss_strs))]. *)
Fixpoint fill_segment_types (ss_strs : list str) (idx_lens : list (list nat))
    (range : list nat) (segment_types : seg_dict) : result seg_dict :=
  match range with
  | [] => Ok segment_types
  | i :: range' =>
      run <- item ss_strs i ;;
      c <- item run 0 ;;
      idx <- item idx_lens i ;;
      segment_types' <- dict_append c (mkSegment run idx) segment_types ;;
      fill_segment_types ss_strs idx_lens range' segment_types'
  end.

Definition get_segments (ss_str : str) : result seg_dict :=
  let ss_strs := groupby ss_str in
  let idx_lens := index_ranges 0 ss_strs in
  fill_segment_types ss_strs idx_lens (seq 0 (length ss_strs)) empty_segment_types.

(** All segments of a dictionary, pooled over its keys. *)
Definition pooled (d : seg_dict) : list Segment := concat (map snd d).

(** The positions covered by a list of segments, in list order. *)
Definition positions (segs : list Segment) : list nat := flat_map seg_idx segs.

(** ** [segment_of_overlap] *)

(** [len(x)] as a Python integer. *)
Definition len {A : Type} (x : list A) : Z := Z.of_nat (length x).

(** [np.unique]: the sorted distinct values of an array. *)
Fixpoint insert_unique (x : nat) (l : list nat) : list nat :=
  match l with
  | [] => [x]
  | y :: l' =>
      if x <? y then x :: l
      else if x =? y then l
      else y :: insert_unique x l'
  end.

Definition np_unique (a : list nat) : list nat := fold_right insert_unique [] a.

Definition mem (x : nat) (a : list nat) : bool := existsb (Nat.eqb x) a.

(** [np.intersect1d(a, b)]: the sorted distinct values that are in both. *)
Definition intersect1d (a b : list nat) : list nat :=
  filter (fun x => mem x b) (np_unique a).

(** [np.union1d(a, b)]: the sorted distinct values that are in either. *)
Definition union1d (a b : list nat) : list nat := np_unique (a ++ b).

(** The quantities computed in the innermost loop for a reference segment
    [i] and a predicted segment [j]. *)
Definition l_s (i : Segment) : Z := len (seg_idx i).

Definition minov (i j : Segment) : Z := len (intersect1d (seg_idx i) (seg_idx j)).

Definition maxov (i j : Segment) : Z := len (union1d (seg_idx i) (seg_idx j)).

(** [np.min([maxov-minov, minov, np.floor(l_s1/2), np.floor(l_s2/2)])] *)
Definition delta (i j : Segment) : Z :=
  Z.min (Z.min (maxov i j - minov i j) (minov i j))
        (Z.min (l_s i / 2) (l_s j / 2)).

(** [l_s1*(minov+delta)/maxov] *)
Definition value (i j : Segment) : Q :=
  inject_Z (l_s i * (minov i j + delta i j)) / inject_Z (maxov i j).

(** [for j in ss_pred[k]: ...] *)
Definition pred_loop (i : Segment) (preds : list Segment) (subsum_k : Q) : Q :=
  fold_left
    (fun subsum_k j =>
       if (0 <? minov i j)%Z then subsum_k + value i j else subsum_k)
    preds subsum_k.

(** [for i in ss_ref[k]: ...], on the pair [(subsum_k, N_k)]; [ss_pred[k]]
    is looked up once per reference segment. *)
Fixpoint ref_loop (k : ascii) (refs : list Segment) (ss_pred : seg_dict)
    (acc : Q * Z) : result (Q * Z) :=
  match refs with
  | [] => Ok acc
  | i :: refs' =>
      let '(subsum_k, N_k) := acc in
      preds <- dict_get k ss_pred ;;
      ref_loop k refs' ss_pred (pred_loop i preds subsum_k, (N_k + l_s i)%Z)
  end.

(** [for k in ss_ref.keys(): ...], on the pair [(val_total, N_total)]. *)
Fixpoint key_loop (items : seg_dict) (ss_pred : seg_dict) (acc : Q * Z)
    : result (Q * Z) :=
  match items with
  | [] => Ok acc
  | (k, refs) :: items' =>
      '(subsum_k, N_k) <- ref_loop k refs ss_pred (0, 0%Z) ;;
      let '(val_total, N_total) := acc in
      key_loop items' ss_pred (val_total + subsum_k, (N_total + N_k)%Z)
  end.

(** The totals [(val_total, N_total)] reached at the end of the loops. *)
Definition sov_totals (ss_ref_str ss_pred_str : str) : result (Q * Z) :=
  ss_ref <- get_segments ss_ref_str ;;
  ss_pred <- get_segments ss_pred_str ;;
  key_loop ss_ref ss_pred (0, 0%Z).

(** [val_total/N_total]: with [N_total == 0] no reference segment was
    visited, both totals are still the integer [0] and the division raises. *)
Definition segment_of_overlap (ss_ref_str ss_pred_str : str) : result Q :=
  '(val_total, N_total) <- sov_totals ss_ref_str ss_pred_str ;;
  if (N_total =? 0)%Z then Raise ZeroDivisionError
  else Ok (val_total / inject_Z N_total).

(** ** [q3_acc] *)

(** A NumPy integer array: its shape and its elements in row-major order. *)
Record ndarray : Type := mkArray {
  shape : list nat;
  data : list Z
}.

Definition size_of (sh : list nat) : nat := fold_right Nat.mul 1%nat sh.

Definition well_formed (a : ndarray) : Prop :=
  length (data a) = size_of (shape a).

(** [np.array(l)] for a flat list [l]. *)
Definition array1d (l : list Z) : ndarray := mkArray [length l] l.

(** [ss_id_dict] and [label_to_index(ss, ss_id_dict)]. *)
Definition ss_id_dict : list (ascii * Z) :=
  [("H"%char, 0%Z); ("E"%char, 1%Z); ("-"%char, 2%Z)].

Fixpoint id_get (k : ascii) (d : list (ascii * Z)) : result Z :=
  match d with
  | [] => Raise KeyError
  | (k', v) :: d' => if Ascii.eqb k k' then Ok v else id_get k d'
  end.

Fixpoint label_codes (ss : str) (id_dict : list (ascii * Z)) : result (list Z) :=
  match ss with
  | [] => Ok []
  | i :: ss' =>
      v <- id_get i id_dict ;;
      vs <- label_codes ss' id_dict ;;
      Ok (v :: vs)
  end.

Definition label_to_index (ss : str) (id_dict : list (ascii * Z)) : result ndarray :=
  labels <- label_codes ss id_dict ;;
  Ok (array1d labels).

(** [a.shape[0]] *)
Definition shape0 (a : ndarray) : result nat := item (shape a) 0.

(** [np.squeeze(a, 0)]: drops the first axis, which must have size one. *)
Definition squeeze0 (a : ndarray) : result ndarray :=
  match shape a with
  | 1%nat :: sh => Ok (mkArray sh (data a))
  | _ => Raise ValueError
  end.

(** Broadcasting.  [chunks n sz d] cuts the data of an array whose first
    axis has size [n] into its [n] sub-arrays of [sz] elements. *)
Fixpoint chunks (n sz : nat) (d : list Z) : list (list Z) :=
  match n with
  | O => []
  | S n' => firstn sz d :: chunks n' sz (skipn sz d)
  end.

Fixpoint concat_opt {A : Type} (l : list (option (list A))) : option (list A) :=
  match l with
  | [] => Some []
  | None :: _ => None
  | Some x :: l' =>
      match concat_opt l' with
      | Some xs => Some (x ++ xs)
      | None => None
      end
  end.

(** Elementwise [==] of two arrays whose shapes have the same rank: along
    each axis the sizes agree, or one of them is [1] and is repeated.
    [None] when the shapes cannot be broadcast together. *)
Fixpoint equal_aligned (sa sb : list nat) (da db : list Z) : option (list bool) :=
  match sa, sb with
  | [], [] =>
      match da, db with
      | [x], [y] => Some [Z.eqb x y]
      | _, _ => None
      end
  | na :: sa', nb :: sb' =>
      let ca := chunks na (size_of sa') da in
      let cb := chunks nb (size_of sb') db in
      if (na =? nb)%nat then
        concat_opt (map (fun xy => equal_aligned sa' sb' (fst xy) (snd xy))
                        (combine ca cb))
      else if (na =? 1)%nat then
        concat_opt (map (fun y => equal_aligned sa' sb' da y) cb)
      else if (nb =? 1)%nat then
        concat_opt (map (fun x => equal_aligned sa' sb' x db) ca)
      else None
  | _, _ => None
  end.

(** Shapes are aligned on the right: the shorter one is padded with ones. *)
Definition pad_shape (rank : nat) (sh : list nat) : list nat :=
  repeat 1%nat (rank - length sh) ++ sh.

(** The value of [real == pred]. *)
Inductive comparison : Type :=
| Elementwise (bs : list bool)
| ScalarFalse.

(** [np.sum] of a comparison. *)
Definition np_sum (c : comparison) : Z :=
  match c with
  | Elementwise bs => Z.of_nat (count_occ bool_dec bs true)
  | ScalarFalse => 0%Z
  end.

(** A NumPy float: [int64 / int] does not raise on a zero divisor. *)
Inductive npfloat : Type :=
| Finite (q : Q)
| Inf
| NaN.

Definition true_divide (a : Z) (n : nat) : npfloat :=
  match n with
  | O => if (a =? 0)%Z then NaN else Inf
  | S _ => Finite (inject_Z a / inject_Z (Z.of_nat n))
  end.

Section Q3.

(** What [==] does on shapes that cannot be broadcast together depends on
    the NumPy release: up to 1.24 the comparison gives the scalar [False]
    (with a warning), from 1.25 on it raises [ValueError]. *)
Variable legacy_comparison : bool.

Definition np_equal (a b : ndarray) : result comparison :=
  let rank := Nat.max (length (shape a)) (length (shape b)) in
  match equal_aligned (pad_shape rank (shape a)) (pad_shape rank (shape b))
                      (data a) (data b) with
  | Some bs => Ok (Elementwise bs)
  | None => if legacy_comparison then Ok ScalarFalse else Raise ValueError
  end.

Definition q3_acc (real pred : ndarray) : result npfloat :=
  n0 <- shape0 real ;;
  real <- (if (n0 =? 1)%nat then squeeze0 real else Ok real) ;;
  p0 <- shape0 pred ;;
  pred <- (if (p0 =? 1)%nat then squeeze0 pred else Ok pred) ;;
  eq <- np_equal real pred ;;
  n <- shape0 real ;;
  Ok (true_divide (np_sum eq) n).

End Q3.

(** ** Notions used in the statements *)

(** Every run is one character repeated, and two runs that follow each
    other differ in their character: the runs are maximal. *)
Fixpoint adjacent_differ (runs : list str) : Prop :=
  match runs with
  | (c :: _) :: (((d :: _) :: _) as rest) => c <> d /\ adjacent_differ rest
  | _ => True
  end.

(** The segments of a string in order of appearance: each run paired with
    its positions. *)
Definition mk_segments (runs : list str) (idxs : list (list nat)) : list Segment :=
  map (fun p => mkSegment (fst p) (snd p)) (combine runs idxs).

Definition segments_from (idx_start : nat) (runs : list str) : list Segment :=
  mk_segments runs (index_ranges idx_start runs).

Definition segments_of (ss_str : str) : list Segment :=
  segments_from 0 (groupby ss_str).

Definition starts_with (c : ascii) (sg : Segment) : bool :=
  match seg_str sg with
  | d :: _ => Ascii.eqb d c
  | [] => false
  end.

Definition by_label (c : ascii) (segs : list Segment) : list Segment :=
  filter (starts_with c) segs.

Definition grouped (segs : list Segment) : seg_dict :=
  [("E"%char, by_label "E" segs);
   ("H"%char, by_label "H" segs);
   ("-"%char, by_label "-" segs)].

(** Total length of a list of segments: what [N_k] accumulates. *)
Definition total_length (segs : list Segment) : Z := len (positions segs).

(** The outcome of [==] position by position. *)
Definition eq_flags (real pred : list Z) : list bool :=
  map (fun xy => Z.eqb (fst xy) (snd xy)) (combine real pred).

(** The number of positions at which the two sequences agree. *)
Definition matches (real pred : list Z) : Z :=
  Z.of_nat (count_occ bool_dec (eq_flags real pred) true).

(** No position matches. *)
Definition all_differ (real pred : list Z) : Prop :=
  forall i x y, nth_error real i = Some x -> nth_error pred i = Some y -> x <> y.

(** ** Segments of the examples *)



(** * The other helpers of the notebooks *)

(** ** Outcomes that include [TypeError] *)

(** The helpers below can fail in more ways than the metrics: NumPy and
    Python raise [TypeError] when an array that is not one-dimensional is
    iterated for dictionary keys, or when an array of several elements is
    converted with [int]; PyTorch raises [RuntimeError] when tensors that do
    not fit are concatenated. *)
Inductive error : Type :=
| Builtin (e : exn)
| TypeError
| RuntimeError.

Inductive outcome (A : Type) : Type :=
| Return (a : A)
| Throw (e : error).

Arguments Return {A} a.
Arguments Throw {A} e.

Definition lift {A : Type} (r : result A) : outcome A :=
  match r with
  | Ok a => Return a
  | Raise e => Throw (Builtin e)
  end.

Definition obind {A B : Type} (r : outcome A) (k : A -> outcome B) : outcome B :=
  match r with
  | Return a => k a
  | Throw e => Throw e
  end.

(** ** Dictionaries from integers to symbols *)

(** [d[k] = v] on a dictionary kept in insertion order. *)
Fixpoint dict_set {K V : Type} (eqb : K -> K -> bool) (k : K) (v : V)
    (d : list (K * V)) : list (K * V) :=
  match d with
  | [] => [(k, v)]
  | (k', v') :: d' =>
      if eqb k k' then (k', v) :: d' else (k', v') :: dict_set eqb k v d'
  end.

(** [{j: i for i, j in d.items()}] *)
Definition invert (d : list (ascii * Z)) : list (Z * ascii) :=
  fold_left (fun acc ij => dict_set Z.eqb (snd ij) (fst ij) acc) d [].

Definition pos_ss_dict : list (Z * ascii) := invert ss_id_dict.

Fixpoint sym_get (k : Z) (d : list (Z * ascii)) : result ascii :=
  match d with
  | [] => Raise KeyError
  | (k', v) :: d' => if Z.eqb k k' then Ok v else sym_get k d'
  end.

(** ** [ints_to_symbols1d] *)

(** [np.squeeze(a, axis)] for a non-negative [axis]: the axis must exist
    and have size one. *)
Definition squeeze (a : ndarray) (axis : nat) : result ndarray :=
  match nth_error (shape a) axis with
  | Some 1%nat =>
      Ok (mkArray (firstn axis (shape a) ++ skipn (S axis) (shape a)) (data a))
  | _ => Raise ValueError
  end.

(** [enumerate(l)] *)
Fixpoint enumerate_from {A : Type} (i : nat) (l : list A) : list (nat * A) :=
  match l with
  | [] => []
  | x :: l' => (i, x) :: enumerate_from (S i) l'
  end.

Definition enumerate {A : Type} (l : list A) : list (nat * A) := enumerate_from 0 l.

(** [for i, j in enumerate(ss_arr.shape): if j == 1: ss_arr = np.squeeze(ss_arr, i)];
    the shape that is enumerated is the one the array had before the loop. *)
Fixpoint squeeze_loop (dims : list (nat * nat)) (ss_arr : ndarray) : result ndarray :=
  match dims with
  | [] => Ok ss_arr
  | (i, j) :: dims' =>
      if (j =? 1)%nat then ss_arr' <- squeeze ss_arr i ;; squeeze_loop dims' ss_arr'
      else squeeze_loop dims' ss_arr
  end.

(** [[map_dict[i] for i in l]] *)
Fixpoint symbols (l : list Z) (map_dict : list (Z * ascii)) : result str :=
  match l with
  | [] => Ok []
  | i :: l' =>
      c <- sym_get i map_dict ;;
      cs <- symbols l' map_dict ;;
      Ok (c :: cs)
  end.

(** [[map_dict[i] for i in ss_arr]]: a 0-d array cannot be iterated; the
    items of a one-dimensional array are its elements; the items of an array
    of higher rank are arrays, which are not hashable. *)
Definition symbols_of_array (ss_arr : ndarray) (map_dict : list (Z * ascii))
    : outcome str :=
  match shape ss_arr with
  | [] => Throw TypeError
  | [_] => lift (symbols (data ss_arr) map_dict)
  | n :: _ :: _ => if (n =? 0)%nat then Return [] else Throw TypeError
  end.

Definition ints_to_symbols1d (ss_arr : ndarray) (map_dict : list (Z * ascii))
    : outcome str :=
  obind
    (lift (if (1 <? length (shape ss_arr))%nat
           then squeeze_loop (enumerate (shape ss_arr)) ss_arr
           else Ok ss_arr))
    (fun ss_arr' => symbols_of_array ss_arr' map_dict).

(** An array with one extra leading axis of size one, as [a[np.newaxis, :]]
    makes of a flat array. *)
Definition batch_wrapped (l : list Z) : ndarray := mkArray [1%nat; length l] l.

(** ** [reconstruct_predictions] *)

(** [l[a:b]] for [0 <= a <= b]; a slice that runs past the end is cut. *)
Definition slice {A : Type} (l : list A) (a b : nat) : list A :=
  firstn (b - a) (skipn a l).

(** The loop of [reconstruct_predictions], from the current [cur_idx]. *)
Fixpoint reconstruct_from {A B : Type} (preds : list A) (cur_idx : nat)
    (real_vectors : list (list B)) : list (list A) :=
  match real_vectors with
  | [] => []
  | i :: rest =>
      slice preds cur_idx (cur_idx + length i)
        :: reconstruct_from preds (cur_idx + length i) rest
  end.

Definition reconstruct_predictions {A B : Type} (preds : list A)
    (real_vectors : list (list B)) : list (list A) :=
  reconstruct_from preds 0 real_vectors.

(** ** [filter_proteins] and the one-hot encoding *)

Definition aa_id_dict : list (ascii * Z) :=
  [("A"%char, 0%Z); ("C"%char, 1%Z); ("D"%char, 2%Z); ("E"%char, 3%Z);
   ("F"%char, 4%Z); ("G"%char, 5%Z); ("H"%char, 6%Z); ("I"%char, 7%Z);
   ("K"%char, 8%Z); ("L"%char, 9%Z); ("M"%char, 10%Z); ("N"%char, 11%Z);
   ("P"%char, 12%Z); ("Q"%char, 13%Z); ("R"%char, 14%Z); ("S"%char, 15%Z);
   ("T"%char, 16%Z); ("V"%char, 17%Z); ("W"%char, 18%Z); ("Y"%char, 19%Z)].

Definition pos_aa_dict : list (Z * ascii) := invert aa_id_dict.

(** [d.keys()] *)
Definition keys {V : Type} (d : list (ascii * V)) : list ascii := map fst d.

(** [i not in allowed_symbols] *)
Definition not_in (i : ascii) (allowed_symbols : list ascii) : bool :=
  negb (existsb (Ascii.eqb i) allowed_symbols).

(** The loop has no early exit: every symbol is looked at. *)
Definition filter_proteins (prot_id : str) (seq : str) (allowed_symbols : list ascii)
    : bool :=
  fold_left
    (fun allowed i => if not_in i allowed_symbols then false else allowed)
    seq true.

(** [l[n] = v] on the flat data of an array. *)
Fixpoint list_set (n : nat) (v : Z) (l : list Z) : list Z :=
  match l, n with
  | [], _ => []
  | _ :: l', O => v :: l'
  | x :: l', S n' => x :: list_set n' v l'
  end.

(** [np.zeros((rows, cols))]; the entries 0.0 and 1.0 are written 0 and 1. *)
Definition zeros2 (rows cols : nat) : ndarray :=
  mkArray [rows; cols] (repeat 0%Z (rows * cols)).

(** [a[r, i] = v] on a two-dimensional array; a negative row counts from
    the end, an index out of range raises. *)
Definition set_item2 (a : ndarray) (r : Z) (i : nat) (v : Z) : result ndarray :=
  match shape a with
  | [rows; cols] =>
      let r' := (if r <? 0 then r + Z.of_nat rows else r)%Z in
      if ((0 <=? r') && (r' <? Z.of_nat rows))%Z && (i <? cols)%nat
      then Ok (mkArray [rows; cols] (list_set (Z.to_nat r' * cols + i) v (data a)))
      else Raise IndexError
  | _ => Raise IndexError
  end.

(** [mask_ind = np.nonzero(np.asarray([x=='+' for x in mask])*1)[0]] *)
Definition mask_ind (mask : str) : list nat :=
  map fst (filter (fun ix => Ascii.eqb (snd ix) "+") (enumerate mask)).

(** [[aa_str[x] for x in mask_ind]] *)
Fixpoint select (aa_str : str) (idx : list nat) : result str :=
  match idx with
  | [] => Ok []
  | x :: idx' =>
      c <- item aa_str x ;;
      cs <- select aa_str idx' ;;
      Ok (c :: cs)
  end.

(** [for i, j in enumerate(aa_str): init_array[aa_to_nr[j], i] = 1] *)
Fixpoint onehot_loop (aa_to_nr : list (ascii * Z)) (items : list (nat * ascii))
    (init_array : ndarray) : result ndarray :=
  match items with
  | [] => Ok init_array
  | (i, j) :: items' =>
      r <- id_get j aa_to_nr ;;
      init_array' <- set_item2 init_array r i 1%Z ;;
      onehot_loop aa_to_nr items' init_array'
  end.

Definition aa_to_onehot (aa_str : str) (aa_to_nr : list (ascii * Z))
    (mask : option str) : result ndarray :=
  aa_str <- (match mask with
             | Some m => select aa_str (mask_ind m)
             | None => Ok aa_str
             end) ;;
  onehot_loop aa_to_nr (enumerate aa_str)
    (zeros2 (length (keys aa_to_nr)) (length aa_str)).

(** [np.where(onehot_arr[:, i] > 0)[0]] for an array of shape
    [(rows, cols, ...)] with [inner] entries below each [(row, column)]:
    the row of every positive entry of column [i], in row order. *)
Definition where_positive (a : ndarray) (rows cols inner i : nat) : list nat :=
  flat_map
    (fun k =>
       flat_map
         (fun r => if (0 <? nth ((k * cols + i) * inner + r) (data a) 0)%Z
                   then [k] else [])
         (seq 0 inner))
    (seq 0 rows).

(** [int(pos)]: only an array of one element converts. *)
Definition to_int (pos : list nat) : outcome Z :=
  match pos with
  | [k] => Return (Z.of_nat k)
  | _ => Throw TypeError
  end.

Fixpoint onehot_to_str_loop (a : ndarray) (rows cols inner : nat)
    (map_dict : list (Z * ascii)) (range : list nat) : outcome str :=
  match range with
  | [] => Return []
  | i :: range' =>
      obind (to_int (where_positive a rows cols inner i)) (fun pos =>
      obind (lift (sym_get pos map_dict)) (fun c =>
      obind (onehot_to_str_loop a rows cols inner map_dict range') (fun cs =>
      Return (c :: cs))))
  end.

Definition onehot_to_str (onehot_arr : ndarray) (map_dict : list (Z * ascii))
    : outcome str :=
  match shape onehot_arr with
  | rows :: N :: rest =>
      onehot_to_str_loop onehot_arr rows N (size_of rest) map_dict (seq 0 N)
  | _ => Throw (Builtin IndexError)
  end.

(** ** The sums that the loops of [segment_of_overlap] accumulate *)

(** What the inner loop adds for one reference segment. *)
Definition pair_sum (i : Segment) (preds : list Segment) : Q :=
  fold_right
    (fun j acc => (if (0 <? minov i j)%Z then value i j else 0) + acc) 0 preds.

(** What the loop over the reference segments of one label adds. *)
Definition group_sum (refs preds : list Segment) : Q :=
  fold_right (fun i acc => pair_sum i preds + acc) 0 refs.

(** The overlaps of one reference segment with the predicted segments. *)
Definition overlap_total (i : Segment) (preds : list Segment) : Z :=
  fold_right (fun j acc => (minov i j + acc)%Z) 0%Z preds.

(** The sum for label [k] of a reference and a prediction. *)
Definition label_sum (k : ascii) (ss_ref_str ss_pred_str : str) : Q :=
  group_sum (by_label k (segments_of ss_ref_str))
            (by_label k (segments_of ss_pred_str)).

(** ** Notions used in the statements about the encoding *)

(** The residues of [aa_str] that stand at a [+] of the mask. *)
Definition kept (aa_str mask : str) : str :=
  map fst (filter (fun cm => Ascii.eqb (snd cm) "+") (combine aa_str mask)).

(** Every symbol is a key of the dictionary. *)
Definition all_keys {V : Type} (seq : str) (d : list (ascii * V)) : bool :=
  forallb (fun i => existsb (Ascii.eqb i) (keys d)) seq.

(** The symbol [c] has row [r] in the dictionary. *)
Definition code_is (d : list (ascii * Z)) (c : ascii) (r : nat) : bool :=
  match id_get c d with
  | Ok v => Z.eqb v (Z.of_nat r)
  | Raise _ => false
  end.

(** The symbol at position [i] of [s] has row [r]. *)
Definition row_of (d : list (ascii * Z)) (s : str) (i r : nat) : bool :=
  match nth_error s i with
  | Some c => code_is d c r
  | None => false
  end.

(** ** [pad_and_split_1h] *)

(** The entries of an array of shape [(n1, n2, n3)] from its entries. *)
Definition table3 (n1 n2 n3 : nat) (f : nat -> nat -> nat -> Z) : list Z :=
  flat_map
    (fun i => flat_map (fun j => map (f i j) (seq 0 n3)) (seq 0 n2))
    (seq 0 n1).

(** The entry [(i, j, t)] of an array whose second axis has size [n2] and
    that has [n3] entries below each [(i, j)]. *)
Definition entry3 (a : ndarray) (n2 n3 : nat) (i j t : nat) : Z :=
  nth ((i * n2 + j) * n3 + t) (data a) 0%Z.

(** [int((k-1)/2)]: the quotient is truncated towards zero. *)
Definition half_window (k : Z) : Z := Z.quot (k - 1) 2.

(** [np.zeros((rows, cols))]; a negative dimension is refused. *)
Definition np_zeros2 (rows : nat) (cols : Z) : result ndarray :=
  if (cols <? 0)%Z then Raise ValueError else Ok (zeros2 rows (Z.to_nat cols)).

(** [np.concatenate((p, a, q), axis=1)]: the three arrays have a second
    axis and agree on all the others. *)
Definition concatenate3_axis1 (p a q : ndarray) : result ndarray :=
  match shape p, shape a, shape q with
  | rp :: wp :: restp, ra :: wa :: resta, rq :: wq :: restq =>
      if list_eq_dec Nat.eq_dec (rp :: restp) (ra :: resta) then
        if list_eq_dec Nat.eq_dec (ra :: resta) (rq :: restq) then
          let inner := size_of restp in
          Ok (mkArray (rp :: (wp + wa + wq)%nat :: restp)
                (table3 rp (wp + wa + wq) inner
                   (fun i j t =>
                      if (j <? wp)%nat then entry3 p wp inner i j t
                      else if (j <? wp + wa)%nat then entry3 a wa inner i (j - wp) t
                      else entry3 q wq inner i (j - wp - wa) t)))
        else Raise ValueError
      else Raise ValueError
  | _, _, _ => Raise ValueError
  end.

(** [a[:, lo:hi]] for [0 <= lo] and [0 <= hi]. *)
Definition slice_columns (a : ndarray) (lo hi : nat) : result ndarray :=
  match shape a with
  | rows :: cols :: rest =>
      let width := (Nat.min hi cols - Nat.min lo cols)%nat in
      let inner := size_of rest in
      Ok (mkArray (rows :: width :: rest)
            (table3 rows width inner
               (fun i j t => entry3 a cols inner i (lo + j) t)))
  | _ => Raise IndexError
  end.

(** [for i in range(...): sub_arrays.append(vector_padded[:, i-h:i+h+1])];
    the range starts at [h], so that [i - h] is not negative. *)
Fixpoint window_loop (vector_padded : ndarray) (h : nat) (range : list nat)
    : result (list ndarray) :=
  match range with
  | [] => Ok []
  | i :: range' =>
      sub_arr <- slice_columns vector_padded (i - h) (i + h + 1) ;;
      sub_arrays <- window_loop vector_padded h range' ;;
      Ok (sub_arr :: sub_arrays)
  end.

(** [np.array(arrs)] for a list of arrays: an empty list gives an empty
    flat array, arrays of one shape are stacked along a new first axis;
    arrays of different shapes do not make a numeric array. *)
Definition np_array (arrs : list ndarray) : result ndarray :=
  match arrs with
  | [] => Ok (mkArray [0%nat] [])
  | a :: _ =>
      if forallb (fun b => if list_eq_dec Nat.eq_dec (shape b) (shape a)
                           then true else false) arrs
      then Ok (mkArray (length arrs :: shape a) (flat_map data arrs))
      else Raise ValueError
  end.

(** The tensor that [torch.tensor(sub_arrays).float()] makes has the shape
    and the entries of the array. *)
Definition pad_and_split_1h (vector : str) (k : Z) (map_dict : list (ascii * Z))
    : result ndarray :=
  let h := half_window k in
  padding <- np_zeros2 (length (keys map_dict)) h ;;
  onehot <- aa_to_onehot vector map_dict None ;;
  vector_padded <- concatenate3_axis1 padding onehot padding ;;
  sub_arrays <- window_loop vector_padded (Z.to_nat h)
                  (seq (Z.to_nat h) (length vector)) ;;
  np_array sub_arrays.

(** The entry on row [r] and column [j] of the padded encoding of [s]:
    [h] columns of zeros, the one-hot columns, [h] columns of zeros. *)
Definition padded_cell (d : list (ascii * Z)) (s : str) (h r j : nat) : Z :=
  if (h <=? j)%nat && row_of d s (j - h) r then 1%Z else 0%Z.

(** The window cut for position [w]. *)
Definition window (vector_padded : ndarray) (rows cols h w : nat) : ndarray :=
  mkArray [rows; (2 * h + 1)%nat]
    (table3 rows (2 * h + 1) 1
       (fun i j t => entry3 vector_padded cols 1 i (w + j) t)).

(** ** [protein_collate] *)

(** [[x.shape[2] for x in seqs]] *)
Fixpoint third_sizes (seqs : list ndarray) : result (list nat) :=
  match seqs with
  | [] => Ok []
  | x :: seqs' =>
      n <- item (shape x) 2 ;;
      ns <- third_sizes seqs' ;;
      Ok (n :: ns)
  end.

(** [max(l)]; the maximum of no number is refused. *)
Definition py_max (l : list nat) : result nat :=
  match l with
  | [] => Raise ValueError
  | x :: l' => Ok (fold_left Nat.max l' x)
  end.

(** [np.pad(a, ((0, 0), ..., (0, 0), (0, n)), constant_values=0)] with
    [rank] pairs: the array must have that many axes, and [n] zeros are
    appended along the last one. *)
Definition np_pad_last (a : ndarray) (rank n : nat) : result ndarray :=
  if (length (shape a) =? rank)%nat then
    match rev (shape a) with
    | [] => Raise ValueError
    | c :: front_rev =>
        let front := rev front_rev in
        Ok (mkArray (front ++ [(c + n)%nat])
              (table3 (size_of front) 1 (c + n)
                 (fun i _ t =>
                    if (t <? c)%nat then nth (i * c + t) (data a) 0%Z else 0%Z)))
    end
  else Raise ValueError.

(** The loop of [protein_collate]: entry [i] of [seqs] and of [ss] is
    replaced by its padded tensor.  [max_len] is the largest [curr_len], so
    that [max_len - curr_len] is not negative. *)
Fixpoint collate_loop (batch : list (ndarray * ndarray)) (max_len : nat)
    : result (list ndarray * list ndarray) :=
  match batch with
  | [] => Ok ([], [])
  | (sq, s) :: batch' =>
      curr_len <- item (shape sq) 2 ;;
      seq_padded <- np_pad_last sq 3 (max_len - curr_len) ;;
      ss_padded <- np_pad_last s 2 (max_len - curr_len) ;;
      rest <- collate_loop batch' max_len ;;
      Ok (seq_padded :: fst rest, ss_padded :: snd rest)
  end.

Definition is_empty_flat (t : ndarray) : bool :=
  match shape t with
  | [O] => true
  | _ => false
  end.

Definition same_tail (rest : list nat) (t : ndarray) : bool :=
  match shape t with
  | [] => false
  | _ :: rest' => if list_eq_dec Nat.eq_dec rest' rest then true else false
  end.

(** [torch.cat(tensors, 0)]: the tensors agree on every axis but the
    first; empty flat tensors are passed over. *)
Definition torch_cat0 (tensors : list ndarray) : outcome ndarray :=
  match tensors with
  | [] => Throw RuntimeError
  | _ :: _ =>
      match filter (fun t => negb (is_empty_flat t)) tensors with
      | [] => Return (mkArray [0%nat] [])
      | t :: ts =>
          match shape t with
          | [] => Throw RuntimeError
          | _ :: rest =>
              if forallb (same_tail rest) (t :: ts)
              then Return (mkArray
                             (list_sum (map (fun u => hd 0%nat (shape u)) (t :: ts))
                                :: rest)
                             (flat_map data (t :: ts)))
              else Throw RuntimeError
          end
      end
  end.

(** A batch is a list of items [[sequence, labels]]. *)
Definition protein_collate (batch : list (ndarray * ndarray))
    : outcome (ndarray * ndarray) :=
  obind (lift (third_sizes (map fst batch))) (fun sizes =>
  obind (lift (py_max sizes)) (fun max_len =>
  obind (lift (collate_loop batch max_len)) (fun padded =>
  obind (torch_cat0 (fst padded)) (fun seq_tensor =>
  obind (torch_cat0 (snd padded)) (fun ss_tensor =>
  Return (seq_tensor, ss_tensor)))))).

(** An item of a batch: a one-hot sequence of shape [(1, K, L)] with its
    labels of shape [(1, L)]. *)
Definition batch_item (K : nat) (it : ndarray * ndarray) : Prop :=
  exists L, shape (fst it) = [1%nat; K; L] /\ shape (snd it) = [1%nat; L].

(** The length of an item. *)
Definition item_length (it : ndarray * ndarray) : nat := nth 2 (shape (fst it)) 0%nat.

(** The padded tensors of an item for a batch whose longest item has
    length [M]. *)
Definition padded_seq (K M : nat) (it : ndarray * ndarray) : ndarray :=
  mkArray [1%nat; K; M]
    (table3 K 1 M
       (fun i _ t =>
          if (t <? item_length it)%nat
          then nth (i * item_length it + t) (data (fst it)) 0%Z else 0%Z)).

Definition padded_ss (M : nat) (it : ndarray * ndarray) : ndarray :=
  mkArray [1%nat; M]
    (table3 1 1 M
       (fun i _ t =>
          if (t <? item_length it)%nat
          then nth (i * item_length it + t) (data (snd it)) 0%Z else 0%Z)).

(** Row [b] of a label tensor of shape [(B, M)], as a flat array. *)
Definition label_row (ss_tensor : ndarray) (M b : nat) : ndarray :=
  array1d (slice (data ss_tensor) (b * M) (b * M + M)).

(** * Properties *)

(** ** The functions on small inputs *)

Example get_segments_HHEE_HH :
  get_segments (lit "HHEE-HH") =
  Ok [("E"%char, [mkSegment (lit "EE") [2; 3]%nat]);
      ("H"%char, [mkSegment (lit "HH") [0; 1]%nat;
                  mkSegment (lit "HH") [5; 6]%nat]);
      ("-"%char, [mkSegment (lit "-") [4]%nat])].
Proof. reflexivity. Qed.

Example get_segments_empty :
  get_segments (lit "") = Ok empty_segment_types.
Proof. reflexivity. Qed.

Example get_segments_unknown_label :
  get_segments (lit "HHCE") = Raise KeyError.
Proof. reflexivity. Qed.

Example segment_of_overlap_disjoint_classes :
  segment_of_overlap (lit "HHHH") (lit "EEEE") = Ok (0 # 4).
Proof. vm_compute. reflexivity. Qed.

Example q3_acc_batch_wrapped (legacy : bool) :
  q3_acc legacy (mkArray [1; 3]%nat [0; 1; 2]%Z) (array1d [0; 1; 1]%Z) =
  Ok (Finite (2 # 3)).
Proof. destruct legacy; vm_compute; reflexivity. Qed.

Example q3_acc_empty (legacy : bool) :
  q3_acc legacy (array1d []) (array1d []) = Ok NaN.
Proof. destruct legacy; reflexivity. Qed.

(** A prediction of one element is squeezed to a scalar and compared with
    every element of the reference. *)
Example q3_acc_scalar_prediction (legacy : bool) :
  q3_acc legacy (array1d [0; 0; 1]%Z) (array1d [0]%Z) = Ok (Finite (2 # 3)).
Proof. destruct legacy; vm_compute; reflexivity. Qed.

(** ** Runs of [groupby] *)

Lemma groupby_no_empty_run (x : str) : ~ In [] (groupby x).
Proof.
  induction x as [|c rest IH]; simpl; [tauto|].
  destruct (groupby rest) as [|[|d grp] grps] eqn:E; simpl in *.
  - intros [H|[]]; discriminate.
  - tauto.
  - destruct (Ascii.eqb c d); simpl.
    + intros [H|H]; [discriminate | apply IH; now right].
    + intros [H|[H|H]]; [discriminate | discriminate | apply IH; now right].
Qed.

Lemma groupby_concat (x : str) : concat (groupby x) = x.
Proof.
  induction x as [|c rest IH]; simpl; [reflexivity|].
  pose proof (groupby_no_empty_run rest) as Hne.
  destruct (groupby rest) as [|[|d grp] grps] eqn:E; simpl in *.
  - now rewrite <- IH.
  - exfalso. apply Hne. now left.
  - destruct (Ascii.eqb c d); simpl; now rewrite <- IH.
Qed.

Lemma groupby_constant_runs (x : str) :
  forall run, In run (groupby x) -> exists c n, run = repeat c (S n).
Proof.
  induction x as [|c rest IH]; simpl; [tauto|].
  destruct (groupby rest) as [|[|d grp] grps] eqn:E; simpl in *.
  - intros run [<-|[]]. now exists c, 0%nat.
  - intros run [<-|[]]. now exists c, 0%nat.
  - destruct (Ascii.eqb c d) eqn:Ecd; simpl.
    + apply Ascii.eqb_eq in Ecd. subst d.
      intros run [<-|H].
      * destruct (IH (c :: grp) (or_introl eq_refl)) as (c' & n & Hr).
        simpl in Hr. injection Hr as -> Hr.
        exists c', (S n). simpl. now rewrite Hr.
      * apply IH. now right.
    + intros run [<-|H]; [now exists c, 0%nat | now apply IH].
Qed.

Lemma groupby_maximal (x : str) : adjacent_differ (groupby x).
Proof.
  induction x as [|c rest IH]; simpl; [exact I|].
  destruct (groupby rest) as [|[|d grp] grps] eqn:E; simpl in *; try exact I.
  destruct (Ascii.eqb c d) eqn:Ecd; simpl.
  - apply Ascii.eqb_eq in Ecd. subst d. exact IH.
  - split; [|exact IH]. intros ->. now rewrite Ascii.eqb_refl in Ecd.
Qed.

Lemma groupby_run_shape (x : str) :
  labels_only x ->
  forall run, In run (groupby x) ->
  exists c rest, run = c :: rest /\ is_label c = true.
Proof.
  intros Hx run Hrun.
  destruct run as [|c rest].
  - now apply groupby_no_empty_run in Hrun.
  - exists c, rest. split; [reflexivity|].
    unfold labels_only in Hx. rewrite forallb_forall in Hx.
    apply Hx. rewrite <- (groupby_concat x).
    apply in_concat. exists (c :: rest). split; [exact Hrun | now left].
Qed.

(** ** What [get_segments] returns *)

Lemma skipn_nth_error {A : Type} (l : list A) (n : nat) (x : A) :
  nth_error l n = Some x -> skipn n l = x :: skipn (S n) l.
Proof.
  revert n. induction l as [|a l IH]; intros [|n] H; simpl in *; try discriminate.
  - now injection H as ->.
  - now apply IH.
Qed.

Lemma item_lt {A : Type} (l : list A) (n : nat) :
  (n < length l)%nat -> exists x, nth_error l n = Some x.
Proof.
  intros H. destruct (nth_error l n) as [x|] eqn:E; [now exists x|].
  apply nth_error_None in E. lia.
Qed.

Lemma index_ranges_length (runs : list str) (st : nat) :
  length (index_ranges st runs) = length runs.
Proof.
  revert st. induction runs as [|r runs IH]; intros st; simpl; [reflexivity|].
  now rewrite IH.
Qed.

Lemma is_label_cases (c : ascii) :
  is_label c = true -> c = "E"%char \/ c = "H"%char \/ c = "-"%char.
Proof.
  unfold is_label. rewrite !orb_true_iff, !Ascii.eqb_eq. tauto.
Qed.

Lemma fill_segment_types_spec (runs : list str) (idxs : list (list nat)) :
  length idxs = length runs ->
  (forall run, In run runs -> exists c rest, run = c :: rest /\ is_label c = true) ->
  forall n st e h c, (st + n = length runs)%nat ->
  fill_segment_types runs idxs (seq st n)
    [("E"%char, e); ("H"%char, h); ("-"%char, c)] =
  Ok [("E"%char, e ++ by_label "E" (mk_segments (skipn st runs) (skipn st idxs)));
      ("H"%char, h ++ by_label "H" (mk_segments (skipn st runs) (skipn st idxs)));
      ("-"%char, c ++ by_label "-" (mk_segments (skipn st runs) (skipn st idxs)))].
Proof.
  intros Hlen Hruns n.
  induction n as [|n IH]; intros st e h c Hst; simpl.
  - rewrite (skipn_all2 runs) by lia. simpl. now rewrite !app_nil_r.
  - destruct (item_lt runs st) as [run Hrun]; [lia|].
    destruct (item_lt idxs st) as [idx Hidx]; [lia|].
    unfold item at 1. rewrite Hrun. simpl.
    destruct (Hruns run (nth_error_In _ _ Hrun)) as (ch & rest & Heq & Hch).
    subst run.
    unfold item at 1. simpl.
    unfold item at 1. rewrite Hidx. simpl.
    rewrite (skipn_nth_error _ _ _ Hrun), (skipn_nth_error _ _ _ Hidx).
    unfold mk_segments. simpl combine. simpl map.
    fold (mk_segments (skipn (S st) runs) (skipn (S st) idxs)).
    destruct (is_label_cases _ Hch) as [ -> | [ -> | -> ] ]; simpl;
      rewrite IH by lia; unfold by_label; simpl;
      now rewrite <- ?app_assoc.
Qed.

Lemma get_segments_spec (x : str) :
  labels_only x -> get_segments x = Ok (grouped (segments_of x)).
Proof.
  intros Hx. unfold get_segments, empty_segment_types.
  rewrite (fill_segment_types_spec (groupby x) (index_ranges 0 (groupby x))).
  - reflexivity.
  - apply index_ranges_length.
  - now apply groupby_run_shape.
  - simpl. reflexivity.
Qed.

(** ** Positions of the segments *)

Lemma arange_seq (st n : nat) : arange st (st + n) = seq st n.
Proof. unfold arange. f_equal. lia. Qed.

Lemma segments_from_cons (st : nat) (r : str) (runs : list str) :
  segments_from st (r :: runs) =
  mkSegment r (seq st (length r)) :: segments_from (st + length r) runs.
Proof. unfold segments_from, mk_segments. simpl. now rewrite arange_seq. Qed.

Lemma positions_cons (sg : Segment) (segs : list Segment) :
  positions (sg :: segs) = seg_idx sg ++ positions segs.
Proof. reflexivity. Qed.

Lemma positions_app (l1 l2 : list Segment) :
  positions (l1 ++ l2) = positions l1 ++ positions l2.
Proof. unfold positions. now rewrite flat_map_app. Qed.

Lemma positions_segments_from (runs : list str) (st : nat) :
  positions (segments_from st runs) = seq st (length (concat runs)).
Proof.
  revert st. induction runs as [|r runs IH]; intros st.
  - reflexivity.
  - rewrite segments_from_cons, positions_cons, IH. simpl.
    now rewrite length_app, seq_app.
Qed.

Lemma positions_segments_of (x : str) :
  positions (segments_of x) = seq 0 (length x).
Proof.
  unfold segments_of. now rewrite positions_segments_from, groupby_concat.
Qed.

(** Each segment is a run of the string with a contiguous ascending range
    of as many positions as it has characters. *)
Lemma segments_from_shape (runs : list str) (st : nat) (sg : Segment) :
  In sg (segments_from st runs) ->
  In (seg_str sg) runs /\
  exists start, seg_idx sg = seq start (length (seg_str sg)).
Proof.
  revert st. induction runs as [|r runs IH]; intros st.
  - intros [].
  - rewrite segments_from_cons. intros [<-|H]; simpl.
    + split; [now left | now exists st].
    + destruct (IH _ H) as [H1 H2]. split; [now right | exact H2].
Qed.

Lemma segments_of_label (x : str) (sg : Segment) :
  labels_only x -> In sg (segments_of x) ->
  exists c rest, seg_str sg = c :: rest /\ is_label c = true.
Proof.
  intros Hx Hsg. apply segments_from_shape in Hsg as [Hrun _].
  now apply (groupby_run_shape x Hx).
Qed.

(** Sorting the segments by label only permutes them. *)
Lemma by_label_permutation (segs : list Segment) :
  (forall sg, In sg segs ->
     exists c rest, seg_str sg = c :: rest /\ is_label c = true) ->
  Permutation (pooled (grouped segs)) segs.
Proof.
  unfold pooled, grouped. simpl. rewrite app_nil_r.
  induction segs as [|sg segs IH]; intros H; [constructor|].
  destruct (H sg (or_introl eq_refl)) as (c & rest & Hs & Hc).
  assert (IH' := IH (fun sg' Hin => H sg' (or_intror Hin))).
  assert (Hsw : forall k, starts_with k sg = Ascii.eqb c k).
  { intros k. unfold starts_with. now rewrite Hs. }
  unfold by_label in *. simpl. rewrite !Hsw.
  destruct (is_label_cases _ Hc) as [ -> | [ -> | -> ] ]; simpl.
  - now apply perm_skip.
  - rewrite <- Permutation_middle. now apply perm_skip.
  - rewrite app_assoc, <- Permutation_middle, <- app_assoc. now apply perm_skip.
Qed.

Lemma pooled_positions (x : str) :
  labels_only x ->
  Permutation (positions (pooled (grouped (segments_of x)))) (seq 0 (length x)).
Proof.
  intros Hx. rewrite <- positions_segments_of.
  unfold positions. apply Permutation_flat_map.
  apply by_label_permutation. intros sg. now apply segments_of_label.
Qed.

(** Left-to-right order survives any selection of segments. *)
Lemma StronglySorted_lt_app (l1 l2 : list nat) :
  StronglySorted lt l1 -> StronglySorted lt l2 ->
  (forall a b, In a l1 -> In b l2 -> (a < b)%nat) ->
  StronglySorted lt (l1 ++ l2).
Proof.
  induction 1 as [|a l1 Hs IH Ha]; intros H2 Hlt; simpl; [exact H2|].
  constructor.
  - apply IH; [exact H2|]. intros x y Hx Hy. apply Hlt; [now right | exact Hy].
  - apply Forall_app. split; [exact Ha|].
    apply Forall_forall. intros y Hy. apply Hlt; [now left | exact Hy].
Qed.

Lemma StronglySorted_lt_seq (st n : nat) : StronglySorted lt (seq st n).
Proof.
  revert st. induction n as [|n IH]; intros st; simpl; constructor.
  - apply IH.
  - apply Forall_forall. intros y Hy. apply in_seq in Hy. lia.
Qed.

Lemma filter_positions_sorted (f : Segment -> bool) (runs : list str) (st : nat) :
  StronglySorted lt (positions (filter f (segments_from st runs))) /\
  (forall p, In p (positions (filter f (segments_from st runs))) -> (st <= p)%nat).
Proof.
  revert st. induction runs as [|r runs IH]; intros st.
  - split; [constructor | intros p []].
  - rewrite segments_from_cons. simpl filter.
    destruct (IH (st + length r)%nat) as [IH1 IH2].
    destruct (f _).
    + rewrite positions_cons. simpl seg_idx. split.
      * apply StronglySorted_lt_app; [apply StronglySorted_lt_seq | exact IH1 |].
        intros a b Ha Hb. apply in_seq in Ha. apply IH2 in Hb. lia.
      * intros p Hp. apply in_app_or in Hp as [Hp|Hp].
        -- apply in_seq in Hp. lia.
        -- apply IH2 in Hp. lia.
    + split; [exact IH1|]. intros p Hp. apply IH2 in Hp. lia.
Qed.

Lemma by_label_sorted (c : ascii) (x : str) :
  StronglySorted lt (positions (by_label c (segments_of x))).
Proof. apply filter_positions_sorted. Qed.

Lemma by_label_starts_with (c : ascii) (segs : list Segment) (sg : Segment) :
  In sg (by_label c segs) -> starts_with c sg = true.
Proof. unfold by_label. intros H. now apply filter_In in H. Qed.

(** ** Set operations on position arrays *)

Lemma insert_unique_In (x y : nat) (l : list nat) :
  In y (insert_unique x l) <-> y = x \/ In y l.
Proof.
  induction l as [|z l IH]; simpl.
  - intuition.
  - destruct (x <? z)%nat eqn:Hlt; [simpl; intuition|].
    destruct (x =? z)%nat eqn:Heq.
    + apply Nat.eqb_eq in Heq. subst z. simpl. intuition.
    + simpl. rewrite IH. intuition.
Qed.

Lemma np_unique_In (y : nat) (a : list nat) : In y (np_unique a) <-> In y a.
Proof.
  induction a as [|x a IH]; simpl; [tauto|].
  rewrite insert_unique_In, IH. intuition.
Qed.

Lemma insert_unique_sorted (x : nat) (l : list nat) :
  StronglySorted lt l -> StronglySorted lt (insert_unique x l).
Proof.
  induction 1 as [|z l Hs IH Hz]; simpl.
  - constructor; constructor.
  - destruct (x <? z)%nat eqn:Hlt.
    + apply Nat.ltb_lt in Hlt. constructor; [now constructor|].
      constructor; [exact Hlt|].
      eapply Forall_impl; [|exact Hz]. simpl. intros; lia.
    + destruct (x =? z)%nat eqn:Heq; [now constructor|].
      apply Nat.ltb_ge in Hlt. apply Nat.eqb_neq in Heq.
      constructor; [exact IH|].
      apply Forall_forall. intros y Hy. apply insert_unique_In in Hy as [->|Hy].
      * lia.
      * rewrite Forall_forall in Hz. now apply Hz.
Qed.

Lemma np_unique_sorted (a : list nat) : StronglySorted lt (np_unique a).
Proof.
  induction a as [|x a IH]; simpl; [constructor | now apply insert_unique_sorted].
Qed.

Lemma StronglySorted_lt_NoDup (l : list nat) : StronglySorted lt l -> NoDup l.
Proof.
  induction 1 as [|z l Hs IH Hz]; constructor; [|exact IH].
  intros Hin. rewrite Forall_forall in Hz. apply Hz in Hin. lia.
Qed.

Lemma np_unique_NoDup (a : list nat) : NoDup (np_unique a).
Proof. apply StronglySorted_lt_NoDup, np_unique_sorted. Qed.

Lemma np_unique_length (a : list nat) :
  NoDup a -> length (np_unique a) = length a.
Proof.
  intros Ha. apply Permutation_length, NoDup_Permutation.
  - apply np_unique_NoDup.
  - exact Ha.
  - intros y. apply np_unique_In.
Qed.

Lemma mem_In (x : nat) (a : list nat) : mem x a = true <-> In x a.
Proof.
  unfold mem. rewrite existsb_exists. split.
  - intros (y & Hy & Heq). apply Nat.eqb_eq in Heq. now subst.
  - intros H. exists x. split; [exact H | apply Nat.eqb_refl].
Qed.

Lemma intersect1d_In (x : nat) (a b : list nat) :
  In x (intersect1d a b) <-> In x a /\ In x b.
Proof.
  unfold intersect1d. now rewrite filter_In, np_unique_In, mem_In.
Qed.

Lemma intersect1d_NoDup (a b : list nat) : NoDup (intersect1d a b).
Proof. apply NoDup_filter, np_unique_NoDup. Qed.

Lemma union1d_In (x : nat) (a b : list nat) :
  In x (union1d a b) <-> In x a \/ In x b.
Proof. unfold union1d. now rewrite np_unique_In, in_app_iff. Qed.


Lemma intersect1d_le_union1d (a b : list nat) :
  (length (intersect1d a b) <= length (union1d a b))%nat.
Proof.
  apply NoDup_incl_length; [apply intersect1d_NoDup|].
  intros x Hx. apply intersect1d_In in Hx. apply union1d_In. tauto.
Qed.




(** ** The overlap quantities *)

Lemma minov_nonneg (i j : Segment) : (0 <= minov i j)%Z.
Proof. unfold minov, len. lia. Qed.

Lemma minov_le_maxov (i j : Segment) : (minov i j <= maxov i j)%Z.
Proof.
  unfold minov, maxov, len. apply inj_le, intersect1d_le_union1d.
Qed.

Lemma l_s_nonneg (i : Segment) : (0 <= l_s i)%Z.
Proof. unfold l_s, len. lia. Qed.

Lemma delta_nonneg (i j : Segment) : (0 <= delta i j)%Z.
Proof.
  unfold delta.
  pose proof (minov_nonneg i j). pose proof (minov_le_maxov i j).
  pose proof (l_s_nonneg i). pose proof (l_s_nonneg j).
  pose proof (Z.div_pos (l_s i) 2). pose proof (Z.div_pos (l_s j) 2). lia.
Qed.






Lemma inject_Z_nonzero (z : Z) : z <> 0%Z -> ~ inject_Z z == 0.
Proof. intros H Hz. apply H. now apply (proj1 (inject_Z_injective z 0)). Qed.


(** ** The loops of [segment_of_overlap] *)

Lemma total_length_cons (i : Segment) (segs : list Segment) :
  total_length (i :: segs) = (l_s i + total_length segs)%Z.
Proof.
  unfold total_length, l_s, len. rewrite positions_cons, length_app. lia.
Qed.

Lemma NoDup_app_disjoint {A : Type} (l1 l2 : list A) :
  NoDup (l1 ++ l2) -> forall x, In x l1 -> ~ In x l2.
Proof.
  induction l1 as [|a l1 IH]; simpl; intros H x Hx; [contradiction|].
  apply NoDup_cons_iff in H as [Ha H].
  destruct Hx as [->|Hx]; [|now apply IH].
  intros Hin. apply Ha. apply in_or_app. now right.
Qed.

(** In a family of segments whose pooled positions are distinct, a segment
    shares no position with the segments before and after it. *)
Lemma separated_split (l1 l2 : list Segment) (i : Segment) :
  NoDup (positions (l1 ++ i :: l2)) ->
  NoDup (seg_idx i) /\
  forall j, In j l1 \/ In j l2 ->
  forall p, In p (seg_idx i) -> ~ In p (seg_idx j).
Proof.
  rewrite positions_app, positions_cons. intros H. split.
  - apply NoDup_app_remove_l in H. now apply NoDup_app_remove_r in H.
  - intros j [Hj|Hj] p Hp Hpj.
    + apply (NoDup_app_disjoint _ _ H p).
      * apply in_flat_map. now exists j.
      * apply in_or_app. now left.
    + apply NoDup_app_remove_l in H.
      apply (NoDup_app_disjoint _ _ H p Hp).
      apply in_flat_map. now exists j.
Qed.

Lemma separated_member (segs : list Segment) (i : Segment) :
  NoDup (positions segs) -> In i segs -> NoDup (seg_idx i).
Proof.
  intros Hnd Hin. apply in_split in Hin as (l1 & l2 & ->).
  now apply separated_split in Hnd.
Qed.





Lemma total_length_app (l1 l2 : list Segment) :
  total_length (l1 ++ l2) = (total_length l1 + total_length l2)%Z.
Proof.
  unfold total_length, len. rewrite positions_app, length_app. lia.
Qed.



Lemma grouped_items (k : ascii) (refs : list Segment) (segs : list Segment) :
  In (k, refs) (grouped segs) ->
  dict_get k (grouped segs) = Ok refs /\ refs = by_label k segs.
Proof.
  unfold grouped. simpl.
  intros [H|[H|[H|[]]]]; injection H as <- <-; simpl; auto.
Qed.


(** Whatever the two strings, the loops finish and [N_total] is the length
    of the reference. *)
Lemma ref_loop_total (k : ascii) (ss_pred : seg_dict) (preds : list Segment) :
  dict_get k ss_pred = Ok preds ->
  forall refs subsum_k N_k,
  exists subsum_k',
    ref_loop k refs ss_pred (subsum_k, N_k) =
      Ok (subsum_k', (N_k + total_length refs)%Z).
Proof.
  intros Hget refs.
  induction refs as [|i refs IH]; intros subsum_k N_k.
  - exists subsum_k. simpl. now rewrite Z.add_0_r.
  - simpl. rewrite Hget. simpl.
    destruct (IH (pred_loop i preds subsum_k) (N_k + l_s i)%Z) as (q & Hq).
    exists q. rewrite total_length_cons, Hq. now rewrite Z.add_assoc.
Qed.

Lemma key_loop_total (ss_pred : seg_dict) (items : seg_dict) :
  (forall k refs, In (k, refs) items -> exists preds, dict_get k ss_pred = Ok preds) ->
  forall val_total N_total,
  exists val_total',
    key_loop items ss_pred (val_total, N_total) =
      Ok (val_total', (N_total + total_length (pooled items))%Z).
Proof.
  induction items as [|[k refs] items IH]; intros H val_total N_total.
  - exists val_total. simpl. now rewrite Z.add_0_r.
  - destruct (H k refs (or_introl eq_refl)) as (preds & Hget).
    destruct (ref_loop_total k ss_pred preds Hget refs 0 0%Z) as (sub & Hsub).
    cbn [key_loop]. rewrite Hsub. cbn [bind].
    destruct (IH (fun k' refs' Hin => H k' refs' (or_intror Hin))
                 (val_total + sub) (N_total + (0 + total_length refs))%Z)
      as (v & Hv).
    exists v. unfold pooled in *. simpl map. simpl concat.
    rewrite total_length_app, Hv. do 2 f_equal. lia.
Qed.

Lemma pooled_length (x : str) :
  labels_only x ->
  total_length (pooled (grouped (segments_of x))) = Z.of_nat (length x).
Proof.
  intros Hx. unfold total_length, len.
  rewrite (Permutation_length (pooled_positions x Hx)). now rewrite length_seq.
Qed.

Lemma sov_totals_total (ss_ref_str ss_pred_str : str) :
  labels_only ss_ref_str -> labels_only ss_pred_str ->
  exists val_total,
    sov_totals ss_ref_str ss_pred_str =
      Ok (val_total, Z.of_nat (length ss_ref_str)).
Proof.
  intros Href Hpred. unfold sov_totals.
  rewrite (get_segments_spec _ Href), (get_segments_spec _ Hpred). simpl bind.
  destruct (key_loop_total (grouped (segments_of ss_pred_str))
              (grouped (segments_of ss_ref_str)))
    with (val_total := 0) (N_total := 0%Z) as (v & Hv).
  { intros k refs Hin. unfold grouped in *. simpl in Hin.
    destruct Hin as [H|[H|[H|[]]]]; injection H as <- <-; simpl; eauto. }
  rewrite (pooled_length _ Href) in Hv. now exists v.
Qed.



(** ** [q3_acc] on flat arrays *)

Lemma array1d_well_formed (l : list Z) : well_formed (array1d l).
Proof. unfold well_formed, array1d. simpl. lia. Qed.

Lemma squeeze0_well_formed (a a' : ndarray) :
  well_formed a -> squeeze0 a = Ok a' -> well_formed a'.
Proof.
  unfold well_formed, squeeze0.
  destruct (shape a) as [|[|[|n]] sh]; try discriminate.
  intros H Heq. injection Heq as <-. simpl in *. lia.
Qed.

Lemma chunks_flat_compare (real pred : list Z) :
  concat_opt
    (map (fun xy => equal_aligned [] [] (fst xy) (snd xy))
         (combine (chunks (length real) 1 real) (chunks (length pred) 1 pred))) =
  Some (eq_flags real pred).
Proof.
  revert pred. induction real as [|x real IH]; intros [|y pred]; try reflexivity.
  simpl length. cbn [chunks firstn skipn combine map fst snd concat_opt].
  rewrite IH. reflexivity.
Qed.

Lemma equal_aligned_flat (n : nat) (real pred : list Z) :
  length real = n -> length pred = n ->
  equal_aligned [n] [n] real pred = Some (eq_flags real pred).
Proof.
  intros Hr Hp. cbn [equal_aligned size_of fold_right].
  rewrite Nat.eqb_refl.
  replace (chunks n 1 real) with (chunks (length real) 1 real) by now rewrite Hr.
  replace (chunks n 1 pred) with (chunks (length pred) 1 pred) by now rewrite Hp.
  apply chunks_flat_compare.
Qed.

Lemma equal_aligned_mismatch (n m : nat) (real pred : list Z) :
  (2 <= n)%nat -> (2 <= m)%nat -> n <> m ->
  equal_aligned [n] [m] real pred = None.
Proof.
  intros Hr Hp Hne. cbn [equal_aligned].
  destruct (Nat.eqb_spec n m); [contradiction|].
  destruct (Nat.eqb_spec n 1); [lia|].
  destruct (Nat.eqb_spec m 1); [lia|].
  reflexivity.
Qed.

Lemma np_equal_flat (legacy : bool) (n : nat) (real pred : list Z) :
  length real = n -> length pred = n ->
  np_equal legacy (mkArray [n] real) (mkArray [n] pred) =
  Ok (Elementwise (eq_flags real pred)).
Proof.
  intros Hr Hp. unfold np_equal, pad_shape.
  cbn [shape data length Nat.max Nat.sub repeat app].
  now rewrite (equal_aligned_flat n real pred Hr Hp).
Qed.

Lemma np_equal_mismatch (legacy : bool) (n m : nat) (real pred : list Z) :
  (2 <= n)%nat -> (2 <= m)%nat -> n <> m ->
  np_equal legacy (mkArray [n] real) (mkArray [m] pred) =
  if legacy then Ok ScalarFalse else Raise ValueError.
Proof.
  intros Hn Hm Hne. unfold np_equal, pad_shape.
  cbn [shape data length Nat.max Nat.sub repeat app].
  now rewrite (equal_aligned_mismatch n m real pred Hn Hm Hne).
Qed.

(** The two squeezes are skipped on flat arrays of two or more elements. *)
Lemma q3_acc_unsqueezed (legacy : bool) (n m : nat) (real pred : list Z) :
  (2 <= n)%nat -> (2 <= m)%nat ->
  q3_acc legacy (mkArray [n] real) (mkArray [m] pred) =
  (eq <- np_equal legacy (mkArray [n] real) (mkArray [m] pred) ;;
   Ok (true_divide (np_sum eq) n)).
Proof.
  intros Hn Hm. unfold q3_acc, shape0, item. cbn [shape nth_error bind].
  destruct (Nat.eqb_spec n 1); [lia|].
  destruct (Nat.eqb_spec m 1); [lia|].
  cbn [bind shape nth_error]. reflexivity.
Qed.

Lemma true_divide_pos (a : Z) (n : nat) :
  (1 <= n)%nat ->
  true_divide a n = Finite (inject_Z a / inject_Z (Z.of_nat n)).
Proof. intros H. destruct n; [lia | reflexivity]. Qed.

Lemma q3_acc_flat (legacy : bool) (real pred : list Z) :
  length real = length pred -> (2 <= length real)%nat ->
  q3_acc legacy (array1d real) (array1d pred) =
  Ok (Finite (inject_Z (matches real pred) / inject_Z (len real))).
Proof.
  intros Hlen Hn. unfold array1d.
  rewrite q3_acc_unsqueezed by lia.
  rewrite <- Hlen, (np_equal_flat legacy (length real) real pred eq_refl)
    by now symmetry.
  cbn [bind np_sum]. now rewrite true_divide_pos by lia.
Qed.

Lemma q3_acc_flat_mismatch (legacy : bool) (real pred : list Z) :
  (2 <= length real)%nat -> (2 <= length pred)%nat ->
  length real <> length pred ->
  q3_acc legacy (array1d real) (array1d pred) =
  if legacy then Ok (Finite (inject_Z 0 / inject_Z (len real)))
  else Raise ValueError.
Proof.
  intros Hn Hm Hne. unfold array1d.
  rewrite q3_acc_unsqueezed, np_equal_mismatch by lia.
  destruct legacy; [|reflexivity].
  cbn [bind np_sum]. now rewrite true_divide_pos by lia.
Qed.

(** A flat array of one element loses its only axis in the squeeze, and
    the shape of the result has no first entry. *)
Lemma q3_acc_singleton_real (legacy : bool) (x : Z) (pred : ndarray) :
  exists e, q3_acc legacy (array1d [x]) pred = Raise e.
Proof.
  unfold q3_acc, array1d. cbn [length shape0 shape item nth_error bind Nat.eqb].
  unfold squeeze0 at 1. cbn [shape data bind].
  destruct (shape0 pred) as [p0|e]; cbn [bind]; [|eauto].
  destruct (if (p0 =? 1)%nat then squeeze0 pred else Ok pred) as [pred'|e];
    cbn [bind]; [|eauto].
  destruct (np_equal legacy _ pred') as [c|e]; cbn [bind]; [|eauto].
  unfold shape0, item. cbn [shape nth_error bind]. eauto.
Qed.

Lemma q3_acc_singletons (legacy : bool) (x y : Z) :
  q3_acc legacy (array1d [x]) (array1d [y]) = Raise IndexError.
Proof. destruct legacy; reflexivity. Qed.

Lemma matches_cons (x y : Z) (real pred : list Z) :
  matches (x :: real) (y :: pred) =
  ((if Z.eqb x y then 1 else 0) + matches real pred)%Z.
Proof.
  unfold matches, eq_flags. cbn [combine map fst snd].
  destruct (Z.eqb x y).
  - rewrite count_occ_cons_eq by reflexivity. lia.
  - rewrite count_occ_cons_neq by discriminate. lia.
Qed.

Lemma matches_nonneg (real pred : list Z) : (0 <= matches real pred)%Z.
Proof. unfold matches. lia. Qed.

Lemma matches_le (real pred : list Z) : (matches real pred <= len real)%Z.
Proof.
  revert pred. induction real as [|x real IH]; intros [|y pred];
    try (unfold matches, eq_flags, len; simpl; lia).
  rewrite matches_cons. specialize (IH pred).
  unfold len in *. simpl length. destruct (Z.eqb x y); lia.
Qed.

Lemma matches_all (real pred : list Z) :
  length real = length pred ->
  (matches real pred = len real <-> real = pred).
Proof.
  revert pred. induction real as [|x real IH]; intros [|y pred] Hlen;
    try discriminate; [tauto|].
  injection Hlen as Hlen. rewrite matches_cons.
  pose proof (matches_le real pred) as Hle.
  specialize (IH pred Hlen).
  unfold len in *. simpl length.
  destruct (Z.eqb_spec x y) as [->|Hne]; split; intros H.
  - f_equal. apply IH. lia.
  - injection H as H. apply IH in H. lia.
  - lia.
  - congruence.
Qed.

Lemma matches_none (real pred : list Z) :
  matches real pred = 0%Z <-> all_differ real pred.
Proof.
  revert pred. induction real as [|x real IH]; intros [|y pred].
  - split; [|reflexivity]. intros _ [|i] a b; discriminate.
  - split; [|reflexivity]. intros _ [|i] a b; discriminate.
  - split; [|reflexivity]. intros _ [|i] a b H1 H2; discriminate.
  - rewrite matches_cons. pose proof (matches_nonneg real pred) as H0.
    specialize (IH pred). split.
    + intros H. destruct (Z.eqb_spec x y) as [->|Hne]; [lia|].
      intros [|i] a b Ha Hb; simpl in *.
      * congruence.
      * apply (proj1 IH) with (i := i); [lia | exact Ha | exact Hb].
    + intros H. destruct (Z.eqb_spec x y) as [->|Hne].
      * exfalso. now apply (H 0%nat y y).
      * assert (Hrest : all_differ real pred)
          by (intros i a b Ha Hb; now apply (H (S i))).
        apply IH in Hrest. lia.
Qed.

(** Quotients of integers. *)
Lemma ratio_bounds (m n : Z) :
  (0 <= m <= n)%Z -> (0 < n)%Z ->
  0 <= inject_Z m / inject_Z n <= 1.
Proof.
  intros Hm Hn.
  assert (Hq : 0 < inject_Z n) by (rewrite <- (Zlt_Qlt 0); exact Hn).
  split.
  - apply Qle_shift_div_l; [exact Hq|].
    rewrite Qmult_0_l, <- (Zle_Qle 0). lia.
  - apply Qle_shift_div_r; [exact Hq|].
    rewrite Qmult_1_l, <- Zle_Qle. lia.
Qed.

Lemma ratio_one (m n : Z) :
  (0 < n)%Z -> (inject_Z m / inject_Z n == 1 <-> m = n).
Proof.
  intros Hn. pose proof (inject_Z_nonzero n ltac:(lia)) as Hnz. split.
  - intros H. apply inject_Z_injective.
    rewrite <- (Qmult_1_l (inject_Z n)), <- H. field. exact Hnz.
  - intros ->. field. exact Hnz.
Qed.

Lemma ratio_zero (m n : Z) :
  (0 < n)%Z -> (inject_Z m / inject_Z n == 0 <-> m = 0%Z).
Proof.
  intros Hn. pose proof (inject_Z_nonzero n ltac:(lia)) as Hnz. split.
  - intros H. apply inject_Z_injective.
    transitivity (inject_Z m / inject_Z n * inject_Z n); [field; exact Hnz|].
    rewrite H. ring.
  - intros ->. field. exact Hnz.
Qed.

(** On flat arrays of equal length at least 2, [q3_acc] is the fraction of
    matching positions: between 0 and 1, equal to 1 exactly for identical
    sequences and to 0 exactly when no position matches. *)
Lemma q3_acc_flat_bounds (legacy : bool) (real pred : list Z) :
  length real = length pred -> (2 <= length real)%nat ->
  exists q,
    q3_acc legacy (array1d real) (array1d pred) = Ok (Finite q) /\
    0 <= q <= 1 /\
    (q == 1 <-> real = pred) /\
    (q == 0 <-> all_differ real pred).
Proof.
  intros Hlen Hn.
  exists (inject_Z (matches real pred) / inject_Z (len real)).
  assert (Hpos : (0 < len real)%Z) by (unfold len; lia).
  split; [now apply q3_acc_flat|]. split; [|split].
  - apply ratio_bounds; [|exact Hpos].
    split; [apply matches_nonneg | apply matches_le].
  - rewrite (ratio_one _ _ Hpos). now apply matches_all.
  - rewrite (ratio_zero _ _ Hpos). apply matches_none.
Qed.

Lemma label_codes_ok (x : str) :
  labels_only x ->
  exists codes, label_codes x ss_id_dict = Ok codes /\ length codes = length x.
Proof.
  unfold labels_only. induction x as [|c x IH]; simpl; intros H.
  - now exists [].
  - apply andb_true_iff in H as [Hc Hx].
    destruct (IH Hx) as (codes & Hcodes & Hlen). rewrite Hcodes.
    destruct (is_label_cases _ Hc) as [ -> | [ -> | -> ] ]; simpl;
      eexists; split; try reflexivity; simpl; now rewrite Hlen.
Qed.

(** * The claims *)



(** C2. The score is not bounded above by 1: a reference segment overlapped
    by two predicted segments of its label is counted once in [N_total] but
    receives two values.  Reference HHHHHHHH against prediction HHHH-HHH
    scores 5/4. *)
Theorem segment_of_overlap_exceeds_one :
  exists ref pred sov,
    length ref = length pred /\ ref <> [] /\
    labels_only ref /\ labels_only pred /\
    segment_of_overlap ref pred = Ok sov /\
    sov == 5 # 4 /\ 1 < sov.
Proof.
  exists (lit "HHHHHHHH"), (lit "HHHH-HHH").
  eexists. split; [reflexivity|]. split; [discriminate|].
  split; [reflexivity|]. split; [reflexivity|].
  split; [vm_compute; reflexivity|]. split; reflexivity.
Qed.




(** C4. Reference HHHH against prediction HHEE: [q3_acc] returns 1/2 and
    [segment_of_overlap] returns 3/4.  The only overlapping pair is the H
    segment of the reference with the H segment of the prediction: l1 = 4,
    l2 = 2, overlap 2, union 4, delta 1, value 3; [N_total] is 4. *)
Theorem scenario_HHHH_HHEE (legacy : bool) :
  (exists real pred acc,
     label_to_index (lit "HHHH") ss_id_dict = Ok real /\
     label_to_index (lit "HHEE") ss_id_dict = Ok pred /\
     q3_acc legacy real pred = Ok (Finite acc) /\ acc == 1 # 2) /\
  (exists d_ref d_pred i j val_total sov,
     get_segments (lit "HHHH") = Ok d_ref /\
     get_segments (lit "HHEE") = Ok d_pred /\
     map (fun kv => (fst kv, length (snd kv))) d_ref =
       [("E", 0); ("H", 1); ("-", 0)]%char%nat /\
     dict_get "H" d_ref = Ok [i] /\ dict_get "H" d_pred = Ok [j] /\
     l_s i = 4%Z /\ l_s j = 2%Z /\ minov i j = 2%Z /\ maxov i j = 4%Z /\
     delta i j = 1%Z /\ value i j == 3 /\
     sov_totals (lit "HHHH") (lit "HHEE") = Ok (val_total, 4%Z) /\
     val_total == 3 /\
     segment_of_overlap (lit "HHHH") (lit "HHEE") = Ok sov /\
     sov == 3 # 4).
Proof.
  split.
  - do 3 eexists. split; [reflexivity|]. split; [reflexivity|].
    split; [destruct legacy; vm_compute; reflexivity | reflexivity].
  - do 6 eexists.
    repeat (split; [vm_compute; reflexivity|]). reflexivity.
Qed.

(** C5. For every label sequence [x] of length N over H, E and -,
    [get_segments x] returns the dictionary with keys E, H and -, whose
    segments are each a non-empty run on a contiguous ascending range of
    positions, filed under the label they start with; pooled over the three
    keys the positions are exactly 0, ..., N-1, each once (no gap, and no
    position shared by two segments), and under each key the segments come
    from left to right. *)
Theorem get_segments_partition (x : str) :
  labels_only x ->
  exists d,
    get_segments x = Ok d /\
    map fst d = ["E"; "H"; "-"]%char /\
    (forall k segs sg, In (k, segs) d -> In sg segs ->
       starts_with k sg = true /\
       exists start, seg_idx sg = seq start (length (seg_str sg))) /\
    Permutation (positions (pooled d)) (seq 0 (length x)) /\
    (forall p, In p (positions (pooled d)) <-> (p < length x)%nat) /\
    NoDup (positions (pooled d)) /\
    (forall before i after j,
       pooled d = before ++ i :: after -> In j before \/ In j after ->
       forall p, In p (seg_idx i) -> ~ In p (seg_idx j)) /\
    (forall k segs, In (k, segs) d -> StronglySorted lt (positions segs)).
Proof.
  intros Hx. exists (grouped (segments_of x)).
  pose proof (pooled_positions x Hx) as Hperm.
  assert (Hnd : NoDup (positions (pooled (grouped (segments_of x)))))
    by apply (Permutation_NoDup (Permutation_sym Hperm)), seq_NoDup.
  split; [now apply get_segments_spec|]. split; [reflexivity|].
  split; [|split; [exact Hperm|split; [|split; [exact Hnd|split]]]].
  - intros k segs sg Hin Hsg. apply grouped_items in Hin as [_ Heq]. subst segs.
    split; [now apply (by_label_starts_with k (segments_of x))|].
    apply filter_In in Hsg as [Hsg _].
    now apply segments_from_shape in Hsg.
  - intros p. split; intros H.
    + apply (Permutation_in _ Hperm), in_seq in H. lia.
    + apply (Permutation_in _ (Permutation_sym Hperm)), in_seq. lia.
  - intros before i after j Heq Hj. rewrite Heq in Hnd.
    now apply (separated_split before after i Hnd).
  - intros k segs Hin. apply grouped_items in Hin as [_ Heq]. subst segs.
    apply by_label_sorted.
Qed.

Lemma get_segments_partition_witness :
  labels_only (lit "HHEE-HH") /\
  exists d,
    get_segments (lit "HHEE-HH") = Ok d /\
    Permutation (positions (pooled d)) (seq 0 7).
Proof.
  split; [reflexivity|].
  destruct (get_segments_partition (lit "HHEE-HH")) as (d & Hd & _ & _ & Hp & _).
  - reflexivity.
  - exists d. split; [exact Hd | exact Hp].
Defined.

(** C6 (as stated, refuted). Reference HHHHH (length 5) against prediction
    HHHH (length 4): [segment_of_overlap] returns the score 1, and [q3_acc],
    with the comparison of the NumPy releases before 1.25, returns 0. *)
Lemma mismatched_lengths_are_scored :
  length (lit "HHHHH") = 5%nat /\ length (lit "HHHH") = 4%nat /\
  (exists sov,
     segment_of_overlap (lit "HHHHH") (lit "HHHH") = Ok sov /\ sov == 1) /\
  (exists real pred acc,
     label_to_index (lit "HHHHH") ss_id_dict = Ok real /\
     label_to_index (lit "HHHH") ss_id_dict = Ok pred /\
     q3_acc true real pred = Ok (Finite acc) /\ acc == 0).
Proof.
  split; [reflexivity|]. split; [reflexivity|]. split.
  - eexists. split; [vm_compute; reflexivity | reflexivity].
  - do 3 eexists. split; [reflexivity|]. split; [reflexivity|].
    split; [vm_compute; reflexivity | reflexivity].
Qed.

(** C6 (amended). Neither function compares the lengths of its arguments.
    On label sequences of different lengths [segment_of_overlap] returns a
    score as soon as the reference is not empty.  On flat arrays of
    different lengths, both at least 2, [q3_acc] counts no match: the
    comparison cannot broadcast the two shapes, and the result is the score
    0 where NumPy answers the scalar False (before 1.25) and NumPy's
    [ValueError] where it raises (from 1.25 on). *)
Theorem mismatched_lengths_unchecked (legacy : bool) (ref pred : str) :
  labels_only ref -> labels_only pred -> length ref <> length pred ->
  (ref <> [] -> exists sov, segment_of_overlap ref pred = Ok sov) /\
  ((2 <= length ref)%nat -> (2 <= length pred)%nat ->
   exists real_arr pred_arr,
     label_to_index ref ss_id_dict = Ok real_arr /\
     label_to_index pred ss_id_dict = Ok pred_arr /\
     if legacy
     then exists acc, q3_acc legacy real_arr pred_arr = Ok (Finite acc) /\ acc == 0
     else q3_acc legacy real_arr pred_arr = Raise ValueError).
Proof.
  intros Href Hpred Hne. split.
  - intros Hnil.
    destruct (sov_totals_total ref pred Href Hpred) as (v & Hv).
    unfold segment_of_overlap. rewrite Hv. cbn [bind].
    destruct (Z.eqb_spec (Z.of_nat (length ref)) 0) as [H0|_]; [|eauto].
    destruct ref; [congruence | simpl in H0; lia].
  - intros Hr Hp.
    destruct (label_codes_ok ref Href) as (cr & Hcr & Hlr).
    destruct (label_codes_ok pred Hpred) as (cp & Hcp & Hlp).
    exists (array1d cr), (array1d cp). unfold label_to_index.
    rewrite Hcr, Hcp. split; [reflexivity|]. split; [reflexivity|].
    rewrite q3_acc_flat_mismatch by lia.
    destruct legacy; [|reflexivity].
    eexists. split; [reflexivity|].
    apply ratio_zero; [unfold len; lia | reflexivity].
Qed.

Lemma mismatched_lengths_unchecked_witness :
  labels_only (lit "HHHHH") /\ labels_only (lit "HHHH") /\
  length (lit "HHHHH") <> length (lit "HHHH") /\
  exists sov, segment_of_overlap (lit "HHHHH") (lit "HHHH") = Ok sov.
Proof.
  split; [reflexivity|]. split; [reflexivity|]. split; [discriminate|].
  apply (mismatched_lengths_unchecked true (lit "HHHHH") (lit "HHHH")).
  - reflexivity.
  - reflexivity.
  - discriminate.
  - discriminate.
Defined.

(** C7 (as stated, refuted). With both strings empty the function raises
    the plain [ZeroDivisionError] of the last division. *)
Lemma segment_of_overlap_empty_raw_error :
  length (lit "") = 0%nat /\
  segment_of_overlap (lit "") (lit "") = Raise ZeroDivisionError.
Proof. split; reflexivity. Qed.

(** C7 (amended). When the reference and the prediction both have length
    zero, no segment is visited, [val_total] and [N_total] are both still 0
    and [segment_of_overlap] raises [ZeroDivisionError]; it returns no
    value, NaN or other. *)
Theorem segment_of_overlap_empty (ss_ref_str ss_pred_str : str) :
  length ss_ref_str = 0%nat -> length ss_pred_str = 0%nat ->
  sov_totals ss_ref_str ss_pred_str = Ok (0, 0%Z) /\
  segment_of_overlap ss_ref_str ss_pred_str = Raise ZeroDivisionError.
Proof.
  intros Href Hpred.
  apply length_zero_iff_nil in Href, Hpred. subst.
  split; reflexivity.
Qed.

Lemma segment_of_overlap_empty_witness :
  length (lit "") = 0%nat /\ length (lit "") = 0%nat /\
  sov_totals (lit "") (lit "") = Ok (0, 0%Z) /\
  segment_of_overlap (lit "") (lit "") = Raise ZeroDivisionError.
Proof.
  split; [reflexivity|]. split; [reflexivity|].
  apply (segment_of_overlap_empty (lit "") (lit "")); reflexivity.
Defined.

(** C8. The score is not symmetric: HHHH as reference against HHEE scores
    3/4, HHEE as reference against HHHH scores 3/8.  [N_total] is summed
    over the segments of the reference alone: whatever the prediction, it is
    the length of the reference (4 both times here); [val_total] is 3 one
    way and 3/2 the other. *)
Theorem segment_of_overlap_not_symmetric :
  (exists a b val_ab val_ba sov_ab sov_ba,
     length a = length b /\ a <> [] /\
     labels_only a /\ labels_only b /\
     sov_totals a b = Ok (val_ab, len a) /\
     sov_totals b a = Ok (val_ba, len b) /\
     val_ab == 3 /\ val_ba == 3 # 2 /\
     segment_of_overlap a b = Ok sov_ab /\
     segment_of_overlap b a = Ok sov_ba /\
     sov_ab == 3 # 4 /\ sov_ba == 3 # 8 /\
     ~ sov_ab == sov_ba) /\
  (forall ref pred,
     labels_only ref -> labels_only pred ->
     exists val_total, sov_totals ref pred = Ok (val_total, len ref)).
Proof.
  split.
  - exists (lit "HHHH"), (lit "HHEE"). do 4 eexists.
    split; [reflexivity|]. split; [discriminate|].
    split; [reflexivity|]. split; [reflexivity|].
    split; [vm_compute; reflexivity|]. split; [vm_compute; reflexivity|].
    split; [reflexivity|]. split; [reflexivity|].
    split; [vm_compute; reflexivity|]. split; [vm_compute; reflexivity|].
    split; [reflexivity|]. split; [reflexivity|].
    intros H. discriminate H.
  - intros ref pred Href Hpred. now apply sov_totals_total.
Qed.

Lemma segment_of_overlap_not_symmetric_witness :
  labels_only (lit "HHEE") /\ labels_only (lit "HHHH") /\
  exists val_total,
    sov_totals (lit "HHEE") (lit "HHHH") = Ok (val_total, len (lit "HHEE")).
Proof.
  split; [reflexivity|]. split; [reflexivity|].
  apply (proj2 segment_of_overlap_not_symmetric (lit "HHEE") (lit "HHHH"));
    reflexivity.
Defined.

(** C9 (evaluation at the failing input). The flat sequences H and H are
    equal, of the same length 1, and [q3_acc] raises [IndexError] on them
    instead of returning 1. *)
Theorem q3_acc_identical_singletons (legacy : bool) :
  exists real,
    label_to_index (lit "H") ss_id_dict = Ok real /\
    shape real = [1%nat] /\
    q3_acc legacy real real = Raise IndexError.
Proof.
  eexists. split; [reflexivity|]. split; [reflexivity|].
  destruct legacy; reflexivity.
Qed.

(** C10. On flat inputs of the same non-zero length, [q3_acc] raises
    [IndexError] when that length is 1 and returns a score otherwise: the
    squeeze takes the only axis of a one-element flat array away, and
    [shape[0]] of the result does not exist.  A flat reference of length 1
    yields no score whatever the other argument is. *)
Theorem q3_acc_flat_partial (legacy : bool) (real pred : list Z) :
  length real = length pred -> real <> [] ->
  (q3_acc legacy (array1d real) (array1d pred) = Raise IndexError <->
   length real = 1%nat) /\
  (length real <> 1%nat ->
   exists acc, q3_acc legacy (array1d real) (array1d pred) = Ok (Finite acc)) /\
  (length real = 1%nat ->
   forall other, exists e, q3_acc legacy (array1d real) other = Raise e).
Proof.
  intros Hlen Hne.
  destruct real as [|x [|x' real]]; [congruence| |].
  - destruct pred as [|y [|y' pred]]; try discriminate.
    split; [|split].
    + split; [reflexivity | intros _; apply q3_acc_singletons].
    + intros H. now elim H.
    + intros _ other. apply q3_acc_singleton_real.
  - assert (Hn : (2 <= length (x :: x' :: real))%nat) by (simpl; lia).
    pose proof (q3_acc_flat legacy _ _ Hlen Hn) as Hq.
    split; [|split].
    + rewrite Hq. split; [discriminate | simpl; lia].
    + intros _. rewrite Hq. eauto.
    + simpl. lia.
Qed.

Lemma q3_acc_flat_partial_witness :
  length [0%Z] = length [0%Z] /\ [0%Z] <> [] /\
  q3_acc true (array1d [0%Z]) (array1d [0%Z]) = Raise IndexError.
Proof.
  split; [reflexivity|]. split; [discriminate|].
  apply (q3_acc_flat_partial true [0%Z] [0%Z]); [reflexivity | discriminate |].
  reflexivity.
Defined.

(** * Further properties of the helpers *)

(** ** [ints_to_symbols1d] and [label_to_index] *)

Lemma ints_to_symbols1d_flat (l : list Z) (map_dict : list (Z * ascii)) :
  ints_to_symbols1d (array1d l) map_dict = lift (symbols l map_dict).
Proof. reflexivity. Qed.

Lemma symbols_label_codes (ss : str) (codes : list Z) :
  label_codes ss ss_id_dict = Ok codes -> symbols codes pos_ss_dict = Ok ss.
Proof.
  revert codes. induction ss as [|c ss IH]; intros codes H; simpl in H.
  - now injection H as <-.
  - destruct (Ascii.eqb_spec c "H") as [->|_];
      [|destruct (Ascii.eqb_spec c "E") as [->|_];
        [|destruct (Ascii.eqb_spec c "-") as [->|_]; [|discriminate]]];
      simpl in H;
      destruct (label_codes ss ss_id_dict) as [cs|e]; try discriminate;
      simpl in H; injection H as <-; simpl; now rewrite (IH cs eq_refl).
Qed.

Lemma label_codes_symbols (l : list Z) (ss : str) :
  symbols l pos_ss_dict = Ok ss -> label_codes ss ss_id_dict = Ok l.
Proof.
  revert ss. induction l as [|x l IH]; intros ss H; simpl in H.
  - now injection H as <-.
  - destruct (Z.eqb_spec x 0) as [->|_];
      [|destruct (Z.eqb_spec x 1) as [->|_];
        [|destruct (Z.eqb_spec x 2) as [->|_]; [|discriminate]]];
      simpl in H;
      destruct (symbols l pos_ss_dict) as [cs|e]; try discriminate;
      simpl in H; injection H as <-; simpl; now rewrite (IH cs eq_refl).
Qed.

Lemma symbols_in_range (l : list Z) :
  Forall (fun x => 0 <= x <= 2)%Z l ->
  exists ss, symbols l pos_ss_dict = Ok ss /\ labels_only ss.
Proof.
  induction 1 as [|x l Hx Hl (ss & Hss & Hlab)].
  - now exists [].
  - simpl. rewrite Hss.
    assert (Hc : (x = 0 \/ x = 1 \/ x = 2)%Z) by lia.
    destruct Hc as [ -> | [ -> | -> ] ]; simpl; eexists; split; try reflexivity;
      unfold labels_only in *; simpl; exact Hlab.
Qed.

Lemma symbols_out_of_range (l : list Z) :
  ~ Forall (fun x => 0 <= x <= 2)%Z l ->
  symbols l pos_ss_dict = Raise KeyError.
Proof.
  induction l as [|x l IH]; intros H.
  - elim H. constructor.
  - destruct (Z_le_dec 0 x) as [H0|H0]; [destruct (Z_le_dec x 2) as [H2|H2]|].
    + assert (Hl : ~ Forall (fun x => 0 <= x <= 2)%Z l).
      { intros Hl. apply H. constructor; [lia | exact Hl]. }
      simpl. rewrite (IH Hl).
      assert (Hc : (x = 0 \/ x = 1 \/ x = 2)%Z) by lia.
      destruct Hc as [ -> | [ -> | -> ] ]; reflexivity.
    + simpl.
      destruct (Z.eqb_spec x 0); [lia|]. destruct (Z.eqb_spec x 1); [lia|].
      destruct (Z.eqb_spec x 2); [lia|]. reflexivity.
    + simpl.
      destruct (Z.eqb_spec x 0); [lia|]. destruct (Z.eqb_spec x 1); [lia|].
      destruct (Z.eqb_spec x 2); [lia|]. reflexivity.
Qed.

(** X1. Decoding undoes encoding: for a string over H, E and -,
    [label_to_index] returns a flat array of as many codes, and
    [ints_to_symbols1d] turns that array back into the string. *)
Theorem ints_to_symbols1d_label_to_index (ss : str) :
  labels_only ss ->
  exists arr,
    label_to_index ss ss_id_dict = Ok arr /\
    shape arr = [length ss] /\
    ints_to_symbols1d arr pos_ss_dict = Return ss.
Proof.
  intros Hss. destruct (label_codes_ok ss Hss) as (codes & Hcodes & Hlen).
  exists (array1d codes). unfold label_to_index. rewrite Hcodes.
  split; [reflexivity|]. split; [simpl; now rewrite Hlen|].
  rewrite ints_to_symbols1d_flat. now rewrite (symbols_label_codes ss codes Hcodes).
Qed.

Lemma ints_to_symbols1d_label_to_index_witness :
  labels_only (lit "HE--H") /\
  exists arr,
    label_to_index (lit "HE--H") ss_id_dict = Ok arr /\
    ints_to_symbols1d arr pos_ss_dict = Return (lit "HE--H").
Proof.
  split; [reflexivity|].
  destruct (ints_to_symbols1d_label_to_index (lit "HE--H")) as (arr & H1 & _ & H2).
  - reflexivity.
  - exists arr. split; [exact H1 | exact H2].
Defined.

(** X2. Encoding undoes decoding, and decoding fails on anything else: on
    a flat array whose codes are all 0, 1 or 2, [ints_to_symbols1d] returns a
    string over H, E and - that [label_to_index] maps back to the same
    array; if some code is outside 0..2 it raises [KeyError]. *)
Theorem label_to_index_ints_to_symbols1d (l : list Z) :
  (Forall (fun x => 0 <= x <= 2)%Z l ->
   exists ss,
     ints_to_symbols1d (array1d l) pos_ss_dict = Return ss /\
     labels_only ss /\ length ss = length l /\
     label_to_index ss ss_id_dict = Ok (array1d l)) /\
  (~ Forall (fun x => 0 <= x <= 2)%Z l ->
   ints_to_symbols1d (array1d l) pos_ss_dict = Throw (Builtin KeyError)).
Proof.
  split.
  - intros Hl. destruct (symbols_in_range l Hl) as (ss & Hss & Hlab).
    exists ss. rewrite ints_to_symbols1d_flat, Hss.
    pose proof (label_codes_symbols l ss Hss) as Hcodes.
    split; [reflexivity|]. split; [exact Hlab|].
    destruct (label_codes_ok ss Hlab) as (codes & Hc & Hlen).
    rewrite Hcodes in Hc. injection Hc as <-.
    split; [now symmetry|]. unfold label_to_index. now rewrite Hcodes.
  - intros Hl. rewrite ints_to_symbols1d_flat.
    now rewrite (symbols_out_of_range l Hl).
Qed.

Lemma label_to_index_ints_to_symbols1d_witness :
  Forall (fun x => 0 <= x <= 2)%Z [0; 2; 1]%Z /\
  exists ss,
    ints_to_symbols1d (array1d [0; 2; 1]%Z) pos_ss_dict = Return ss /\
    label_to_index ss ss_id_dict = Ok (array1d [0; 2; 1]%Z).
Proof.
  assert (H : Forall (fun x => 0 <= x <= 2)%Z [0; 2; 1]%Z)
    by (repeat constructor; lia).
  split; [exact H|].
  destruct (proj1 (label_to_index_ints_to_symbols1d [0; 2; 1]%Z) H)
    as (ss & H1 & _ & _ & H2).
  exists ss. split; [exact H1 | exact H2].
Defined.

(** X3. The rank guard of [ints_to_symbols1d]: a flat array is never
    squeezed, so a flat array of one element is decoded; a batch-wrapped
    array of shape (1, N) is decoded like the flat one when N is not 1, and
    for N = 1 the loop squeezes axis 0 and then asks for axis 1 of what is
    now a one-dimensional array, which raises (NumPy's AxisError, a
    ValueError). *)
Theorem ints_to_symbols1d_batch_wrapped (l : list Z) (map_dict : list (Z * ascii)) :
  (length l <> 1%nat ->
   ints_to_symbols1d (batch_wrapped l) map_dict =
   ints_to_symbols1d (array1d l) map_dict) /\
  (length l = 1%nat ->
   ints_to_symbols1d (batch_wrapped l) map_dict = Throw (Builtin ValueError) /\
   ints_to_symbols1d (array1d l) map_dict = lift (symbols l map_dict)).
Proof.
  split.
  - intros Hn. unfold ints_to_symbols1d, batch_wrapped, array1d. simpl.
    unfold squeeze. simpl.
    destruct (Nat.eqb_spec (length l) 1); [contradiction | reflexivity].
  - intros Hn. split; [|reflexivity].
    unfold ints_to_symbols1d, batch_wrapped. simpl. rewrite Hn. reflexivity.
Qed.

Lemma ints_to_symbols1d_batch_wrapped_witness :
  length [0; 1]%Z <> 1%nat /\
  ints_to_symbols1d (batch_wrapped [0; 1]%Z) pos_ss_dict =
  ints_to_symbols1d (array1d [0; 1]%Z) pos_ss_dict.
Proof.
  split; [discriminate|].
  apply (proj1 (ints_to_symbols1d_batch_wrapped [0; 1]%Z pos_ss_dict)).
  discriminate.
Defined.

(** ** [q3_acc] on batch-wrapped arrays, with swapped or empty arguments *)

Lemma q3_acc_squeezed (legacy : bool) (n m : nat) (real pred : list Z)
    (sr sp : list nat) :
  (sr = [n] /\ n <> 1%nat) \/ sr = [1%nat; n] ->
  (sp = [m] /\ m <> 1%nat) \/ sp = [1%nat; m] ->
  q3_acc legacy (mkArray sr real) (mkArray sp pred) =
  (eq <- np_equal legacy (mkArray [n] real) (mkArray [m] pred) ;;
   Ok (true_divide (np_sum eq) n)).
Proof.
  intros Hr Hp. unfold q3_acc, shape0, item, squeeze0.
  destruct Hr as [[-> Hn]| ->], Hp as [[-> Hm]| ->]; cbn [shape data nth_error bind].
  - destruct (Nat.eqb_spec n 1); [contradiction|].
    destruct (Nat.eqb_spec m 1); [contradiction|]. reflexivity.
  - destruct (Nat.eqb_spec n 1); [contradiction|]. reflexivity.
  - destruct (Nat.eqb_spec m 1); [contradiction|]. reflexivity.
  - reflexivity.
Qed.

Lemma q3_acc_wrapped (legacy : bool) (real pred : list Z) :
  length real = length pred -> (1 <= length real)%nat ->
  q3_acc legacy (batch_wrapped real) (batch_wrapped pred) =
  Ok (Finite (inject_Z (matches real pred) / inject_Z (len real))).
Proof.
  intros Hlen Hn. unfold batch_wrapped.
  rewrite (q3_acc_squeezed legacy (length real) (length pred)) by (now right).
  rewrite <- Hlen, (np_equal_flat legacy (length real) real pred eq_refl)
    by now symmetry.
  cbn [bind np_sum]. now rewrite true_divide_pos by lia.
Qed.

(** X4. On batch-wrapped arrays of shape (1, N) and the same N >= 1,
    [q3_acc] returns the fraction of matching positions, N = 1 included: a
    value between 0 and 1, equal to 1 exactly for identical sequences and
    to 0 exactly when no position matches. *)
Theorem q3_acc_batch_wrapped_bounds (legacy : bool) (real pred : list Z) :
  length real = length pred -> real <> [] ->
  exists acc,
    q3_acc legacy (batch_wrapped real) (batch_wrapped pred) = Ok (Finite acc) /\
    acc == inject_Z (matches real pred) / inject_Z (len real) /\
    0 <= acc <= 1 /\
    (acc == 1 <-> real = pred) /\
    (acc == 0 <-> all_differ real pred).
Proof.
  intros Hlen Hne.
  assert (Hn : (1 <= length real)%nat) by (destruct real; [congruence | simpl; lia]).
  assert (Hpos : (0 < len real)%Z) by (unfold len; lia).
  exists (inject_Z (matches real pred) / inject_Z (len real)).
  split; [now apply q3_acc_wrapped|]. split; [reflexivity|]. split; [|split].
  - apply ratio_bounds; [|exact Hpos].
    split; [apply matches_nonneg | apply matches_le].
  - rewrite (ratio_one _ _ Hpos). now apply matches_all.
  - rewrite (ratio_zero _ _ Hpos). apply matches_none.
Qed.

Lemma q3_acc_batch_wrapped_bounds_witness :
  length [1%Z] = length [1%Z] /\ [1%Z] <> [] /\
  exists acc,
    q3_acc true (batch_wrapped [1%Z]) (batch_wrapped [1%Z]) = Ok (Finite acc) /\
    acc == 1.
Proof.
  split; [reflexivity|]. split; [discriminate|].
  destruct (q3_acc_batch_wrapped_bounds true [1%Z] [1%Z])
    as (acc & H1 & _ & _ & H2 & _).
  - reflexivity.
  - discriminate.
  - exists acc. split; [exact H1 | now apply H2].
Defined.

(** X5. With two or more positions the leading axis makes no difference:
    whether the reference, the prediction or both are batch-wrapped,
    [q3_acc] returns what it returns on the two flat arrays. *)
Theorem q3_acc_wrapping_invariant (legacy : bool) (real pred : list Z) :
  length real = length pred -> (2 <= length real)%nat ->
  q3_acc legacy (batch_wrapped real) (array1d pred) =
    q3_acc legacy (array1d real) (array1d pred) /\
  q3_acc legacy (array1d real) (batch_wrapped pred) =
    q3_acc legacy (array1d real) (array1d pred) /\
  q3_acc legacy (batch_wrapped real) (batch_wrapped pred) =
    q3_acc legacy (array1d real) (array1d pred).
Proof.
  intros Hlen Hn. unfold batch_wrapped, array1d.
  rewrite !(q3_acc_squeezed legacy (length real) (length pred));
    try (now right); try (left; split; [reflexivity | lia]).
  repeat split.
Qed.

Lemma q3_acc_wrapping_invariant_witness :
  length [0; 1; 1]%Z = length [0; 1; 2]%Z /\ (2 <= length [0; 1; 1]%Z)%nat /\
  q3_acc true (array1d [0; 1; 1]%Z) (batch_wrapped [0; 1; 2]%Z) =
  q3_acc true (array1d [0; 1; 1]%Z) (array1d [0; 1; 2]%Z).
Proof.
  split; [reflexivity|]. split; [simpl; lia|].
  apply (q3_acc_wrapping_invariant true [0; 1; 1]%Z [0; 1; 2]%Z);
    [reflexivity | simpl; lia].
Defined.

Lemma eq_flags_sym (a b : list Z) : eq_flags a b = eq_flags b a.
Proof.
  unfold eq_flags. revert b.
  induction a as [|x a IH]; intros [|y b]; simpl; try reflexivity.
  now rewrite IH, Z.eqb_sym.
Qed.

(** X6. The order of the two arguments does not matter: on flat arrays of
    the same length [q3_acc real pred] and [q3_acc pred real] are the same
    outcome (the same score, or the same error for length 1). *)
Theorem q3_acc_symmetric (legacy : bool) (a b : list Z) :
  length a = length b ->
  q3_acc legacy (array1d a) (array1d b) = q3_acc legacy (array1d b) (array1d a).
Proof.
  intros Hlen.
  destruct a as [|x [|x' a]]; destruct b as [|y [|y' b]]; try discriminate.
  - reflexivity.
  - now rewrite !q3_acc_singletons.
  - rewrite !q3_acc_flat by (simpl in *; lia).
    unfold matches, len. now rewrite eq_flags_sym, Hlen.
Qed.

Lemma q3_acc_symmetric_witness :
  length [0; 1; 2]%Z = length [0; 2; 2]%Z /\
  q3_acc true (array1d [0; 1; 2]%Z) (array1d [0; 2; 2]%Z) =
  q3_acc true (array1d [0; 2; 2]%Z) (array1d [0; 1; 2]%Z).
Proof.
  split; [reflexivity|].
  apply (q3_acc_symmetric true [0; 1; 2]%Z [0; 2; 2]%Z). reflexivity.
Defined.

(** X7. An empty flat reference never makes [q3_acc] raise a division
    error: the quotient of the NumPy integer 0 by 0 is NaN.  That is the
    outcome for every flat prediction where [==] answers False on shapes it
    cannot broadcast; where [==] raises, it is the outcome for a prediction
    of at most one element, and NumPy's [ValueError] otherwise. *)
Theorem q3_acc_empty_reference (legacy : bool) (pred : list Z) :
  q3_acc legacy (array1d []) (array1d pred) =
  if legacy || (length pred <=? 1)%nat then Ok NaN else Raise ValueError.
Proof.
  destruct pred as [|y [|y' pred]].
  - destruct legacy; reflexivity.
  - destruct legacy; reflexivity.
  - destruct legacy; reflexivity.
Qed.

(** ** Errors of [get_segments] and [segment_of_overlap] *)

Lemma dict_append_unknown (c : ascii) (sg : Segment) (e h o : list Segment) :
  is_label c = false ->
  dict_append c sg [("E"%char, e); ("H"%char, h); ("-"%char, o)] = Raise KeyError.
Proof.
  unfold is_label. intros H.
  apply orb_false_iff in H as [H H3]. apply orb_false_iff in H as [H1 H2].
  simpl. now rewrite H1, H2, H3.
Qed.

Lemma fill_segment_types_unknown (runs : list str) (idxs : list (list nat)) :
  length idxs = length runs ->
  ~ In [] runs ->
  forall n st e h o, (st + n = length runs)%nat ->
  (exists c rest, In (c :: rest) (skipn st runs) /\ is_label c = false) ->
  fill_segment_types runs idxs (seq st n)
    [("E"%char, e); ("H"%char, h); ("-"%char, o)] = Raise KeyError.
Proof.
  intros Hlen Hne n.
  induction n as [|n IH]; intros st e h o Hst (c & rest & Hin & Hc).
  - rewrite skipn_all2 in Hin by lia. contradiction.
  - destruct (item_lt runs st) as [run Hrun]; [lia|].
    destruct (item_lt idxs st) as [idx Hidx]; [lia|].
    rewrite (skipn_nth_error _ _ _ Hrun) in Hin.
    simpl. unfold item at 1. rewrite Hrun. simpl.
    destruct run as [|ch tl]; [elim Hne; now apply (nth_error_In _ _ Hrun)|].
    unfold item at 1. simpl.
    unfold item at 1. rewrite Hidx. simpl.
    destruct (is_label ch) eqn:Hch.
    + assert (Hin' : In (c :: rest) (skipn (S st) runs)).
      { destruct Hin as [Heq|Hin]; [|exact Hin].
        injection Heq as -> _. congruence. }
      assert (Hex : exists c rest,
                 In (c :: rest) (skipn (S st) runs) /\ is_label c = false)
        by (exists c, rest; now split).
      destruct (is_label_cases _ Hch) as [ -> | [ -> | -> ] ]; simpl;
        now apply IH; [lia|].
    + unfold is_label in Hch.
      apply orb_false_iff in Hch as [Hch H3]. apply orb_false_iff in Hch as [H1 H2].
      now rewrite H1, H2, H3.
Qed.

Lemma unknown_label_run (x : str) :
  forallb is_label x = false ->
  exists c rest, In (c :: rest) (groupby x) /\ is_label c = false.
Proof.
  intros H.
  assert (Hex : exists c, In c x /\ is_label c = false).
  { induction x as [|c x IH]; [discriminate|]. simpl in H.
    apply andb_false_iff in H as [H|H].
    - exists c. split; [now left | exact H].
    - destruct (IH H) as (c' & Hin & Hc'). exists c'. split; [now right | exact Hc']. }
  destruct Hex as (c & Hin & Hc).
  rewrite <- (groupby_concat x) in Hin. apply in_concat in Hin as (run & Hrun & Hcr).
  destruct (groupby_constant_runs x run Hrun) as (c' & n & ->).
  apply repeat_spec in Hcr. subst c'.
  exists c, (repeat c n). split; [exact Hrun | exact Hc].
Qed.

Lemma get_segments_unknown (x : str) :
  forallb is_label x = false -> get_segments x = Raise KeyError.
Proof.
  intros H. unfold get_segments, empty_segment_types.
  apply fill_segment_types_unknown.
  - apply index_ranges_length.
  - apply groupby_no_empty_run.
  - reflexivity.
  - simpl. now apply unknown_label_run.
Qed.

(** X8. [get_segments] raises exactly when the string holds a character
    other than E, H and -, and the error is then [KeyError]: the run that
    starts with the unknown character has no list to be filed under. *)
Theorem get_segments_key_error (x : str) :
  (get_segments x = Raise KeyError <-> ~ labels_only x) /\
  (forall e, get_segments x = Raise e -> e = KeyError).
Proof.
  unfold labels_only.
  destruct (forallb is_label x) eqn:Hx.
  - pose proof (get_segments_spec x Hx) as Hs. split.
    + split; [rewrite Hs; discriminate | intros H; now elim H].
    + intros e He. rewrite Hs in He. discriminate.
  - pose proof (get_segments_unknown x Hx) as Hs. split.
    + split; [discriminate | intros _; exact Hs].
    + intros e He. rewrite Hs in He. now injection He as <-.
Qed.

Lemma get_segments_key_error_witness :
  get_segments (lit "HHCE") = Raise KeyError /\ ~ labels_only (lit "HHCE").
Proof.
  split; [reflexivity|].
  apply (proj1 (proj1 (get_segments_key_error (lit "HHCE")))). reflexivity.
Defined.

Ltac outcome_cases :=
  unfold not; repeat split; intros;
  repeat match goal with
         | H : _ /\ _ |- _ => destruct H
         | H : exists _, _ |- _ => destruct H
         end;
  try discriminate; try congruence; try tauto; eauto.

(** X9. The three outcomes of [segment_of_overlap]: [KeyError] exactly
    when one of the two strings holds a character other than E, H and -
    (an empty reference does not matter then); otherwise
    [ZeroDivisionError] exactly when the reference is empty, whatever the
    prediction; otherwise a score. *)
Theorem segment_of_overlap_outcomes (ss_ref_str ss_pred_str : str) :
  (segment_of_overlap ss_ref_str ss_pred_str = Raise KeyError <->
   ~ (labels_only ss_ref_str /\ labels_only ss_pred_str)) /\
  (segment_of_overlap ss_ref_str ss_pred_str = Raise ZeroDivisionError <->
   labels_only ss_ref_str /\ labels_only ss_pred_str /\ ss_ref_str = []) /\
  ((exists sov, segment_of_overlap ss_ref_str ss_pred_str = Ok sov) <->
   labels_only ss_ref_str /\ labels_only ss_pred_str /\ ss_ref_str <> []).
Proof.
  unfold labels_only.
  destruct (forallb is_label ss_ref_str) eqn:Href.
  - destruct (forallb is_label ss_pred_str) eqn:Hpred.
    + destruct (sov_totals_total _ _ Href Hpred) as (v & Hv).
      unfold segment_of_overlap. rewrite Hv. cbn [bind].
      destruct ss_ref_str as [|c x].
      * simpl. outcome_cases.
      * destruct (Z.eqb_spec (Z.of_nat (length (c :: x))) 0) as [H0|_];
          [simpl in H0; lia|].
        outcome_cases.
    + assert (Hs : segment_of_overlap ss_ref_str ss_pred_str = Raise KeyError).
      { unfold segment_of_overlap, sov_totals.
        rewrite (get_segments_spec _ Href), (get_segments_unknown _ Hpred).
        reflexivity. }
      rewrite Hs. outcome_cases.
  - assert (Hs : segment_of_overlap ss_ref_str ss_pred_str = Raise KeyError).
    { unfold segment_of_overlap, sov_totals.
      rewrite (get_segments_unknown _ Href). reflexivity. }
    rewrite Hs. outcome_cases.
Qed.

Lemma segment_of_overlap_outcomes_witness :
  (labels_only (lit "") /\ labels_only (lit "HHE") /\ lit "" = []) /\
  segment_of_overlap (lit "") (lit "HHE") = Raise ZeroDivisionError.
Proof.
  assert (H : labels_only (lit "") /\ labels_only (lit "HHE") /\ lit "" = [])
    by (repeat split; reflexivity).
  split; [exact H|].
  exact (proj2 (proj1 (proj2 (segment_of_overlap_outcomes (lit "") (lit "HHE")))) H).
Defined.

(** ** What the segments say about the string *)

Lemma segments_from_split (runs : list str) (st : nat) (sg : Segment) :
  In sg (segments_from st runs) ->
  exists before after,
    runs = before ++ seg_str sg :: after /\
    seg_idx sg = seq (st + length (concat before)) (length (seg_str sg)).
Proof.
  revert st. induction runs as [|r runs IH]; intros st.
  - intros [].
  - rewrite segments_from_cons. intros [<-|H].
    + exists [], runs. simpl. split; [reflexivity | now rewrite Nat.add_0_r].
    + destruct (IH _ H) as (before & after & Hruns & Hidx).
      exists (r :: before), after. simpl. split.
      * now rewrite Hruns at 1.
      * rewrite Hidx. f_equal. rewrite length_app. lia.
Qed.

Lemma nth_error_seq_inv (start len n p : nat) :
  nth_error (seq start len) n = Some p -> p = (start + n)%nat /\ (n < len)%nat.
Proof.
  intros H.
  assert (Hn : (n < len)%nat).
  { rewrite <- (length_seq len start). apply nth_error_Some. congruence. }
  split; [|exact Hn].
  apply (nth_error_nth _ _ 0%nat) in H. rewrite seq_nth in H by exact Hn. lia.
Qed.

Lemma nth_error_middle {A : Type} (l1 l2 l3 : list A) (n : nat) :
  (n < length l2)%nat ->
  nth_error (l1 ++ l2 ++ l3) (length l1 + n) = nth_error l2 n.
Proof.
  intros Hn. rewrite nth_error_app2 by lia.
  replace (length l1 + n - length l1)%nat with n by lia.
  now apply nth_error_app1.
Qed.

Lemma segment_content (x : str) (sg : Segment) :
  In sg (segments_of x) ->
  forall n p, nth_error (seg_idx sg) n = Some p ->
  nth_error x p = nth_error (seg_str sg) n.
Proof.
  intros Hsg n p Hn.
  apply segments_from_split in Hsg as (before & after & Hruns & Hidx).
  rewrite Hidx in Hn. apply nth_error_seq_inv in Hn as [-> Hlt].
  rewrite <- (groupby_concat x), Hruns, concat_app. simpl.
  now apply nth_error_middle.
Qed.

Lemma starts_with_constant (x : str) (k : ascii) (sg : Segment) :
  In sg (segments_of x) -> starts_with k sg = true ->
  exists m, seg_str sg = repeat k (S m).
Proof.
  intros Hsg Hk. apply segments_from_shape in Hsg as [Hrun _].
  destruct (groupby_constant_runs x _ Hrun) as (c & m & Hc).
  unfold starts_with in Hk. rewrite Hc in Hk. simpl in Hk.
  apply Ascii.eqb_eq in Hk. subst c. now exists m.
Qed.

(** X10. The segments say what the string holds: at the n-th position of a
    segment returned by [get_segments] the string has the n-th character of
    the segment's run, and that character is the label the segment is filed
    under. *)
Theorem get_segments_content (x : str) (d : seg_dict) (k : ascii)
    (segs : list Segment) (sg : Segment) (n p : nat) :
  labels_only x -> get_segments x = Ok d ->
  In (k, segs) d -> In sg segs ->
  nth_error (seg_idx sg) n = Some p ->
  nth_error x p = nth_error (seg_str sg) n /\ nth_error x p = Some k.
Proof.
  intros Hx Hd Hin Hsg Hn.
  rewrite (get_segments_spec x Hx) in Hd. injection Hd as <-.
  apply grouped_items in Hin as [_ ->].
  apply filter_In in Hsg as [Hsg Hk].
  pose proof (segment_content x sg Hsg n p Hn) as Hc.
  split; [exact Hc|]. rewrite Hc.
  destruct (starts_with_constant x k sg Hsg Hk) as (m & Hm).
  pose proof (segments_from_shape _ _ _ Hsg) as [_ [start Hidx]].
  rewrite Hidx in Hn. apply nth_error_seq_inv in Hn as [_ Hlt].
  rewrite Hm in *. rewrite repeat_length in Hlt.
  apply nth_error_repeat. exact Hlt.
Qed.

Lemma get_segments_content_witness :
  (labels_only (lit "HHEE-HH") /\
   get_segments (lit "HHEE-HH") = Ok (grouped (segments_of (lit "HHEE-HH"))) /\
   In ("E"%char, [mkSegment (lit "EE") [2; 3]%nat])
      (grouped (segments_of (lit "HHEE-HH"))) /\
   In (mkSegment (lit "EE") [2; 3]%nat) [mkSegment (lit "EE") [2; 3]%nat] /\
   nth_error [2; 3]%nat 1 = Some 3%nat) /\
  nth_error (lit "HHEE-HH") 3 = Some "E"%char.
Proof.
  assert (H1 : labels_only (lit "HHEE-HH")) by reflexivity.
  assert (H2 : get_segments (lit "HHEE-HH") =
               Ok (grouped (segments_of (lit "HHEE-HH")))) by reflexivity.
  assert (H3 : In ("E"%char, [mkSegment (lit "EE") [2; 3]%nat])
                  (grouped (segments_of (lit "HHEE-HH")))) by (now left).
  assert (H4 : In (mkSegment (lit "EE") [2; 3]%nat)
                  [mkSegment (lit "EE") [2; 3]%nat]) by (now left).
  assert (H5 : nth_error (seg_idx (mkSegment (lit "EE") [2; 3]%nat)) 1 =
               Some 3%nat) by reflexivity.
  split; [repeat split; assumption|].
  exact (proj2 (get_segments_content _ _ _ _ _ _ _ H1 H2 H3 H4 H5)).
Defined.

Lemma adjacent_differ_tail (r : str) (runs : list str) :
  adjacent_differ (r :: runs) -> r <> [] -> ~ In [] runs -> adjacent_differ runs.
Proof.
  intros H Hr Hne.
  destruct r as [|c r]; [congruence|].
  destruct runs as [|[|d r'] runs]; simpl in *; try exact I; tauto.
Qed.

Lemma adjacent_differ_app (before rest : list str) :
  adjacent_differ (before ++ rest) -> ~ In [] (before ++ rest) ->
  adjacent_differ rest.
Proof.
  induction before as [|b before IH]; intros H Hne; [exact H|].
  apply IH.
  - apply (adjacent_differ_tail b); [exact H | |].
    + intros ->. apply Hne. now left.
    + intros Hin. apply Hne. now right.
  - intros Hin. apply Hne. now right.
Qed.

(** X11. The segments are maximal: a position next to a segment returned
    by [get_segments], but outside it, does not carry the segment's label
    (it lies beyond the string or carries another label). *)
Theorem get_segments_maximal (x : str) (d : seg_dict) (k : ascii)
    (segs : list Segment) (sg : Segment) (p q : nat) :
  labels_only x -> get_segments x = Ok d ->
  In (k, segs) d -> In sg segs ->
  In p (seg_idx sg) -> ~ In q (seg_idx sg) -> (q = S p \/ p = S q) ->
  nth_error x q <> Some k.
Proof.
  intros Hx Hd Hin Hsg Hp Hq Hadj.
  rewrite (get_segments_spec x Hx) in Hd. injection Hd as <-.
  apply grouped_items in Hin as [_ ->].
  apply filter_In in Hsg as [Hsg Hk].
  destruct (starts_with_constant x k sg Hsg Hk) as (m & Hm).
  apply segments_from_split in Hsg as (before & after & Hruns & Hidx).
  pose proof (groupby_no_empty_run x) as Hne.
  pose proof (groupby_maximal x) as Hmax.
  rewrite Hidx in Hp, Hq. rewrite in_seq in Hp, Hq. simpl in Hp, Hq.
  rewrite <- (groupby_concat x). rewrite Hruns in *.
  rewrite concat_app. simpl concat. rewrite Hm in *.
  rewrite repeat_length in Hp, Hq.
  destruct Hadj as [->| ->].
  - (* the position after the segment *)
    assert (Hq' : S p = (length (concat before) + length (repeat k (S m)))%nat)
      by (rewrite repeat_length; lia).
    rewrite Hq', app_assoc, nth_error_app2 by (rewrite length_app; lia).
    rewrite length_app, Nat.sub_diag.
    apply adjacent_differ_app in Hmax; [|exact Hne].
    destruct after as [|[|dn rn] after]; simpl in *.
    + discriminate.
    + elim Hne. apply in_or_app. right. right. now left.
    + intros Heq. injection Heq as ->. now destruct Hmax as [Hmax _].
  - (* the position before the segment *)
    assert (Hs : S q = length (concat before)) by lia.
    destruct (exists_last (l := before)) as (b' & prev & ->).
    { intros ->. simpl in Hs. discriminate. }
    rewrite <- app_assoc in Hmax, Hne. simpl in Hmax, Hne.
    assert (Hprev : In prev (groupby x)).
    { rewrite Hruns, <- app_assoc. apply in_or_app. right. now left. }
    destruct (groupby_constant_runs x prev Hprev) as (c & mp & ->).
    apply adjacent_differ_app in Hmax; [|exact Hne].
    simpl in Hmax. destruct Hmax as [Hck _].
    rewrite concat_app in *. simpl concat in *. rewrite app_nil_r in *.
    rewrite length_app in Hs. simpl in Hs. rewrite repeat_length in Hs.
    replace q with (length (concat b') + mp)%nat by lia.
    change (c :: repeat c mp) with (repeat c (S mp)).
    rewrite <- app_assoc, nth_error_middle by (rewrite repeat_length; lia).
    rewrite nth_error_repeat by lia. congruence.
Qed.

Lemma get_segments_maximal_witness :
  (labels_only (lit "HHEE-HH") /\
   get_segments (lit "HHEE-HH") = Ok (grouped (segments_of (lit "HHEE-HH"))) /\
   In ("E"%char, [mkSegment (lit "EE") [2; 3]%nat])
      (grouped (segments_of (lit "HHEE-HH"))) /\
   In (mkSegment (lit "EE") [2; 3]%nat) [mkSegment (lit "EE") [2; 3]%nat] /\
   In 3%nat [2; 3]%nat /\ ~ In 4%nat [2; 3]%nat /\ (4 = 4 \/ 3 = 5)%nat) /\
  nth_error (lit "HHEE-HH") 4 <> Some "E"%char.
Proof.
  assert (H1 : labels_only (lit "HHEE-HH")) by reflexivity.
  assert (H2 : get_segments (lit "HHEE-HH") =
               Ok (grouped (segments_of (lit "HHEE-HH")))) by reflexivity.
  assert (H3 : In ("E"%char, [mkSegment (lit "EE") [2; 3]%nat])
                  (grouped (segments_of (lit "HHEE-HH")))) by (now left).
  assert (H4 : In (mkSegment (lit "EE") [2; 3]%nat)
                  [mkSegment (lit "EE") [2; 3]%nat]) by (now left).
  assert (H5 : In 3%nat (seg_idx (mkSegment (lit "EE") [2; 3]%nat)))
    by (simpl; tauto).
  assert (H6 : ~ In 4%nat (seg_idx (mkSegment (lit "EE") [2; 3]%nat)))
    by (simpl; intros [H|[H|[]]]; discriminate).
  assert (H7 : (4 = 4 \/ 3 = 5)%nat) by (now left).
  split; [repeat split; assumption|].
  exact (get_segments_maximal _ _ _ _ _ _ _ H1 H2 H3 H4 H5 H6 H7).
Defined.

(** ** The score as a sum over pairs of segments *)

Lemma pred_loop_sum (i : Segment) (preds : list Segment) (acc : Q) :
  pred_loop i preds acc == acc + pair_sum i preds.
Proof.
  revert acc. induction preds as [|j preds IH]; intros acc.
  - simpl. ring.
  - unfold pred_loop in *. simpl. rewrite IH.
    destruct (0 <? minov i j)%Z; ring.
Qed.

Lemma ref_loop_sum (k : ascii) (ss_pred : seg_dict) (preds : list Segment) :
  dict_get k ss_pred = Ok preds ->
  forall refs subsum_k N_k,
  exists subsum_k',
    ref_loop k refs ss_pred (subsum_k, N_k) =
      Ok (subsum_k', (N_k + total_length refs)%Z) /\
    subsum_k' == subsum_k + group_sum refs preds.
Proof.
  intros Hget refs.
  induction refs as [|i refs IH]; intros subsum_k N_k.
  - exists subsum_k. simpl. split; [now rewrite Z.add_0_r | ring].
  - simpl. rewrite Hget. simpl.
    destruct (IH (pred_loop i preds subsum_k) (N_k + l_s i)%Z) as (q & Hq & Heq).
    exists q. rewrite total_length_cons, Hq. split.
    + now rewrite Z.add_assoc.
    + rewrite Heq, pred_loop_sum. ring.
Qed.

Lemma sov_totals_sum (ss_ref_str ss_pred_str : str) :
  labels_only ss_ref_str -> labels_only ss_pred_str ->
  exists val_total,
    sov_totals ss_ref_str ss_pred_str = Ok (val_total, len ss_ref_str) /\
    val_total == label_sum "E" ss_ref_str ss_pred_str
               + label_sum "H" ss_ref_str ss_pred_str
               + label_sum "-" ss_ref_str ss_pred_str.
Proof.
  intros Href Hpred.
  destruct (sov_totals_total _ _ Href Hpred) as (v & Hv).
  exists v. split; [exact Hv|].
  unfold sov_totals in Hv.
  rewrite (get_segments_spec _ Href), (get_segments_spec _ Hpred) in Hv.
  cbn [bind] in Hv. unfold grouped at 1 in Hv. cbn [key_loop] in Hv.
  set (P := grouped (segments_of ss_pred_str)) in *.
  destruct (ref_loop_sum "E" P (by_label "E" (segments_of ss_pred_str)) eq_refl
              (by_label "E" (segments_of ss_ref_str)) 0 0%Z) as (qe & He & Hqe).
  rewrite He in Hv. cbn [bind] in Hv.
  destruct (ref_loop_sum "H" P (by_label "H" (segments_of ss_pred_str)) eq_refl
              (by_label "H" (segments_of ss_ref_str)) 0 0%Z) as (qh & Hh & Hqh).
  rewrite Hh in Hv. cbn [bind] in Hv.
  destruct (ref_loop_sum "-" P (by_label "-" (segments_of ss_pred_str)) eq_refl
              (by_label "-" (segments_of ss_ref_str)) 0 0%Z) as (qc & Hc & Hqc).
  rewrite Hc in Hv. cbn [bind] in Hv.
  injection Hv as Hv _. rewrite <- Hv, Hqe, Hqh, Hqc.
  unfold label_sum. ring.
Qed.

Lemma maxov_ge_l_s (i j : Segment) :
  NoDup (seg_idx i) -> (l_s i <= maxov i j)%Z.
Proof.
  intros H. unfold l_s, maxov, len. apply inj_le.
  apply NoDup_incl_length; [exact H|].
  intros x Hx. apply union1d_In. now left.
Qed.

Lemma minov_le_l_s (i j : Segment) : (minov i j <= l_s i)%Z.
Proof.
  unfold l_s, minov, len. apply inj_le.
  apply NoDup_incl_length; [apply intersect1d_NoDup|].
  intros x Hx. now apply intersect1d_In in Hx.
Qed.

Lemma delta_le_minov (i j : Segment) : (delta i j <= minov i j)%Z.
Proof. unfold delta. lia. Qed.

Lemma value_bounds (i j : Segment) :
  NoDup (seg_idx i) -> (0 < minov i j)%Z ->
  0 < value i j /\ value i j <= 2 * inject_Z (minov i j).
Proof.
  intros Hi Hov.
  pose proof (maxov_ge_l_s i j Hi) as HM.
  pose proof (minov_le_l_s i j) as Hm.
  pose proof (delta_le_minov i j) as Hd.
  pose proof (delta_nonneg i j) as Hd0.
  assert (HMq : 0 < inject_Z (maxov i j)) by (rewrite <- (Zlt_Qlt 0); lia).
  unfold value. split.
  - apply Qlt_shift_div_l; [exact HMq|].
    rewrite Qmult_0_l, <- (Zlt_Qlt 0). nia.
  - apply Qle_shift_div_r; [exact HMq|].
    change 2 with (inject_Z 2). rewrite <- !inject_Z_mult, <- Zle_Qle. nia.
Qed.

Lemma overlap_total_nonneg (i : Segment) (preds : list Segment) :
  (0 <= overlap_total i preds)%Z.
Proof.
  induction preds as [|j preds IH]; simpl; [lia|].
  pose proof (minov_nonneg i j). lia.
Qed.

Lemma pair_sum_bounds (i : Segment) (preds : list Segment) :
  NoDup (seg_idx i) ->
  0 <= pair_sum i preds /\
  pair_sum i preds <= 2 * inject_Z (overlap_total i preds).
Proof.
  intros Hi. induction preds as [|j preds [IH0 IH2]]; simpl.
  - split; [apply Qle_refl | discriminate].
  - rewrite inject_Z_plus.
    destruct (Z.ltb_spec 0 (minov i j)) as [Hov|Hov].
    + destruct (value_bounds i j Hi Hov) as [Hv0 Hv2]. split; lra.
    + pose proof (minov_nonneg i j) as Hm.
      replace (minov i j) with 0%Z by lia.
      change (inject_Z 0) with 0. split; lra.
Qed.

Lemma filter_length_disjoint {A : Type} (f g : A -> bool) (l : list A) :
  (forall x, In x l -> f x = true -> g x = false) ->
  length (filter (fun x => f x || g x) l) =
  (length (filter f l) + length (filter g l))%nat.
Proof.
  induction l as [|x l IH]; intros H; [reflexivity|].
  assert (IH' := IH (fun y Hy => H y (or_intror Hy))).
  cbn [filter]. destruct (f x) eqn:Hf.
  - rewrite (H x (or_introl eq_refl) Hf). cbn [orb length]. rewrite IH'. lia.
  - destruct (g x); cbn [orb length]; rewrite IH'; lia.
Qed.

Lemma mem_app (x : nat) (a b : list nat) : mem x (a ++ b) = mem x a || mem x b.
Proof. unfold mem. apply existsb_app. Qed.

Lemma overlap_total_filter (i : Segment) (preds : list Segment) :
  NoDup (positions preds) ->
  overlap_total i preds =
  len (filter (fun x => mem x (positions preds)) (np_unique (seg_idx i))).
Proof.
  induction preds as [|j preds IH]; intros Hnd.
  - simpl. unfold len.
    replace (filter _ _) with (@nil nat); [reflexivity|].
    symmetry. induction (np_unique (seg_idx i)); [reflexivity | assumption].
  - rewrite positions_cons in Hnd. simpl overlap_total.
    rewrite IH by (now apply NoDup_app_remove_l in Hnd).
    rewrite positions_cons. unfold minov, intersect1d, len.
    rewrite <- Nat2Z.inj_add. f_equal.
    rewrite <- filter_length_disjoint.
    + f_equal. apply filter_ext. intros x. now rewrite mem_app.
    + intros x _ Hx. apply mem_In in Hx.
      destruct (mem x (positions preds)) eqn:Hm; [|reflexivity].
      apply mem_In in Hm. now elim (NoDup_app_disjoint _ _ Hnd x Hx).
Qed.

Lemma overlap_total_le (i : Segment) (preds : list Segment) :
  NoDup (seg_idx i) -> NoDup (positions preds) ->
  (overlap_total i preds <= l_s i)%Z.
Proof.
  intros Hi Hnd. rewrite overlap_total_filter by exact Hnd.
  unfold l_s, len. apply inj_le.
  rewrite <- (np_unique_length _ Hi). apply filter_length_le.
Qed.

Lemma group_sum_bounds (refs preds : list Segment) :
  (forall i, In i refs -> NoDup (seg_idx i)) -> NoDup (positions preds) ->
  0 <= group_sum refs preds /\
  group_sum refs preds <= 2 * inject_Z (total_length refs).
Proof.
  intros Hrefs Hnd. induction refs as [|i refs IH].
  - simpl. split; [apply Qle_refl | discriminate].
  - destruct IH as [IH0 IH2]; [intros j Hj; apply Hrefs; now right|].
    pose proof (Hrefs i (or_introl eq_refl)) as Hi.
    destruct (pair_sum_bounds i preds Hi) as [Hp0 Hp2].
    pose proof (overlap_total_le i preds Hi Hnd) as Hle.
    rewrite Zle_Qle in Hle.
    simpl. rewrite total_length_cons, inject_Z_plus. split; lra.
Qed.

Lemma label_sum_bounds (k : ascii) (ss_ref_str ss_pred_str : str) :
  0 <= label_sum k ss_ref_str ss_pred_str /\
  label_sum k ss_ref_str ss_pred_str <=
  2 * inject_Z (total_length (by_label k (segments_of ss_ref_str))).
Proof.
  apply group_sum_bounds.
  - intros i Hi.
    apply (separated_member (by_label k (segments_of ss_ref_str))); [|exact Hi].
    apply StronglySorted_lt_NoDup, by_label_sorted.
  - apply StronglySorted_lt_NoDup, by_label_sorted.
Qed.

(** X12. The score is never negative and never exceeds 2: each overlapping
    pair adds a positive value of at most twice its overlap, and the
    overlaps of one reference segment with the predicted segments of its
    label add up to at most its length. *)
Theorem segment_of_overlap_bounds (ss_ref_str ss_pred_str : str) :
  labels_only ss_ref_str -> labels_only ss_pred_str -> ss_ref_str <> [] ->
  exists sov,
    segment_of_overlap ss_ref_str ss_pred_str = Ok sov /\ 0 <= sov <= 2.
Proof.
  intros Href Hpred Hne.
  destruct (sov_totals_sum _ _ Href Hpred) as (v & Hv & Hsum).
  assert (Hpos : (0 < len ss_ref_str)%Z)
    by (unfold len; destruct ss_ref_str; [congruence | simpl; lia]).
  exists (v / inject_Z (len ss_ref_str)). split.
  - unfold segment_of_overlap. rewrite Hv. cbn [bind].
    destruct (Z.eqb_spec (len ss_ref_str) 0); [lia | reflexivity].
  - destruct (label_sum_bounds "E" ss_ref_str ss_pred_str) as [HE0 HE2].
    destruct (label_sum_bounds "H" ss_ref_str ss_pred_str) as [HH0 HH2].
    destruct (label_sum_bounds "-" ss_ref_str ss_pred_str) as [HC0 HC2].
    pose proof (pooled_length _ Href) as Hlen.
    unfold pooled, grouped in Hlen. simpl in Hlen.
    rewrite app_nil_r, !total_length_app in Hlen.
    assert (Hq : 0 < inject_Z (len ss_ref_str)) by (rewrite <- (Zlt_Qlt 0); exact Hpos).
    assert (Hv2 : v <= 2 * inject_Z (len ss_ref_str)).
    { unfold len. rewrite <- Hlen, !inject_Z_plus. lra. }
    split.
    + apply Qle_shift_div_l; [exact Hq | lra].
    + apply Qle_shift_div_r; [exact Hq | lra].
Qed.

Lemma segment_of_overlap_bounds_witness :
  labels_only (lit "HHHHHHHH") /\ labels_only (lit "HHHH-HHH") /\
  lit "HHHHHHHH" <> [] /\
  exists sov,
    segment_of_overlap (lit "HHHHHHHH") (lit "HHHH-HHH") = Ok sov /\
    0 <= sov <= 2.
Proof.
  split; [reflexivity|]. split; [reflexivity|]. split; [discriminate|].
  apply (segment_of_overlap_bounds (lit "HHHHHHHH") (lit "HHHH-HHH"));
    [reflexivity | reflexivity | discriminate].
Defined.

Lemma minov_pos_iff (i j : Segment) :
  (0 < minov i j)%Z <-> exists p, In p (seg_idx i) /\ In p (seg_idx j).
Proof.
  unfold minov, len. split.
  - intros H. destruct (intersect1d (seg_idx i) (seg_idx j)) as [|p l] eqn:E;
      [simpl in H; lia|].
    exists p. apply intersect1d_In. rewrite E. now left.
  - intros (p & Hi & Hj).
    assert (Hp : In p (intersect1d (seg_idx i) (seg_idx j)))
      by (apply intersect1d_In; now split).
    destruct (intersect1d (seg_idx i) (seg_idx j)); [contradiction | simpl; lia].
Qed.

Lemma pair_sum_zero (i : Segment) (preds : list Segment) :
  NoDup (seg_idx i) ->
  (pair_sum i preds == 0 <-> forall j, In j preds -> minov i j = 0%Z).
Proof.
  intros Hi. induction preds as [|j preds IH]; simpl.
  - split; [intros _ j [] | reflexivity].
  - destruct (pair_sum_bounds i preds Hi) as [Hp0 _].
    pose proof (minov_nonneg i j) as Hm.
    destruct (Z.ltb_spec 0 (minov i j)) as [Hov|Hov].
    + destruct (value_bounds i j Hi Hov) as [Hv0 _]. split.
      * intros H. exfalso. lra.
      * intros H. specialize (H j (or_introl eq_refl)). lia.
    + split.
      * intros H j' [<-|Hj']; [lia|]. apply IH; [lra | exact Hj'].
      * intros H. rewrite (proj2 IH); [reflexivity|].
        intros j' Hj'. apply H. now right.
Qed.

Lemma group_sum_zero (refs preds : list Segment) :
  (forall i, In i refs -> NoDup (seg_idx i)) -> NoDup (positions preds) ->
  (group_sum refs preds == 0 <->
   forall i j, In i refs -> In j preds -> minov i j = 0%Z).
Proof.
  intros Hrefs Hnd. induction refs as [|i refs IH]; simpl.
  - split; [intros _ i j [] | reflexivity].
  - pose proof (Hrefs i (or_introl eq_refl)) as Hi.
    assert (Hrefs' : forall i', In i' refs -> NoDup (seg_idx i'))
      by (intros i' Hi'; apply Hrefs; now right).
    destruct (pair_sum_bounds i preds Hi) as [Hp0 _].
    destruct (group_sum_bounds refs preds Hrefs' Hnd) as [Hg0 _].
    specialize (IH Hrefs'). split.
    + intros H i' j [<-|Hi'] Hj.
      * apply (proj1 (pair_sum_zero i preds Hi)); [lra | exact Hj].
      * apply (proj1 IH); [lra | exact Hi' | exact Hj].
    + intros H.
      rewrite (proj2 (pair_sum_zero i preds Hi))
        by (intros j Hj; apply H; [now left | exact Hj]).
      rewrite (proj2 IH) by (intros i' j Hi' Hj; apply H; [now right | exact Hj]).
      reflexivity.
Qed.

Lemma segment_position (x : str) (k : ascii) (sg : Segment) (p : nat) :
  In sg (by_label k (segments_of x)) -> In p (seg_idx sg) ->
  nth_error x p = Some k.
Proof.
  intros Hsg Hp. apply filter_In in Hsg as [Hsg Hk].
  apply In_nth_error in Hp as [n Hn].
  rewrite (segment_content x sg Hsg n p Hn).
  destruct (starts_with_constant x k sg Hsg Hk) as (m & Hm).
  pose proof (segments_from_shape _ _ _ Hsg) as [_ [start Hidx]].
  rewrite Hidx in Hn. apply nth_error_seq_inv in Hn as [_ Hlt].
  rewrite Hm in *. rewrite repeat_length in Hlt.
  now apply nth_error_repeat.
Qed.

Lemma position_segment (x : str) (k : ascii) (p : nat) :
  labels_only x -> nth_error x p = Some k ->
  exists sg, In sg (by_label k (segments_of x)) /\ In p (seg_idx sg).
Proof.
  intros Hx Hp.
  assert (Hlt : (p < length x)%nat) by (apply nth_error_Some; congruence).
  assert (Hin : In p (positions (segments_of x))).
  { rewrite positions_segments_of. apply in_seq. lia. }
  apply in_flat_map in Hin as (sg & Hsg & Hpsg).
  destruct (segments_of_label x sg Hx Hsg) as (c & rest & Hstr & Hc).
  assert (Hsw : starts_with c sg = true).
  { unfold starts_with. rewrite Hstr. apply Ascii.eqb_refl. }
  assert (Hsgc : In sg (by_label c (segments_of x)))
    by (apply filter_In; now split).
  pose proof (segment_position x c sg p Hsgc Hpsg) as Hpc.
  assert (c = k) by congruence. subst c.
  now exists sg.
Qed.

Lemma label_sum_zero (k : ascii) (ss_ref_str ss_pred_str : str) :
  labels_only ss_ref_str -> labels_only ss_pred_str ->
  (label_sum k ss_ref_str ss_pred_str == 0 <->
   forall p, nth_error ss_ref_str p = Some k -> nth_error ss_pred_str p <> Some k).
Proof.
  intros Href Hpred. unfold label_sum.
  rewrite group_sum_zero.
  - split.
    + intros H p Hr Hp.
      destruct (position_segment _ k p Href Hr) as (i & Hi & Hpi).
      destruct (position_segment _ k p Hpred Hp) as (j & Hj & Hpj).
      specialize (H i j Hi Hj).
      assert (Hov : (0 < minov i j)%Z) by (apply minov_pos_iff; now exists p).
      lia.
    + intros H i j Hi Hj.
      pose proof (minov_nonneg i j) as Hm.
      destruct (Z.eq_dec (minov i j) 0) as [H0|H0]; [exact H0|].
      assert (Hov : (0 < minov i j)%Z) by lia.
      apply minov_pos_iff in Hov as (p & Hpi & Hpj).
      elim (H p); [now apply (segment_position _ k i) |
                   now apply (segment_position _ k j)].
  - intros i Hi.
    apply (separated_member (by_label k (segments_of ss_ref_str))); [|exact Hi].
    apply StronglySorted_lt_NoDup, by_label_sorted.
  - apply StronglySorted_lt_NoDup, by_label_sorted.
Qed.

(** X13. The score is 0 exactly when the two strings agree at no position:
    any position where the reference and the prediction carry the same
    label lies in a reference segment and a predicted segment of that label,
    and their pair adds a positive value. *)
Theorem segment_of_overlap_zero (ss_ref_str ss_pred_str : str) :
  labels_only ss_ref_str -> labels_only ss_pred_str -> ss_ref_str <> [] ->
  exists sov,
    segment_of_overlap ss_ref_str ss_pred_str = Ok sov /\
    (sov == 0 <->
     forall p c, nth_error ss_ref_str p = Some c ->
                 nth_error ss_pred_str p <> Some c).
Proof.
  intros Href Hpred Hne.
  destruct (sov_totals_sum _ _ Href Hpred) as (v & Hv & Hsum).
  assert (Hpos : (0 < len ss_ref_str)%Z)
    by (unfold len; destruct ss_ref_str; [congruence | simpl; lia]).
  exists (v / inject_Z (len ss_ref_str)). split.
  - unfold segment_of_overlap. rewrite Hv. cbn [bind].
    destruct (Z.eqb_spec (len ss_ref_str) 0); [lia | reflexivity].
  - destruct (label_sum_bounds "E" ss_ref_str ss_pred_str) as [HE0 _].
    destruct (label_sum_bounds "H" ss_ref_str ss_pred_str) as [HH0 _].
    destruct (label_sum_bounds "-" ss_ref_str ss_pred_str) as [HC0 _].
    pose proof (label_sum_zero "E" _ _ Href Hpred) as ZE.
    pose proof (label_sum_zero "H" _ _ Href Hpred) as ZH.
    pose proof (label_sum_zero "-" _ _ Href Hpred) as ZC.
    assert (Hq : 0 < inject_Z (len ss_ref_str)) by (rewrite <- (Zlt_Qlt 0); exact Hpos).
    assert (Hz : v / inject_Z (len ss_ref_str) == 0 <-> v == 0).
    { split; intros H.
      - rewrite <- (Qmult_div_r v (inject_Z (len ss_ref_str))) by lra.
        rewrite H. ring.
      - rewrite H. field. lra. }
    rewrite Hz. split.
    + intros H p c Hr.
      assert (Hc : is_label c = true).
      { unfold labels_only in Href. rewrite forallb_forall in Href.
        apply Href. now apply (nth_error_In _ p). }
      destruct (is_label_cases c Hc) as [ -> | [ -> | -> ] ].
      * apply (proj1 ZE); [lra | exact Hr].
      * apply (proj1 ZH); [lra | exact Hr].
      * apply (proj1 ZC); [lra | exact Hr].
    + intros H. rewrite Hsum.
      rewrite (proj2 ZE), (proj2 ZH), (proj2 ZC) by (intros p; apply H).
      reflexivity.
Qed.

Lemma segment_of_overlap_zero_witness :
  labels_only (lit "HHEE") /\ labels_only (lit "EE--") /\ lit "HHEE" <> [] /\
  exists sov, segment_of_overlap (lit "HHEE") (lit "EE--") = Ok sov /\ sov == 0.
Proof.
  split; [reflexivity|]. split; [reflexivity|]. split; [discriminate|].
  destruct (segment_of_overlap_zero (lit "HHEE") (lit "EE--"))
    as (sov & Hs & Hz); [reflexivity | reflexivity | discriminate |].
  exists sov. split; [exact Hs|]. apply Hz.
  intros [|[|[|[|p]]]] c Hr Hp; simpl in *;
    try congruence; destruct p; discriminate.
Defined.

(** ** [reconstruct_predictions] *)

Lemma slice_prefix {A : Type} (prefix v rest : list A) :
  slice (prefix ++ v ++ rest) (length prefix) (length prefix + length v) = v.
Proof.
  unfold slice. rewrite skipn_app, skipn_all, Nat.sub_diag. simpl.
  replace (length prefix + length v - length prefix)%nat with (length v) by lia.
  rewrite firstn_app, Nat.sub_diag, firstn_all. simpl. apply app_nil_r.
Qed.

Lemma reconstruct_from_concat {A B : Type} (pieces : list (list A))
    (real_vectors : list (list B)) :
  map (@length A) pieces = map (@length B) real_vectors ->
  forall prefix rest,
  reconstruct_from (prefix ++ concat pieces ++ rest) (length prefix) real_vectors =
  pieces.
Proof.
  revert real_vectors.
  induction pieces as [|v pieces IH]; intros [|r real_vectors] Hlen prefix rest;
    try discriminate; [reflexivity|].
  simpl in Hlen. injection Hlen as Hv Hlen.
  simpl. rewrite <- Hv. rewrite <- app_assoc. rewrite slice_prefix. f_equal.
  specialize (IH real_vectors Hlen (prefix ++ v) rest).
  rewrite length_app, <- app_assoc in IH. exact IH.
Qed.

(** X14. [reconstruct_predictions] undoes concatenation: when the
    predictions are the concatenation of one piece per real vector, each as
    long as its real vector, the pieces come back, in order. *)
Theorem reconstruct_predictions_concat {A B : Type} (pieces : list (list A))
    (real_vectors : list (list B)) :
  map (@length A) pieces = map (@length B) real_vectors ->
  reconstruct_predictions (concat pieces) real_vectors = pieces.
Proof.
  intros Hlen. unfold reconstruct_predictions.
  pose proof (reconstruct_from_concat pieces real_vectors Hlen [] []) as H.
  simpl in H. now rewrite app_nil_r in H.
Qed.

Lemma reconstruct_predictions_concat_witness :
  map (@length Z) [[1; 2]; []; [3]]%Z = map (@length Z) [[0; 0]; []; [2]]%Z /\
  reconstruct_predictions (concat [[1; 2]; []; [3]]%Z) [[0; 0]; []; [2]]%Z =
  [[1; 2]; []; [3]]%Z.
Proof.
  split; [reflexivity|].
  apply (reconstruct_predictions_concat [[1; 2]; []; [3]]%Z [[0; 0]; []; [2]]%Z).
  reflexivity.
Defined.

Lemma firstn_add_skipn {A : Type} (a b : nat) (l : list A) :
  firstn (a + b) l = firstn a l ++ firstn b (skipn a l).
Proof.
  revert l. induction a as [|a IH]; intros [|x l]; simpl;
    try reflexivity; [now rewrite firstn_nil | now rewrite IH].
Qed.

Lemma reconstruct_from_spec {A B : Type} (preds : list A)
    (real_vectors : list (list B)) (cur_idx : nat) :
  length (reconstruct_from preds cur_idx real_vectors) = length real_vectors /\
  concat (reconstruct_from preds cur_idx real_vectors) =
    slice preds cur_idx (cur_idx + length (concat real_vectors)) /\
  Forall2 (fun piece r => (length piece <= length r)%nat)
    (reconstruct_from preds cur_idx real_vectors) real_vectors /\
  ((cur_idx + length (concat real_vectors) <= length preds)%nat ->
   map (@length A) (reconstruct_from preds cur_idx real_vectors) =
   map (@length B) real_vectors).
Proof.
  revert cur_idx.
  induction real_vectors as [|r real_vectors IH]; intros cur_idx.
  - simpl. unfold slice. rewrite Nat.add_0_r, Nat.sub_diag. simpl.
    repeat split; constructor.
  - destruct (IH (cur_idx + length r)%nat) as (IH1 & IH2 & IH3 & IH4).
    simpl. rewrite length_app. repeat split.
    + now rewrite IH1.
    + rewrite IH2. unfold slice.
      replace (cur_idx + length r - cur_idx)%nat with (length r) by lia.
      replace (cur_idx + length r + length (concat real_vectors) -
               (cur_idx + length r))%nat
        with (length (concat real_vectors)) by lia.
      replace (cur_idx + (length r + length (concat real_vectors)) - cur_idx)%nat
        with (length r + length (concat real_vectors))%nat by lia.
      rewrite firstn_add_skipn, skipn_skipn.
      now rewrite (Nat.add_comm (length r) cur_idx).
    + constructor; [|exact IH3].
      unfold slice. rewrite length_firstn. lia.
    + intros Hle. rewrite IH4 by lia. f_equal.
      unfold slice. rewrite length_firstn, length_skipn. lia.
Qed.

(** X15. [reconstruct_predictions] never fails and returns one piece per
    real vector, none longer than its real vector; the pieces are
    consecutive, so that together they are the first predictions, as many
    as the real vectors have elements.  With at least that many predictions
    every piece is as long as its real vector; with fewer, the slices are
    cut short and some piece is shorter. *)
Theorem reconstruct_predictions_pieces {A B : Type} (preds : list A)
    (real_vectors : list (list B)) :
  length (reconstruct_predictions preds real_vectors) = length real_vectors /\
  concat (reconstruct_predictions preds real_vectors) =
    firstn (length (concat real_vectors)) preds /\
  Forall2 (fun piece r => (length piece <= length r)%nat)
    (reconstruct_predictions preds real_vectors) real_vectors /\
  ((length (concat real_vectors) <= length preds)%nat <->
   map (@length A) (reconstruct_predictions preds real_vectors) =
   map (@length B) real_vectors).
Proof.
  unfold reconstruct_predictions.
  destruct (reconstruct_from_spec preds real_vectors 0) as (H1 & H2 & H3 & H4).
  unfold slice in H2. simpl in H2, H4. rewrite Nat.sub_0_r in H2.
  split; [exact H1|]. split; [exact H2|]. split; [exact H3|].
  split; [exact H4|].
  intros Hmap.
  assert (Hlen : length (concat (reconstruct_from preds 0 real_vectors)) =
                 length (concat real_vectors)).
  { rewrite !length_concat. now rewrite Hmap. }
  rewrite H2, length_firstn in Hlen. lia.
Qed.

Lemma reconstruct_predictions_pieces_witness :
  (length (concat [[0; 0]; [0]]%Z) <= length [7; 8; 9; 10]%Z)%nat /\
  map (@length Z) (reconstruct_predictions [7; 8; 9; 10]%Z [[0; 0]; [0]]%Z) =
  map (@length Z) [[0; 0]; [0]]%Z.
Proof.
  assert (H : (length (concat [[0; 0]; [0]]%Z) <= length [7; 8; 9; 10]%Z)%nat)
    by (simpl; lia).
  split; [exact H|].
  exact (proj1 (proj2 (proj2 (proj2
    (reconstruct_predictions_pieces [7; 8; 9; 10]%Z [[0; 0]; [0]]%Z)))) H).
Defined.

(** ** [filter_proteins] and the one-hot encoding *)

Lemma filter_proteins_fold (seq : str) (allowed_symbols : list ascii) (b : bool) :
  fold_left
    (fun allowed i => if not_in i allowed_symbols then false else allowed) seq b =
  b && forallb (fun i => existsb (Ascii.eqb i) allowed_symbols) seq.
Proof.
  revert b. induction seq as [|c seq IH]; intros b; simpl.
  - now rewrite andb_true_r.
  - rewrite IH. unfold not_in.
    destruct (existsb (Ascii.eqb c) allowed_symbols); simpl.
    + reflexivity.
    + now rewrite andb_false_r.
Qed.

Lemma filter_proteins_all_keys {V : Type} (prot_id seq : str) (d : list (ascii * V)) :
  filter_proteins prot_id seq (keys d) = all_keys seq d.
Proof. unfold filter_proteins, all_keys. now rewrite filter_proteins_fold. Qed.

Lemma id_get_keys (c : ascii) (d : list (ascii * Z)) :
  (existsb (Ascii.eqb c) (keys d) = true -> exists v, id_get c d = Ok v) /\
  (existsb (Ascii.eqb c) (keys d) = false -> id_get c d = Raise KeyError).
Proof.
  induction d as [|[k v] d [IH1 IH2]]; simpl.
  - split; [discriminate | reflexivity].
  - destruct (Ascii.eqb c k); simpl; [|split; assumption].
    split; [eauto | discriminate].
Qed.

Lemma list_set_length (n : nat) (v : Z) (l : list Z) :
  length (list_set n v l) = length l.
Proof.
  revert n. induction l as [|x l IH]; intros [|n]; simpl; try reflexivity.
  now rewrite IH.
Qed.

Lemma list_set_nth (n m : nat) (v : Z) (l : list Z) :
  (n < length l)%nat ->
  nth m (list_set n v l) 0%Z = if (m =? n)%nat then v else nth m l 0%Z.
Proof.
  revert n m. induction l as [|x l IH]; intros [|n] [|m] H; simpl in *;
    try lia; try reflexivity.
  apply IH. lia.
Qed.

Lemma cell_index_eq (L r i r' i' : nat) :
  (i < L)%nat -> (i' < L)%nat ->
  ((r * L + i =? r' * L + i') = (r =? r') && (i =? i'))%nat.
Proof.
  intros Hi Hi'.
  destruct (Nat.eqb_spec r r') as [->|Hr]; simpl.
  - destruct (Nat.eqb_spec i i') as [->|Hii].
    + apply Nat.eqb_refl.
    + apply Nat.eqb_neq. lia.
  - apply Nat.eqb_neq. nia.
Qed.

(** The loop of [aa_to_onehot] when every symbol has a row: the cell
    [(r, i)] of a column that the loop visits is 1 on the row of the symbol
    and unchanged elsewhere. *)
Lemma onehot_loop_spec (d : list (ascii * Z)) (K L : nat) :
  (forall c v, id_get c d = Ok v -> (0 <= v < Z.of_nat K)%Z) ->
  forall s j0 dat,
  all_keys s d = true ->
  (j0 + length s <= L)%nat -> length dat = (K * L)%nat ->
  exists dat',
    onehot_loop d (enumerate_from j0 s) (mkArray [K; L] dat) =
      Ok (mkArray [K; L] dat') /\
    length dat' = (K * L)%nat /\
    forall r i, (r < K)%nat -> (i < L)%nat ->
      nth (r * L + i) dat' 0%Z =
      if (j0 <=? i)%nat && row_of d s (i - j0) r
      then 1%Z else nth (r * L + i) dat 0%Z.
Proof.
  intros Hrange s. induction s as [|c s IH]; intros j0 dat Hkeys Hj Hlen.
  - exists dat. split; [reflexivity|]. split; [exact Hlen|].
    intros r i _ _. unfold row_of.
    replace (nth_error [] (i - j0)) with (@None ascii) by (now destruct (i - j0)%nat).
    now rewrite andb_false_r.
  - unfold all_keys in Hkeys. simpl in Hkeys.
    apply andb_true_iff in Hkeys as [Hc Hkeys].
    destruct (proj1 (id_get_keys c d) Hc) as (v & Hv).
    destruct (Hrange c v Hv) as [Hv0 HvK].
    simpl in Hj.
    assert (Hcell : (Z.to_nat v * L + j0 < length dat)%nat) by (rewrite Hlen; nia).
    destruct (IH (S j0) (list_set (Z.to_nat v * L + j0) 1%Z dat) Hkeys)
      as (dat' & Hloop & Hlen' & Hcells);
      [lia | now rewrite list_set_length |].
    exists dat'. split; [|split; [exact Hlen'|]].
    + cbn [enumerate_from onehot_loop]. rewrite Hv. cbn [bind].
      unfold set_item2. cbn [shape data].
      destruct (Z.ltb_spec v 0) as [Hneg|_]; [lia|].
      destruct (Z.leb_spec 0 v) as [_|Hneg]; [|lia].
      destruct (Z.ltb_spec v (Z.of_nat K)) as [_|Hbig]; [|lia].
      destruct (Nat.ltb_spec j0 L) as [_|Hbig]; [|lia].
      cbn [andb bind]. exact Hloop.
    + intros r i Hr Hi. rewrite (Hcells r i Hr Hi).
      rewrite (list_set_nth _ _ _ _ Hcell), cell_index_eq by lia.
      unfold row_of, code_is.
      destruct (Nat.leb_spec j0 i) as [Hle|Hgt].
      * destruct (Nat.eq_dec i j0) as [->|Hne].
        -- rewrite Nat.sub_diag. simpl nth_error. cbv beta iota. rewrite Hv.
           destruct (Nat.leb_spec (S j0) j0) as [Hbad|_]; [lia|].
           rewrite Nat.eqb_refl, andb_true_r. simpl andb.
           destruct (Z.eqb_spec v (Z.of_nat r)) as [->|Hvr].
           ++ now rewrite Nat2Z.id, Nat.eqb_refl.
           ++ destruct (Nat.eqb_spec r (Z.to_nat v)) as [->|_]; [lia | reflexivity].
        -- replace (i - j0)%nat with (S (i - S j0)) by lia. simpl nth_error.
           cbv beta iota.
           destruct (Nat.leb_spec (S j0) i) as [_|Hbad]; [|lia].
           destruct (Nat.eqb_spec i j0) as [Hbad|_]; [lia|].
           rewrite andb_false_r. reflexivity.
      * destruct (Nat.leb_spec (S j0) i) as [Hbad|_]; [lia|].
        destruct (Nat.eqb_spec i j0) as [Hbad|_]; [lia|].
        rewrite andb_false_r. reflexivity.
Qed.

Lemma onehot_loop_key_error (d : list (ascii * Z)) (K L : nat) :
  (forall c v, id_get c d = Ok v -> (0 <= v < Z.of_nat K)%Z) ->
  forall s j0 dat,
  all_keys s d = false ->
  (j0 + length s <= L)%nat -> length dat = (K * L)%nat ->
  onehot_loop d (enumerate_from j0 s) (mkArray [K; L] dat) = Raise KeyError.
Proof.
  intros Hrange s. induction s as [|c s IH]; intros j0 dat Hkeys Hj Hlen.
  - discriminate.
  - unfold all_keys in Hkeys. simpl in Hkeys. simpl in Hj.
    cbn [enumerate_from onehot_loop].
    destruct (existsb (Ascii.eqb c) (keys d)) eqn:Hc.
    + destruct (proj1 (id_get_keys c d) Hc) as (v & Hv).
      destruct (Hrange c v Hv) as [Hv0 HvK].
      rewrite Hv. cbn [bind]. unfold set_item2. cbn [shape data].
      destruct (Z.ltb_spec v 0) as [Hneg|_]; [lia|].
      destruct (Z.leb_spec 0 v) as [_|Hneg]; [|lia].
      destruct (Z.ltb_spec v (Z.of_nat K)) as [_|Hbig]; [|lia].
      destruct (Nat.ltb_spec j0 L) as [_|Hbig]; [|lia].
      cbn [andb bind]. apply IH; [exact Hkeys | lia | now rewrite list_set_length].
    + now rewrite (proj2 (id_get_keys c d) Hc).
Qed.

Lemma aa_to_onehot_cells (d : list (ascii * Z)) (s : str) :
  (forall c v, id_get c d = Ok v -> (0 <= v < Z.of_nat (length (keys d)))%Z) ->
  all_keys s d = true ->
  exists dat,
    aa_to_onehot s d None = Ok (mkArray [length (keys d); length s] dat) /\
    length dat = (length (keys d) * length s)%nat /\
    forall r i, (r < length (keys d))%nat -> (i < length s)%nat ->
      nth (r * length s + i) dat 0%Z = if row_of d s i r then 1%Z else 0%Z.
Proof.
  intros Hrange Hkeys.
  destruct (onehot_loop_spec d (length (keys d)) (length s) Hrange s 0
              (repeat 0%Z (length (keys d) * length s)) Hkeys)
    as (dat & Hloop & Hlen & Hcells); [lia | apply repeat_length |].
  exists dat. split; [exact Hloop|]. split; [exact Hlen|].
  intros r i Hr Hi. rewrite (Hcells r i Hr Hi), Nat.sub_0_r, nth_repeat.
  reflexivity.
Qed.

Lemma aa_to_onehot_key_error (d : list (ascii * Z)) (s : str) :
  (forall c v, id_get c d = Ok v -> (0 <= v < Z.of_nat (length (keys d)))%Z) ->
  all_keys s d = false ->
  aa_to_onehot s d None = Raise KeyError.
Proof.
  intros Hrange Hkeys.
  apply (onehot_loop_key_error d (length (keys d)) (length s) Hrange s 0);
    [exact Hkeys | lia | apply repeat_length].
Qed.

Ltac each_key c :=
  repeat match goal with
         | |- context [Ascii.eqb c ?k] =>
             destruct (Ascii.eqb_spec c k); [subst c|]
         end.

Lemma aa_id_dict_inverse (c : ascii) (v : Z) :
  id_get c aa_id_dict = Ok v ->
  (0 <= v < Z.of_nat (length (keys aa_id_dict)))%Z /\
  sym_get v pos_aa_dict = Ok c.
Proof.
  unfold aa_id_dict. cbn [id_get].
  each_key c; intros H; try discriminate; injection H as <-;
    (split; [simpl; lia | reflexivity]).
Qed.

Lemma aa_id_dict_range (c : ascii) (v : Z) :
  id_get c aa_id_dict = Ok v ->
  (0 <= v < Z.of_nat (length (keys aa_id_dict)))%Z.
Proof. intros H. now apply aa_id_dict_inverse in H. Qed.

(** X16. [filter_proteins] decides whether the encoding goes through: a
    sequence passes the filter on the keys of [aa_id_dict] exactly when
    [aa_to_onehot] returns an array for it, and a sequence that does not
    pass makes [aa_to_onehot] raise [KeyError]. *)
Theorem filter_proteins_guards_aa_to_onehot (prot_id seq : str) :
  (filter_proteins prot_id seq (keys aa_id_dict) = true <->
   exists a, aa_to_onehot seq aa_id_dict None = Ok a) /\
  (filter_proteins prot_id seq (keys aa_id_dict) = false <->
   aa_to_onehot seq aa_id_dict None = Raise KeyError).
Proof.
  rewrite filter_proteins_all_keys.
  destruct (all_keys seq aa_id_dict) eqn:Hk.
  - destruct (aa_to_onehot_cells aa_id_dict seq aa_id_dict_range Hk)
      as (dat & Ha & _).
    rewrite Ha. split; split; intros H; try discriminate; eauto.
  - rewrite (aa_to_onehot_key_error aa_id_dict seq aa_id_dict_range Hk).
    split; split; intros H; try discriminate; try reflexivity.
    destruct H as [a H]. discriminate.
Qed.

Lemma filter_proteins_guards_aa_to_onehot_witness :
  filter_proteins (lit "1abc") (lit "ACDX") (keys aa_id_dict) = false /\
  aa_to_onehot (lit "ACDX") aa_id_dict None = Raise KeyError.
Proof.
  assert (H : filter_proteins (lit "1abc") (lit "ACDX") (keys aa_id_dict) = false)
    by reflexivity.
  split; [exact H|].
  exact (proj1 (proj2
    (filter_proteins_guards_aa_to_onehot (lit "1abc") (lit "ACDX"))) H).
Defined.

(** X17. The encoding is one-hot: for a sequence of length L over the
    twenty amino-acid letters, [aa_to_onehot] returns a well-formed array of
    shape (20, L) whose column i holds 1 on the row that [aa_id_dict] gives
    to the i-th letter and 0 on the nineteen other rows. *)
Theorem aa_to_onehot_one_hot (seq : str) :
  all_keys seq aa_id_dict = true ->
  exists a,
    aa_to_onehot seq aa_id_dict None = Ok a /\
    shape a = [20%nat; length seq] /\ well_formed a /\
    forall i c, nth_error seq i = Some c ->
    exists v,
      id_get c aa_id_dict = Ok v /\
      forall r, (r < 20)%nat ->
        nth (r * length seq + i) (data a) 0%Z =
        if (Z.of_nat r =? v)%Z then 1%Z else 0%Z.
Proof.
  intros Hk.
  destruct (aa_to_onehot_cells aa_id_dict seq aa_id_dict_range Hk)
    as (dat & Ha & Hlen & Hcells).
  eexists. split; [exact Ha|]. split; [reflexivity|].
  split; [unfold well_formed; simpl; rewrite Hlen; simpl; lia|].
  intros i c Hi.
  assert (Hc : existsb (Ascii.eqb c) (keys aa_id_dict) = true).
  { unfold all_keys in Hk. rewrite forallb_forall in Hk.
    apply Hk. now apply (nth_error_In _ i). }
  destruct (proj1 (id_get_keys c aa_id_dict) Hc) as (v & Hv).
  exists v. split; [exact Hv|]. intros r Hr.
  assert (Hlt : (i < length seq)%nat) by (apply nth_error_Some; congruence).
  cbn [data]. rewrite (Hcells r i Hr Hlt).
  unfold row_of, code_is. rewrite Hi, Hv. now rewrite Z.eqb_sym.
Qed.

Lemma aa_to_onehot_one_hot_witness :
  all_keys (lit "ACY") aa_id_dict = true /\
  exists a, aa_to_onehot (lit "ACY") aa_id_dict None = Ok a /\
            shape a = [20%nat; 3%nat].
Proof.
  split; [reflexivity|].
  destruct (aa_to_onehot_one_hot (lit "ACY")) as (a & Ha & Hs & _);
    [reflexivity|].
  exists a. split; [exact Ha | exact Hs].
Defined.

Lemma flat_map_single (f : nat -> list nat) (c a n : nat) :
  (forall k, (a <= k < a + n)%nat -> f k = if (k =? c)%nat then [k] else []) ->
  flat_map f (seq a n) = if ((a <=? c) && (c <? a + n))%nat then [c] else [].
Proof.
  revert a. induction n as [|n IH]; intros a H.
  - simpl. destruct (Nat.leb_spec a c), (Nat.ltb_spec c (a + 0)); simpl;
      try reflexivity; lia.
  - simpl. rewrite (H a) by lia. rewrite IH by (intros k Hk; apply H; lia).
    destruct (Nat.eqb_spec a c) as [->|Hne].
    + destruct (Nat.leb_spec (S c) c); [lia|].
      destruct (Nat.leb_spec c c); [|lia].
      destruct (Nat.ltb_spec c (c + S n)); [|lia]. reflexivity.
    + destruct (Nat.leb_spec (S a) c), (Nat.leb_spec a c),
        (Nat.ltb_spec c (S a + n)), (Nat.ltb_spec c (a + S n));
        simpl; try reflexivity; lia.
Qed.

Lemma where_positive_one_hot (K L : nat) (dat : list Z) (i c : nat) :
  (c < K)%nat ->
  (forall r, (r < K)%nat ->
     nth (r * L + i) dat 0%Z = if (r =? c)%nat then 1%Z else 0%Z) ->
  where_positive (mkArray [K; L] dat) K L 1 i = [c].
Proof.
  intros Hc Hcells. unfold where_positive.
  rewrite (flat_map_single _ c).
  - destruct (Nat.leb_spec 0 c); [|lia].
    destruct (Nat.ltb_spec c (0 + K)); [reflexivity | lia].
  - intros k Hk. cbn [seq flat_map data].
    rewrite Nat.mul_1_r, Nat.add_0_r, Hcells by lia.
    destruct (k =? c)%nat; reflexivity.
Qed.

Lemma onehot_to_str_loop_spec (a : ndarray) (K L : nat)
    (map_dict : list (Z * ascii)) (s : str) :
  (forall i c, nth_error s i = Some c ->
     exists v, where_positive a K L 1 i = [v] /\
               sym_get (Z.of_nat v) map_dict = Ok c) ->
  forall n j, (j + n <= length s)%nat ->
  onehot_to_str_loop a K L 1 map_dict (seq j n) = Return (firstn n (skipn j s)).
Proof.
  intros H n. induction n as [|n IH]; intros j Hj; [reflexivity|].
  destruct (item_lt s j) as [c Hc]; [lia|].
  destruct (H j c Hc) as (v & Hw & Hsym).
  cbn [seq onehot_to_str_loop]. rewrite Hw. cbn [to_int obind].
  rewrite Hsym. cbn [lift obind]. rewrite IH by lia. cbn [obind].
  rewrite (skipn_nth_error _ _ _ Hc). reflexivity.
Qed.

(** X18. Decoding undoes the one-hot encoding: for a sequence over the
    twenty amino-acid letters, [onehot_to_str] applied to the array that
    [aa_to_onehot] returns gives the sequence back. *)
Theorem onehot_to_str_aa_to_onehot (seq : str) :
  all_keys seq aa_id_dict = true ->
  exists a,
    aa_to_onehot seq aa_id_dict None = Ok a /\
    onehot_to_str a pos_aa_dict = Return seq.
Proof.
  intros Hk.
  destruct (aa_to_onehot_cells aa_id_dict seq aa_id_dict_range Hk)
    as (dat & Ha & Hlen & Hcells).
  eexists. split; [exact Ha|].
  assert (Hw : forall i c, nth_error seq i = Some c ->
            exists v,
              where_positive (mkArray [length (keys aa_id_dict); length seq] dat)
                (length (keys aa_id_dict)) (length seq) 1 i = [v] /\
              sym_get (Z.of_nat v) pos_aa_dict = Ok c).
  { intros i c Hi.
    assert (Hc : existsb (Ascii.eqb c) (keys aa_id_dict) = true).
    { unfold all_keys in Hk. rewrite forallb_forall in Hk.
      apply Hk. now apply (nth_error_In _ i). }
    destruct (proj1 (id_get_keys c aa_id_dict) Hc) as (v & Hv).
    destruct (aa_id_dict_inverse c v Hv) as [[Hv0 HvK] Hinv].
    assert (Hlt : (i < length seq)%nat) by (apply nth_error_Some; congruence).
    exists (Z.to_nat v). rewrite Z2Nat.id by lia. split; [|exact Hinv].
    apply where_positive_one_hot; [lia|].
    intros r Hr. rewrite (Hcells r i Hr Hlt).
    unfold row_of, code_is. rewrite Hi, Hv.
    destruct (Z.eqb_spec v (Z.of_nat r)) as [->|Hne].
    + now rewrite Nat2Z.id, Nat.eqb_refl.
    + destruct (Nat.eqb_spec r (Z.to_nat v)) as [->|_]; [lia | reflexivity]. }
  unfold onehot_to_str. cbn [shape size_of fold_right].
  rewrite (onehot_to_str_loop_spec _ _ _ _ seq Hw (length seq) 0) by lia.
  simpl skipn. now rewrite firstn_all.
Qed.

Lemma onehot_to_str_aa_to_onehot_witness :
  all_keys (lit "MKV") aa_id_dict = true /\
  exists a,
    aa_to_onehot (lit "MKV") aa_id_dict None = Ok a /\
    onehot_to_str a pos_aa_dict = Return (lit "MKV").
Proof.
  split; [reflexivity|].
  apply (onehot_to_str_aa_to_onehot (lit "MKV")). reflexivity.
Defined.

(** ** The mask of [aa_to_onehot] *)

Lemma select_kept (aa_str mask : str) (j : nat) :
  (j + length mask <= length aa_str)%nat ->
  select aa_str
    (map fst (filter (fun ix => Ascii.eqb (snd ix) "+") (enumerate_from j mask))) =
  Ok (kept (skipn j aa_str) mask).
Proof.
  revert j. induction mask as [|m mask IH]; intros j Hj.
  - unfold kept. now destruct (skipn j aa_str).
  - simpl in Hj. destruct (item_lt aa_str j) as [c Hc]; [lia|].
    rewrite (skipn_nth_error _ _ _ Hc). unfold kept.
    cbn [enumerate_from filter combine snd].
    destruct (Ascii.eqb m "+").
    + cbn [map fst select]. unfold item. rewrite Hc. cbn [bind].
      rewrite IH by lia. reflexivity.
    + rewrite IH by lia. reflexivity.
Qed.

Lemma in_enumerate_from {A : Type} (l : list A) (j i : nat) (x : A) :
  In (i, x) (enumerate_from j l) <-> (j <= i)%nat /\ nth_error l (i - j) = Some x.
Proof.
  revert j. induction l as [|y l IH]; intros j; simpl.
  - split; [intros [] | intros [_ H]; now destruct (i - j)%nat].
  - rewrite IH. split.
    + intros [H|[Hle H]].
      * injection H as <- <-. split; [lia|]. now rewrite Nat.sub_diag.
      * split; [lia|]. replace (i - j)%nat with (S (i - S j)) by lia. exact H.
    + intros [Hle H]. destruct (Nat.eq_dec i j) as [->|Hne].
      * left. rewrite Nat.sub_diag in H. simpl in H. congruence.
      * right. split; [lia|].
        replace (i - j)%nat with (S (i - S j)) in H by lia. exact H.
Qed.

Lemma select_out_of_range (aa_str : str) (idx : list nat) :
  (exists x, In x idx /\ (length aa_str <= x)%nat) ->
  select aa_str idx = Raise IndexError.
Proof.
  induction idx as [|y idx IH]; intros (x & Hin & Hx); [contradiction|].
  simpl. unfold item.
  destruct (nth_error aa_str y) as [c|] eqn:Hy; [|reflexivity].
  cbn [bind]. rewrite IH; [reflexivity|].
  destruct Hin as [->|Hin]; [|now exists x].
  apply nth_error_None in Hx. congruence.
Qed.

(** X19. The mask of [aa_to_onehot]: with a mask no longer than the
    sequence the result is the encoding of the residues that stand at a +
    of the mask, in order; a + of the mask beyond the end of the sequence
    raises [IndexError]. *)
Theorem aa_to_onehot_mask (aa_str mask : str) (aa_to_nr : list (ascii * Z)) :
  ((length mask <= length aa_str)%nat ->
   aa_to_onehot aa_str aa_to_nr (Some mask) =
   aa_to_onehot (kept aa_str mask) aa_to_nr None) /\
  ((exists x, (length aa_str <= x)%nat /\ nth_error mask x = Some "+"%char) ->
   aa_to_onehot aa_str aa_to_nr (Some mask) = Raise IndexError).
Proof.
  split.
  - intros Hlen. unfold aa_to_onehot, mask_ind, enumerate.
    now rewrite (select_kept aa_str mask 0) by lia.
  - intros (x & Hx & Hm). unfold aa_to_onehot.
    rewrite select_out_of_range; [reflexivity|].
    exists x. split; [|exact Hx].
    unfold mask_ind, enumerate. apply in_map_iff. exists (x, "+"%char).
    split; [reflexivity|]. apply filter_In. split; [|reflexivity].
    apply in_enumerate_from. split; [lia|]. now rewrite Nat.sub_0_r.
Qed.

Lemma aa_to_onehot_mask_witness :
  (length (lit "+-+") <= length (lit "ACD"))%nat /\
  aa_to_onehot (lit "ACD") aa_id_dict (Some (lit "+-+")) =
  aa_to_onehot (lit "AD") aa_id_dict None.
Proof.
  assert (H : (length (lit "+-+") <= length (lit "ACD"))%nat) by (simpl; lia).
  split; [exact H|].
  exact (proj1 (aa_to_onehot_mask (lit "ACD") (lit "+-+") aa_id_dict) H).
Defined.

(** ** [pad_and_split_1h] *)

Lemma flat_map_uniform_length {A : Type} (g : nat -> list A) (m s n : nat) :
  (forall x, length (g x) = m) ->
  length (flat_map g (seq s n)) = (n * m)%nat.
Proof.
  intros Hg. revert s. induction n as [|n IH]; intros s; simpl; [reflexivity|].
  now rewrite length_app, Hg, IH.
Qed.

Lemma flat_map_uniform_nth {A : Type} (g : nat -> list A) (m s n a i : nat) (d : A) :
  (forall x, length (g x) = m) ->
  (s <= a < s + n)%nat -> (i < m)%nat ->
  nth ((a - s) * m + i) (flat_map g (seq s n)) d = nth i (g a) d.
Proof.
  intros Hg. revert s. induction n as [|n IH]; intros s Ha Hi; [lia|].
  simpl. destruct (Nat.eq_dec a s) as [->|Hne].
  - rewrite Nat.sub_diag. simpl. apply app_nth1. now rewrite Hg.
  - rewrite app_nth2 by (rewrite Hg; nia). rewrite Hg.
    replace ((a - s) * m + i - m)%nat with ((a - S s) * m + i)%nat by nia.
    apply IH; lia.
Qed.

Lemma table3_length (n1 n2 n3 : nat) (f : nat -> nat -> nat -> Z) :
  length (table3 n1 n2 n3 f) = (n1 * (n2 * n3))%nat.
Proof.
  unfold table3. apply flat_map_uniform_length. intros i.
  apply flat_map_uniform_length. intros j. now rewrite length_map, length_seq.
Qed.

Lemma table3_nth (n1 n2 n3 : nat) (f : nat -> nat -> nat -> Z) (i j t : nat) :
  (i < n1)%nat -> (j < n2)%nat -> (t < n3)%nat ->
  nth ((i * n2 + j) * n3 + t) (table3 n1 n2 n3 f) 0%Z = f i j t.
Proof.
  intros Hi Hj Ht. unfold table3.
  replace ((i * n2 + j) * n3 + t)%nat
    with ((i - 0) * (n2 * n3) + (j * n3 + t))%nat by nia.
  rewrite (flat_map_uniform_nth _ (n2 * n3)); [| |lia|nia].
  - replace (j * n3 + t)%nat with ((j - 0) * n3 + t)%nat by lia.
    rewrite (flat_map_uniform_nth _ n3); [| |lia|lia].
    + rewrite (nth_indep _ 0%Z (f i j 0%nat)) by (now rewrite length_map, length_seq).
      rewrite map_nth, seq_nth by lia. reflexivity.
    + intros x. now rewrite length_map, length_seq.
  - intros x. apply flat_map_uniform_length. intros y.
    now rewrite length_map, length_seq.
Qed.

Lemma half_window_nonneg (k : Z) : (0 <= k)%Z -> (0 <= half_window k)%Z.
Proof.
  intros Hk. unfold half_window.
  destruct (Z.eq_dec k 0) as [->|Hne]; [discriminate|].
  apply Z.quot_pos; lia.
Qed.

(** The padded encoding: its shape and its cells. *)
Lemma padded_cells (d : list (ascii * Z)) (s : str) (h : nat) (dat : list Z) :
  length dat = (length (keys d) * length s)%nat ->
  (forall r i, (r < length (keys d))%nat -> (i < length s)%nat ->
     nth (r * length s + i) dat 0%Z = if row_of d s i r then 1%Z else 0%Z) ->
  exists pdat,
    concatenate3_axis1 (zeros2 (length (keys d)) h)
      (mkArray [length (keys d); length s] dat) (zeros2 (length (keys d)) h) =
      Ok (mkArray [length (keys d); (h + length s + h)%nat] pdat) /\
    forall r j, (r < length (keys d))%nat -> (j < h + length s + h)%nat ->
      entry3 (mkArray [length (keys d); (h + length s + h)%nat] pdat)
        (h + length s + h) 1 r j 0 = padded_cell d s h r j.
Proof.
  intros Hlen Hcells. eexists. split.
  - unfold concatenate3_axis1, zeros2. cbn [shape].
    destruct (list_eq_dec Nat.eq_dec [length (keys d)] [length (keys d)]);
      [|congruence].
    reflexivity.
  - intros r j Hr Hj. unfold entry3 at 1. cbn [data size_of fold_right].
    rewrite table3_nth by lia. unfold padded_cell, entry3, zeros2. cbn [data].
    destruct (Nat.ltb_spec j h) as [Hlt|Hge].
    + destruct (Nat.leb_spec h j); [lia|]. apply nth_repeat.
    + destruct (Nat.leb_spec h j); [|lia]. cbn [andb].
      destruct (Nat.ltb_spec j (h + length s)) as [Hin|Hout].
      * rewrite Nat.mul_1_r, Nat.add_0_r. apply Hcells; lia.
      * rewrite nth_repeat. unfold row_of.
        replace (nth_error s (j - h)) with (@None ascii); [reflexivity|].
        symmetry. apply nth_error_None. lia.
Qed.

Lemma window_loop_spec (a : ndarray) (rows cols h : nat) :
  shape a = [rows; cols] ->
  forall n w0, (w0 + n + 2 * h <= cols)%nat ->
  window_loop a h (seq (h + w0) n) = Ok (map (window a rows cols h) (seq w0 n)).
Proof.
  intros Hshape n. induction n as [|n IH]; intros w0 Hw; [reflexivity|].
  cbn [seq window_loop map]. unfold slice_columns at 1. rewrite Hshape.
  cbn [bind size_of fold_right].
  replace (h + w0 - h)%nat with w0 by lia.
  replace (Nat.min (h + w0 + h + 1) cols - Nat.min w0 cols)%nat
    with (2 * h + 1)%nat by lia.
  change (S (h + w0)) with (S h + w0)%nat.
  replace (S h + w0)%nat with (h + S w0)%nat by lia.
  rewrite IH by lia. reflexivity.
Qed.

Lemma np_array_windows (a : ndarray) (rows cols h n : nat) :
  (1 <= n)%nat ->
  np_array (map (window a rows cols h) (seq 0 n)) =
  Ok (mkArray [n; rows; (2 * h + 1)%nat]
        (flat_map (fun w => data (window a rows cols h w)) (seq 0 n))).
Proof.
  intros Hn. unfold np_array.
  destruct n as [|n]; [lia|]. cbn [seq map].
  replace (forallb _ _) with true.
  - cbn [length shape window]. rewrite length_map, length_seq.
    f_equal. f_equal. cbn [flat_map]. f_equal. 
    rewrite flat_map_concat_map, map_map, <- flat_map_concat_map. reflexivity.
  - symmetry. apply forallb_forall. intros b Hb.
    assert (Hs : shape b = [rows; (2 * h + 1)%nat]).
    { destruct Hb as [<-|Hb]; [reflexivity|].
      apply in_map_iff in Hb as (w & <- & _). reflexivity. }
    rewrite Hs. cbn [shape window].
    destruct (list_eq_dec Nat.eq_dec _ _); [reflexivity | congruence].
Qed.

Lemma pad_and_split_1h_spec (d : list (ascii * Z)) (s : str) (k : Z) :
  (forall c v, id_get c d = Ok v -> (0 <= v < Z.of_nat (length (keys d)))%Z) ->
  (0 <= k)%Z -> all_keys s d = true -> s <> [] ->
  exists t,
    pad_and_split_1h s k d = Ok t /\
    shape t = [length s; length (keys d); (2 * Z.to_nat (half_window k) + 1)%nat] /\
    well_formed t /\
    forall w r c,
      (w < length s)%nat -> (r < length (keys d))%nat ->
      (c < 2 * Z.to_nat (half_window k) + 1)%nat ->
      nth ((w * length (keys d) + r) * (2 * Z.to_nat (half_window k) + 1) + c)
          (data t) 0%Z =
      padded_cell d s (Z.to_nat (half_window k)) r (w + c).
Proof.
  intros Hrange Hk Hkeys Hne.
  pose proof (half_window_nonneg k Hk) as Hh.
  set (h := Z.to_nat (half_window k)).
  set (K := length (keys d)). set (L := length s).
  assert (HL : (1 <= L)%nat) by (subst L; destruct s; [congruence | simpl; lia]).
  destruct (aa_to_onehot_cells d s Hrange Hkeys) as (dat & Ha & Hlen & Hcells).
  destruct (padded_cells d s h dat Hlen Hcells) as (pdat & Hp & Hpcells).
  fold K L in Ha, Hlen, Hcells, Hp, Hpcells.
  set (P := mkArray [K; (h + L + h)%nat] pdat) in *.
  eexists. split; [|split; [|split]].
  - unfold pad_and_split_1h, np_zeros2.
    destruct (Z.ltb_spec (half_window k) 0) as [Hneg|_]; [lia|].
    cbn [bind]. rewrite Ha. cbn [bind]. fold h K. rewrite Hp. cbn [bind].
    replace (seq h (length s)) with (seq (h + 0) L) by (now rewrite Nat.add_0_r).
    rewrite (window_loop_spec P K (h + L + h) h eq_refl L 0) by lia.
    cbn [bind]. apply np_array_windows. exact HL.
  - reflexivity.
  - unfold well_formed. cbn [data shape size_of fold_right].
    rewrite (flat_map_uniform_length _ (K * ((2 * h + 1) * 1))).
    + nia.
    + intros w. unfold window. cbn [data]. apply table3_length.
  - intros w r c Hw Hr Hc. cbn [data].
    replace ((w * K + r) * (2 * h + 1) + c)%nat
      with ((w - 0) * (K * ((2 * h + 1) * 1)) + ((r * (2 * h + 1) + c) * 1 + 0))%nat
      by nia.
    rewrite (flat_map_uniform_nth _ (K * ((2 * h + 1) * 1))); [| |lia|nia].
    + unfold window. cbn [data]. rewrite table3_nth by lia.
      apply Hpcells; lia.
    + intros x. unfold window. cbn [data]. apply table3_length.
Qed.

(** X20. The windows of [pad_and_split_1h]: for a sequence of length
    L >= 1 over the twenty amino-acid letters and a window size k >= 0, with
    h the truncation of (k-1)/2, the result has shape (L, 20, 2h+1), and
    column c of window w is the one-hot column of the residue at position
    w + c - h when that position lies in the sequence and a column of zeros
    when it does not.  In particular the centre column of window w encodes
    residue w. *)
Theorem pad_and_split_1h_windows (vector : str) (k : Z) :
  (0 <= k)%Z -> all_keys vector aa_id_dict = true -> vector <> [] ->
  exists t,
    pad_and_split_1h vector k aa_id_dict = Ok t /\
    shape t = [length vector; 20%nat; (2 * Z.to_nat (half_window k) + 1)%nat] /\
    well_formed t /\
    (forall w r c,
       (w < length vector)%nat -> (r < 20)%nat ->
       (c < 2 * Z.to_nat (half_window k) + 1)%nat ->
       nth ((w * 20 + r) * (2 * Z.to_nat (half_window k) + 1) + c) (data t) 0%Z =
       padded_cell aa_id_dict vector (Z.to_nat (half_window k)) r (w + c)) /\
    (forall w r,
       (w < length vector)%nat -> (r < 20)%nat ->
       nth ((w * 20 + r) * (2 * Z.to_nat (half_window k) + 1)
            + Z.to_nat (half_window k)) (data t) 0%Z =
       if row_of aa_id_dict vector w r then 1%Z else 0%Z).
Proof.
  intros Hk Hkeys Hne.
  destruct (pad_and_split_1h_spec aa_id_dict vector k aa_id_dict_range Hk Hkeys Hne)
    as (t & Ht & Hs & Hwf & Hcells).
  exists t. split; [exact Ht|]. split; [exact Hs|]. split; [exact Hwf|].
  split; [exact Hcells|].
  intros w r Hw Hr.
  change (length (keys aa_id_dict)) with 20%nat in Hcells.
  rewrite Hcells by lia. unfold padded_cell.
  destruct (Nat.leb_spec (Z.to_nat (half_window k)) (w + Z.to_nat (half_window k)));
    [|lia].
  cbn [andb].
  now replace (w + Z.to_nat (half_window k) - Z.to_nat (half_window k))%nat with w by lia.
Qed.

Lemma pad_and_split_1h_windows_witness :
  (0 <= 3)%Z /\ all_keys (lit "AC") aa_id_dict = true /\ lit "AC" <> [] /\
  exists t,
    pad_and_split_1h (lit "AC") 3 aa_id_dict = Ok t /\
    shape t = [2%nat; 20%nat; 3%nat].
Proof.
  split; [lia|]. split; [reflexivity|]. split; [discriminate|].
  destruct (pad_and_split_1h_windows (lit "AC") 3) as (t & Ht & Hs & _);
    [lia | reflexivity | discriminate |].
  exists t. split; [exact Ht | exact Hs].
Defined.

(** X21. The width of the windows: [int((k-1)/2)] columns are taken on
    each side of the centre, so an odd k >= 1 gives windows of k columns
    (21 for the notebook's [k_window]) and an even k >= 2 windows of k - 1
    columns. *)
Theorem pad_and_split_1h_width (vector : str) (k : Z) :
  (1 <= k)%Z -> all_keys vector aa_id_dict = true -> vector <> [] ->
  exists t width,
    pad_and_split_1h vector k aa_id_dict = Ok t /\
    shape t = [length vector; 20%nat; width] /\
    Z.of_nat width = (if Z.odd k then k else k - 1)%Z.
Proof.
  intros Hk Hkeys Hne.
  destruct (pad_and_split_1h_spec aa_id_dict vector k aa_id_dict_range
              ltac:(lia) Hkeys Hne) as (t & Ht & Hs & _).
  exists t, (2 * Z.to_nat (half_window k) + 1)%nat.
  split; [exact Ht|]. split; [exact Hs|].
  pose proof (half_window_nonneg k ltac:(lia)) as Hh.
  rewrite Nat2Z.inj_add, Nat2Z.inj_mul, Z2Nat.id by exact Hh.
  unfold half_window in *.
  rewrite Z.quot_div_nonneg in * by lia.
  pose proof (Z.div_mod (k - 1) 2 ltac:(lia)) as Hdm.
  pose proof (Z.mod_pos_bound (k - 1) 2 ltac:(lia)) as Hmod.
  destruct (Z.odd k) eqn:Hodd.
  - apply Z.odd_spec in Hodd. destruct Hodd as [m Hm].
    assert ((k - 1) mod 2 = 0)%Z.
    { replace (k - 1)%Z with (m * 2)%Z by lia. apply Z.mod_mul. lia. }
    simpl Z.of_nat. lia.
  - assert (Heven : Z.even k = true) by (rewrite <- Z.negb_odd, Hodd; reflexivity).
    apply Z.even_spec in Heven. destruct Heven as [m Hm].
    assert ((k - 1) mod 2 = 1)%Z.
    { replace (k - 1)%Z with (1 + (m - 1) * 2)%Z by lia.
      rewrite Z.mod_add by lia. reflexivity. }
    simpl Z.of_nat. lia.
Qed.

Lemma pad_and_split_1h_width_witness :
  (1 <= 4)%Z /\ all_keys (lit "AC") aa_id_dict = true /\ lit "AC" <> [] /\
  exists t width,
    pad_and_split_1h (lit "AC") 4 aa_id_dict = Ok t /\
    shape t = [length (lit "AC"); 20%nat; width] /\
    Z.of_nat width = 3%Z.
Proof.
  split; [lia|]. split; [reflexivity|]. split; [discriminate|].
  apply (pad_and_split_1h_width (lit "AC") 4); [lia | reflexivity | discriminate].
Defined.

(** X22. The edge cases of [pad_and_split_1h]: a window size k <= -1
    makes the padding have a negative number of columns and raises
    [ValueError], whatever the sequence; with k >= 0 a letter outside the
    twenty raises [KeyError], and the empty sequence gives an empty flat
    array of shape (0,), not an array of windows. *)
Theorem pad_and_split_1h_edges (vector : str) (k : Z) :
  ((k <= -1)%Z -> pad_and_split_1h vector k aa_id_dict = Raise ValueError) /\
  ((0 <= k)%Z -> all_keys vector aa_id_dict = false ->
   pad_and_split_1h vector k aa_id_dict = Raise KeyError) /\
  ((0 <= k)%Z -> vector = [] ->
   pad_and_split_1h vector k aa_id_dict = Ok (mkArray [0%nat] [])).
Proof.
  split; [|split].
  - intros Hk. unfold pad_and_split_1h, np_zeros2.
    assert (Hh : (half_window k < 0)%Z).
    { unfold half_window.
      assert (H : (Z.quot (k - 1) 2 <= Z.quot (-2) 2)%Z)
        by (apply Z.quot_le_mono; lia).
      change (Z.quot (-2) 2) with (-1)%Z in H. lia. }
    apply Z.ltb_lt in Hh. now rewrite Hh.
  - intros Hk Hkeys. unfold pad_and_split_1h, np_zeros2.
    pose proof (half_window_nonneg k Hk) as Hh.
    destruct (Z.ltb_spec (half_window k) 0) as [Hneg|_]; [lia|].
    cbn [bind].
    now rewrite (aa_to_onehot_key_error aa_id_dict vector aa_id_dict_range Hkeys).
  - intros Hk ->. unfold pad_and_split_1h, np_zeros2.
    pose proof (half_window_nonneg k Hk) as Hh.
    destruct (Z.ltb_spec (half_window k) 0) as [Hneg|_]; [lia|].
    cbn [bind].
    unfold aa_to_onehot. cbn [bind enumerate enumerate_from onehot_loop length].
    unfold concatenate3_axis1, zeros2. cbn [shape].
    destruct (list_eq_dec Nat.eq_dec _ _); [|congruence].
    cbn [bind seq window_loop np_array]. reflexivity.
Qed.

Lemma pad_and_split_1h_edges_witness :
  (-1 <= -1)%Z /\ pad_and_split_1h (lit "AC") (-1) aa_id_dict = Raise ValueError.
Proof.
  split; [lia|].
  apply (proj1 (pad_and_split_1h_edges (lit "AC") (-1))). lia.
Defined.

(** ** [protein_collate] *)

Lemma fold_left_max_ge (l : list nat) (x : nat) :
  (x <= fold_left Nat.max l x)%nat /\
  (forall y, In y l -> (y <= fold_left Nat.max l x)%nat) /\
  (fold_left Nat.max l x = x \/ In (fold_left Nat.max l x) l).
Proof.
  revert x. induction l as [|z l IH]; intros x; simpl.
  - split; [lia|]. split; [intros y [] | now left].
  - destruct (IH (Nat.max x z)) as (H1 & H2 & H3). split; [lia|]. split.
    + intros y [<-|Hy]; [lia | now apply H2].
    + destruct H3 as [H3|H3]; [|right; now right].
      rewrite H3. destruct (Nat.max_spec x z) as [[_ ->]|[_ ->]];
        [right; now left | now left].
Qed.

Lemma third_sizes_items (K : nat) (batch : list (ndarray * ndarray)) :
  Forall (batch_item K) batch ->
  third_sizes (map fst batch) = Ok (map item_length batch).
Proof.
  induction 1 as [|it batch (L & Hs & _) _ IH]; [reflexivity|].
  simpl. unfold item, item_length. rewrite Hs. simpl. now rewrite IH.
Qed.

Lemma np_pad_last_seq (K M : nat) (it : ndarray * ndarray) :
  batch_item K it -> (item_length it <= M)%nat ->
  np_pad_last (fst it) 3 (M - item_length it) = Ok (padded_seq K M it).
Proof.
  intros (L & Hs & _) Hle. unfold np_pad_last, padded_seq, item_length in *.
  rewrite Hs in *. cbn [length Nat.eqb rev app nth size_of fold_right] in *.
  replace (L + (M - L))%nat with M by lia.
  replace (1 * (K * 1))%nat with K by lia. reflexivity.
Qed.

Lemma np_pad_last_ss (K M : nat) (it : ndarray * ndarray) :
  batch_item K it -> (item_length it <= M)%nat ->
  np_pad_last (snd it) 2 (M - item_length it) = Ok (padded_ss M it).
Proof.
  intros (L & Hs & Hss) Hle. unfold np_pad_last, padded_ss, item_length in *.
  rewrite Hs in *. rewrite Hss. cbn [length Nat.eqb rev app nth size_of fold_right] in *.
  replace (L + (M - L))%nat with M by lia. reflexivity.
Qed.

Lemma collate_loop_items (K M : nat) (batch : list (ndarray * ndarray)) :
  Forall (batch_item K) batch ->
  (forall it, In it batch -> (item_length it <= M)%nat) ->
  collate_loop batch M = Ok (map (padded_seq K M) batch, map (padded_ss M) batch).
Proof.
  induction 1 as [|it batch Hit _ IH]; intros Hle; [reflexivity|].
  destruct it as [sq s]. cbn [collate_loop].
  pose proof (Hle (sq, s) (or_introl eq_refl)) as Hl.
  pose proof (np_pad_last_seq K M (sq, s) Hit Hl) as Hsq.
  pose proof (np_pad_last_ss K M (sq, s) Hit Hl) as Hss.
  destruct Hit as (L & Hs & _). cbn [fst snd] in *.
  unfold item. rewrite Hs. cbn [nth_error bind].
  unfold item_length in Hsq, Hss. cbn [fst] in Hsq, Hss. rewrite Hs in Hsq, Hss.
  cbn [nth] in Hsq, Hss. rewrite Hsq, Hss. cbn [bind].
  rewrite IH by (intros it Hin; apply Hle; now right). reflexivity.
Qed.

Lemma first_axes_sum (rest : list nat) (tensors : list ndarray) :
  Forall (fun t => shape t = 1%nat :: rest) tensors ->
  list_sum (map (fun u => hd 0%nat (shape u)) tensors) = length tensors.
Proof.
  unfold list_sum. induction 1 as [|u us Hu _ IH]; [reflexivity|].
  simpl. rewrite Hu. simpl. now rewrite IH.
Qed.

Lemma torch_cat0_uniform (rest : list nat) (tensors : list ndarray) :
  tensors <> [] -> rest <> [] ->
  Forall (fun t => shape t = 1%nat :: rest) tensors ->
  torch_cat0 tensors =
  Return (mkArray (length tensors :: rest) (flat_map data tensors)).
Proof.
  intros Hne Hrest Hall. unfold torch_cat0.
  destruct tensors as [|t ts]; [congruence|].
  assert (Hf : filter (fun u => negb (is_empty_flat u)) (t :: ts) = t :: ts).
  { apply forallb_filter_id. apply forallb_forall. intros u Hu.
    rewrite Forall_forall in Hall. unfold is_empty_flat. now rewrite (Hall u Hu). }
  rewrite Hf. pose proof (Forall_inv Hall) as Ht. rewrite Ht.
  assert (Hsame : forallb (same_tail rest) (t :: ts) = true).
  { apply forallb_forall. intros u Hu. rewrite Forall_forall in Hall.
    unfold same_tail. rewrite (Hall u Hu).
    destruct (list_eq_dec Nat.eq_dec rest rest); [reflexivity | congruence]. }
  rewrite Hsame. now rewrite (first_axes_sum rest (t :: ts) Hall).
Qed.

Lemma flat_map_list_nth {A B : Type} (g : A -> list B) (m : nat) (l : list A)
    (b i : nat) (x : A) (d : B) :
  (forall y, length (g y) = m) ->
  nth_error l b = Some x -> (i < m)%nat ->
  nth (b * m + i) (flat_map g l) d = nth i (g x) d.
Proof.
  intros Hg. revert b. induction l as [|y l IH]; intros [|b] Hb Hi;
    simpl in Hb; try discriminate.
  - injection Hb as ->. simpl. apply app_nth1. now rewrite Hg.
  - simpl flat_map. rewrite app_nth2 by (rewrite Hg; nia). rewrite Hg.
    replace (S b * m + i - m)%nat with (b * m + i)%nat by nia.
    now apply IH.
Qed.

Lemma padded_ss_length (M : nat) (l : list (ndarray * ndarray)) :
  length (flat_map data (map (padded_ss M) l)) = (length l * M)%nat.
Proof.
  induction l as [|y l IH]; [reflexivity|].
  cbn [map flat_map length]. rewrite length_app, IH.
  unfold padded_ss. cbn [data]. rewrite table3_length. lia.
Qed.

Lemma protein_collate_spec (K : nat) (batch : list (ndarray * ndarray)) :
  batch <> [] -> Forall (batch_item K) batch ->
  exists M,
    protein_collate batch =
      Return (mkArray [length batch; K; M]
                (flat_map data (map (padded_seq K M) batch)),
              mkArray [length batch; M]
                (flat_map data (map (padded_ss M) batch))) /\
    (forall it, In it batch -> (item_length it <= M)%nat) /\
    (exists it, In it batch /\ item_length it = M).
Proof.
  intros Hne Hall.
  destruct batch as [|it0 batch']; [congruence|].
  set (batch := it0 :: batch') in *.
  set (M := fold_left Nat.max (map item_length batch') (item_length it0)).
  destruct (fold_left_max_ge (map item_length batch') (item_length it0))
    as (Hm0 & Hmall & Hmin). fold M in Hm0, Hmall, Hmin.
  assert (Hle : forall it, In it batch -> (item_length it <= M)%nat).
  { intros it [<-|Hin]; [exact Hm0|]. apply Hmall. now apply in_map. }
  exists M. split; [|split; [exact Hle|]].
  - unfold protein_collate.
    rewrite (third_sizes_items K batch Hall). cbn [lift obind].
    unfold batch at 1. cbn [map py_max lift obind]. fold M.
    rewrite (collate_loop_items K M batch Hall Hle). cbn [lift obind fst snd].
    rewrite (torch_cat0_uniform [K; M]); [| discriminate | discriminate |].
    + cbn [obind]. rewrite (torch_cat0_uniform [M]); [| discriminate | discriminate |].
      * cbn [obind]. now rewrite !length_map.
      * apply Forall_forall. intros u Hu. apply in_map_iff in Hu as (it & <- & _).
        reflexivity.
    + apply Forall_forall. intros u Hu. apply in_map_iff in Hu as (it & <- & _).
      reflexivity.
  - destruct Hmin as [Hmin|Hmin].
    + exists it0. split; [now left | now symmetry].
    + apply in_map_iff in Hmin as (it & Hit & Hin).
      exists it. split; [now right | exact Hit].
Qed.

Lemma padded_ss_row (M : nat) (batch : list (ndarray * ndarray)) (b t : nat)
    (it : ndarray * ndarray) :
  nth_error batch b = Some it -> (t < M)%nat ->
  nth (b * M + t) (flat_map data (map (padded_ss M) batch)) 0%Z =
  if (t <? item_length it)%nat then nth t (data (snd it)) 0%Z else 0%Z.
Proof.
  intros Hb Ht. rewrite flat_map_concat_map, map_map, <- flat_map_concat_map.
  replace (b * M + t)%nat
    with (b * (1 * (1 * M)) + ((0 * 1 + 0) * M + t))%nat by nia.
  rewrite (flat_map_list_nth _ (1 * (1 * M)) batch b _ it); [|  | exact Hb | nia].
  - unfold padded_ss. cbn [data]. now rewrite table3_nth by lia.
  - intros y. unfold padded_ss. cbn [data]. apply table3_length.
Qed.

Lemma padded_seq_cell (K M : nat) (batch : list (ndarray * ndarray)) (b r t : nat)
    (it : ndarray * ndarray) :
  nth_error batch b = Some it -> (r < K)%nat -> (t < M)%nat ->
  nth ((b * K + r) * M + t) (flat_map data (map (padded_seq K M) batch)) 0%Z =
  if (t <? item_length it)%nat
  then nth (r * item_length it + t) (data (fst it)) 0%Z else 0%Z.
Proof.
  intros Hb Hr Ht. rewrite flat_map_concat_map, map_map, <- flat_map_concat_map.
  replace ((b * K + r) * M + t)%nat
    with (b * (K * (1 * M)) + ((r * 1 + 0) * M + t))%nat by nia.
  rewrite (flat_map_list_nth _ (K * (1 * M)) batch b _ it); [|  | exact Hb | nia].
  - unfold padded_seq. cbn [data]. now rewrite table3_nth by lia.
  - intros y. unfold padded_seq. cbn [data]. apply table3_length.
Qed.

(** X23. [protein_collate] pads a batch to its longest item: for a
    non-empty batch of items of shapes (1, K, L) and (1, L) it returns a
    sequence tensor of shape (B, K, M) and a label tensor of shape (B, M),
    M being the largest L of the batch; row b holds the entries of item b in
    its first L columns and 0 in the others.  An empty batch raises
    [ValueError]. *)
Theorem protein_collate_padding (K : nat) (batch : list (ndarray * ndarray)) :
  (batch = [] -> protein_collate batch = Throw (Builtin ValueError)) /\
  (batch <> [] -> Forall (batch_item K) batch ->
   exists seq_tensor ss_tensor M,
     protein_collate batch = Return (seq_tensor, ss_tensor) /\
     (forall it, In it batch -> (item_length it <= M)%nat) /\
     (exists it, In it batch /\ item_length it = M) /\
     shape seq_tensor = [length batch; K; M] /\
     shape ss_tensor = [length batch; M] /\
     forall b it, nth_error batch b = Some it ->
       (forall r t, (r < K)%nat -> (t < M)%nat ->
          nth ((b * K + r) * M + t) (data seq_tensor) 0%Z =
          if (t <? item_length it)%nat
          then nth (r * item_length it + t) (data (fst it)) 0%Z else 0%Z) /\
       (forall t, (t < M)%nat ->
          nth (b * M + t) (data ss_tensor) 0%Z =
          if (t <? item_length it)%nat then nth t (data (snd it)) 0%Z else 0%Z)).
Proof.
  split; [intros ->; reflexivity|].
  intros Hne Hall.
  destruct (protein_collate_spec K batch Hne Hall) as (M & Hc & Hle & Hmax).
  eexists. eexists. exists M.
  split; [exact Hc|]. split; [exact Hle|]. split; [exact Hmax|].
  split; [reflexivity|]. split; [reflexivity|].
  intros b it Hb. cbn [data]. split.
  - intros r t Hr Ht. now apply padded_seq_cell.
  - intros t Ht. now apply padded_ss_row.
Qed.

Lemma protein_collate_padding_witness :
  ([(mkArray [1; 2; 1]%nat [1; 0]%Z, mkArray [1; 1]%nat [2]%Z);
    (mkArray [1; 2; 2]%nat [1; 0; 0; 1]%Z, mkArray [1; 2]%nat [1; 2]%Z)] <> [] /\
   Forall (batch_item 2)
     [(mkArray [1; 2; 1]%nat [1; 0]%Z, mkArray [1; 1]%nat [2]%Z);
      (mkArray [1; 2; 2]%nat [1; 0; 0; 1]%Z, mkArray [1; 2]%nat [1; 2]%Z)]) /\
  exists seq_tensor ss_tensor,
    protein_collate
      [(mkArray [1; 2; 1]%nat [1; 0]%Z, mkArray [1; 1]%nat [2]%Z);
       (mkArray [1; 2; 2]%nat [1; 0; 0; 1]%Z, mkArray [1; 2]%nat [1; 2]%Z)] =
    Return (seq_tensor, ss_tensor) /\
    shape ss_tensor = [2%nat; 2%nat].
Proof.
  set (batch := [(mkArray [1; 2; 1]%nat [1; 0]%Z, mkArray [1; 1]%nat [2]%Z);
                 (mkArray [1; 2; 2]%nat [1; 0; 0; 1]%Z, mkArray [1; 2]%nat [1; 2]%Z)]).
  assert (H1 : batch <> []) by discriminate.
  assert (H2 : Forall (batch_item 2) batch).
  { repeat constructor; [exists 1%nat | exists 2%nat]; split; reflexivity. }
  split; [split; assumption|].
  destruct (proj2 (protein_collate_padding 2 batch) H1 H2)
    as (sq & ss & M & Hc & _ & _ & _ & Hs & _).
  exists sq, ss. split; [exact Hc|].
  assert (Heq : Return (sq, ss) = protein_collate batch) by (now symmetry).
  vm_compute in Heq. injection Heq as _ ->. reflexivity.
Defined.

Lemma symbols_app (l1 l2 : list Z) (s1 s2 : str) (map_dict : list (Z * ascii)) :
  symbols l1 map_dict = Ok s1 -> symbols l2 map_dict = Ok s2 ->
  symbols (l1 ++ l2) map_dict = Ok (s1 ++ s2).
Proof.
  revert s1. induction l1 as [|x l1 IH]; intros s1 H1 H2; simpl in *.
  - injection H1 as <-. exact H2.
  - destruct (sym_get x map_dict) as [c|e]; [|discriminate]. cbn [bind] in *.
    destruct (symbols l1 map_dict) as [cs|e]; [|discriminate]. cbn [bind] in *.
    injection H1 as <-. now rewrite (IH cs eq_refl H2).
Qed.

Lemma symbols_zeros (n : nat) :
  symbols (repeat 0%Z n) pos_ss_dict = Ok (repeat "H"%char n).
Proof. induction n as [|n IH]; [reflexivity|]. simpl. now rewrite IH. Qed.

(** X24. The padding of the labels reads as helix: the labels are padded
    with 0, the code of H.  When item b of a batch carries the codes of a
    label string of length L, row b of the label tensor decodes, with
    [ints_to_symbols1d], to that string followed by M - L times H. *)
Theorem protein_collate_padding_is_helix (K : nat)
    (batch : list (ndarray * ndarray)) (b : nat) (sq : ndarray)
    (codes : list Z) (ss : str) :
  Forall (batch_item K) batch ->
  nth_error batch b = Some (sq, batch_wrapped codes) ->
  symbols codes pos_ss_dict = Ok ss ->
  exists seq_tensor ss_tensor M,
    protein_collate batch = Return (seq_tensor, ss_tensor) /\
    shape ss_tensor = [length batch; M] /\ (length codes <= M)%nat /\
    data (label_row ss_tensor M b) = codes ++ repeat 0%Z (M - length codes) /\
    ints_to_symbols1d (label_row ss_tensor M b) pos_ss_dict =
    Return (ss ++ repeat "H"%char (M - length codes)).
Proof.
  intros Hall Hb Hss.
  assert (Hne : batch <> []) by (intros ->; now destruct b).
  destruct (protein_collate_spec K batch Hne Hall) as (M & Hc & Hle & _).
  eexists. eexists. exists M.
  pose proof (nth_error_In _ _ Hb) as Hin.
  assert (HL : item_length (sq, batch_wrapped codes) = length codes).
  { rewrite Forall_forall in Hall. destruct (Hall _ Hin) as (L & Hs & Hs').
    unfold item_length. cbn [fst snd] in *. rewrite Hs. cbn [nth].
    unfold batch_wrapped in Hs'. cbn [shape] in Hs'. congruence. }
  pose proof (Hle _ Hin) as HleM. rewrite HL in HleM.
  assert (Hblt : (b < length batch)%nat) by (apply nth_error_Some; congruence).
  assert (Hdata : slice (flat_map data (map (padded_ss M) batch))
                    (b * M) (b * M + M) =
                  codes ++ repeat 0%Z (M - length codes)).
  { unfold slice.
    replace (b * M + M - b * M)%nat with M by lia.
    apply (nth_ext _ _ 0%Z 0%Z).
    - rewrite length_firstn, length_skipn, length_app, repeat_length,
        padded_ss_length. nia.
    - intros t Ht. rewrite length_firstn, length_skipn, padded_ss_length in Ht.
      assert (HtM : (t < M)%nat) by lia.
      rewrite nth_firstn, nth_skipn.
      destruct (Nat.ltb_spec t M); [|lia].
      rewrite (padded_ss_row M batch b t _ Hb HtM), HL. cbn [snd batch_wrapped data].
      destruct (Nat.ltb_spec t (length codes)) as [Hlt|Hge].
      + now rewrite app_nth1.
      + rewrite app_nth2 by lia. now rewrite nth_repeat. }
  split; [exact Hc|]. split; [reflexivity|]. split; [exact HleM|].
  unfold label_row. cbn [data array1d]. split; [exact Hdata|].
  rewrite Hdata.
  change (mkArray [length (codes ++ repeat 0%Z (M - length codes))]
            (codes ++ repeat 0%Z (M - length codes)))
    with (array1d (codes ++ repeat 0%Z (M - length codes))).
  rewrite ints_to_symbols1d_flat.
  now rewrite (symbols_app _ _ _ _ _ Hss (symbols_zeros _)).
Qed.

Lemma protein_collate_padding_is_helix_witness :
  (Forall (batch_item 2)
     [(mkArray [1; 2; 1]%nat [1; 0]%Z, batch_wrapped [2]%Z);
      (mkArray [1; 2; 2]%nat [1; 0; 0; 1]%Z, batch_wrapped [1; 2]%Z)] /\
   nth_error
     [(mkArray [1; 2; 1]%nat [1; 0]%Z, batch_wrapped [2]%Z);
      (mkArray [1; 2; 2]%nat [1; 0; 0; 1]%Z, batch_wrapped [1; 2]%Z)] 0 =
   Some (mkArray [1; 2; 1]%nat [1; 0]%Z, batch_wrapped [2]%Z) /\
   symbols [2]%Z pos_ss_dict = Ok (lit "-")) /\
  exists seq_tensor ss_tensor M,
    protein_collate
      [(mkArray [1; 2; 1]%nat [1; 0]%Z, batch_wrapped [2]%Z);
       (mkArray [1; 2; 2]%nat [1; 0; 0; 1]%Z, batch_wrapped [1; 2]%Z)] =
    Return (seq_tensor, ss_tensor) /\
    ints_to_symbols1d (label_row ss_tensor M 0) pos_ss_dict =
    Return (lit "-" ++ repeat "H"%char (M - 1)).
Proof.
  set (batch := [(mkArray [1; 2; 1]%nat [1; 0]%Z, batch_wrapped [2]%Z);
                 (mkArray [1; 2; 2]%nat [1; 0; 0; 1]%Z, batch_wrapped [1; 2]%Z)]).
  assert (H1 : Forall (batch_item 2) batch).
  { repeat constructor; [exists 1%nat | exists 2%nat]; split; reflexivity. }
  assert (H2 : nth_error batch 0 =
               Some (mkArray [1; 2; 1]%nat [1; 0]%Z, batch_wrapped [2]%Z))
    by reflexivity.
  assert (H3 : symbols [2]%Z pos_ss_dict = Ok (lit "-")) by reflexivity.
  split; [repeat split; assumption|].
  destruct (protein_collate_padding_is_helix 2 batch 0 _ _ _ H1 H2 H3)
    as (sq & ss & M & Hc & _ & _ & _ & Hd).
  exists sq, ss, M. split; [exact Hc | exact Hd].
Defined.

Lemma table3_rows (K L : nat) (dat : list Z) :
  length dat = (K * L)%nat ->
  table3 K 1 L
    (fun i _ t => if (t <? L)%nat then nth (i * L + t) dat 0%Z else 0%Z) = dat.
Proof.
  intros Hlen. apply (nth_ext _ _ 0%Z 0%Z).
  - rewrite table3_length. lia.
  - intros n Hn. rewrite table3_length in Hn.
    assert (HL : (0 < L)%nat) by nia.
    pose proof (Nat.div_mod_eq n L) as Hdm.
    pose proof (Nat.mod_upper_bound n L ltac:(lia)) as Hmod.
    assert (Hdiv : (n / L < K)%nat) by (apply Nat.Div0.div_lt_upper_bound; nia).
    replace n with ((n / L * 1 + 0) * L + n mod L)%nat at 1 by nia.
    rewrite table3_nth by lia.
    destruct (Nat.ltb_spec (n mod L) L); [|lia].
    f_equal. nia.
Qed.

(** X25. Collating a single item changes nothing: for a batch of one
    well-formed item of shapes (1, K, L) and (1, L), as the validation and
    test loaders make them, [protein_collate] returns the sequence and the
    labels of the item as they are. *)
Theorem protein_collate_single (K : nat) (sq s : ndarray) :
  batch_item K (sq, s) -> well_formed sq -> well_formed s ->
  protein_collate [(sq, s)] = Return (sq, s).
Proof.
  intros Hit Hwq Hws.
  assert (Hall : Forall (batch_item K) [(sq, s)]) by (now constructor).
  destruct (protein_collate_spec K [(sq, s)] ltac:(discriminate) Hall)
    as (M & Hc & Hle & (it & [<-|[]] & HM)).
  rewrite Hc. destruct Hit as (L & Hs & Hss). cbn [fst snd] in *.
  unfold item_length in HM. cbn [fst] in HM. rewrite Hs in HM. cbn [nth] in HM.
  subst M. unfold well_formed in Hwq, Hws. rewrite Hs in Hwq. rewrite Hss in Hws.
  cbn [size_of fold_right] in Hwq, Hws.
  cbn [map flat_map length]. rewrite !app_nil_r.
  unfold padded_seq, padded_ss, item_length. cbn [fst snd data]. rewrite Hs.
  cbn [nth].
  rewrite (table3_rows K L (data sq)) by lia.
  rewrite (table3_rows 1 L (data s)) by lia.
  destruct sq as [shq dq], s as [shs ds]. cbn [shape data] in *.
  now subst.
Qed.

Lemma protein_collate_single_witness :
  (batch_item 2 (mkArray [1; 2; 2]%nat [1; 0; 0; 1]%Z, batch_wrapped [1; 2]%Z) /\
   well_formed (mkArray [1; 2; 2]%nat [1; 0; 0; 1]%Z) /\
   well_formed (batch_wrapped [1; 2]%Z)) /\
  protein_collate [(mkArray [1; 2; 2]%nat [1; 0; 0; 1]%Z, batch_wrapped [1; 2]%Z)] =
  Return (mkArray [1; 2; 2]%nat [1; 0; 0; 1]%Z, batch_wrapped [1; 2]%Z).
Proof.
  assert (H1 : batch_item 2
                 (mkArray [1; 2; 2]%nat [1; 0; 0; 1]%Z, batch_wrapped [1; 2]%Z))
    by (exists 2%nat; split; reflexivity).
  assert (H2 : well_formed (mkArray [1; 2; 2]%nat [1; 0; 0; 1]%Z)) by reflexivity.
  assert (H3 : well_formed (batch_wrapped [1; 2]%Z)) by reflexivity.
  split; [repeat split; assumption|].
  exact (protein_collate_single 2 _ _ H1 H2 H3).
Defined.
